(** * Batch execution engine of the Grok Imagine video client

    A shallow embedding of [src/utils/batch-manager.ts] (the [Semaphore],
    [estimateBatchCost], [executeBatch], [executeJob]) and of
    [src/utils/batch-config.ts] ([validateBatchConfig], [validateJobConfig],
    [validateRetryPolicy], [resolveOutputPath]), followed by the properties
    of the batch specification checked against them.

    Conventions of the embedding.
    - A JavaScript [number] is an exact rational [Q] where the code's
      behaviour depends on its fractional part: the limits [max_concurrent],
      [max_retries] and [max_poll_attempts], which no validator requires to
      be whole, the permits of the semaphore, durations in seconds and
      costs.  The rounding of IEEE doubles is not modelled; the additions
      and subtractions of 1 the semaphore performs are exact on the limits
      validation admits.  A number of milliseconds, which the code only
      compares with its bounds and hands to a timer, is a [Z].  Loop
      indices are [nat].
    - An optional field of a TypeScript interface is an [option].  Fields
      carry the type their interface declares, so the [typeof] tests of the
      validators are statically true and are left out.
    - Strings are [string] and hold the UTF-8 encoding of the JavaScript
      string.  [trim] strips the white space and line terminators of
      ECMAScript in that encoding; [toLowerCase] folds the letters A to Z
      and leaves every other character as it is, as JavaScript does on
      strings whose letters are ASCII.
    - The remote executor ([generateVideo], [editVideo]) is an oracle: the
      outcome of each invocation is a parameter of the model.
    - [Date.now()] readings ([duration_ms], [started_at], [finished_at],
      [total_duration_ms]) and [debugLog] calls are left out. *)

From Stdlib Require Import ZArith QArith Qround String Ascii List Lia Lqa Bool
  DecimalString.
From stdpp Require Import base list gmap strings sorting.
Import ListNotations.

Open Scope string_scope.

(** ** JavaScript primitives used by the code *)

Module JS.

(** [!!s] for an optional string: [undefined] and [""] are falsy. *)
Definition truthy (s : option string) : bool :=
  match s with
  | Some (String _ _) => true
  | _ => false
  end.

(** [!!n] for an optional number: [undefined] and [0] are falsy. *)
Definition truthyQ (n : option Q) : bool :=
  match n with
  | Some q => negb (Qeq_bool q 0)
  | None => false
  end.

(** [a || b] on optional strings. *)
Definition or_str (a b : option string) : option string :=
  if truthy a then a else b.

(** [a || b] on optional numbers. *)
Definition or_num (a b : option Q) : option Q :=
  if truthyQ a then a else b.

(** [a || d] on an optional integer with a constant right operand. *)
Definition or_int (a : option Z) (d : Z) : Z :=
  match a with
  | Some z => if (z =? 0)%Z then d else z
  | None => d
  end.

(** A loop index as a number. *)
Definition ofNat (n : nat) : Q := inject_Z (Z.of_nat n).

(** [a || d] on an optional number with a constant right operand. *)
Definition or_q (a : option Q) (d : Q) : Q :=
  match a with
  | Some q => if Qeq_bool q 0 then d else q
  | None => d
  end.

(** [a ?? d]. *)
Definition nullish {A} (a : option A) (d : A) : A :=
  match a with
  | Some x => x
  | None => d
  end.

Definition lower_ascii (c : ascii) : ascii :=
  let n := nat_of_ascii c in
  if (65 <=? n)%nat && (n <=? 90)%nat then ascii_of_nat (n + 32) else c.

(** [s.toLowerCase()]. *)
Fixpoint toLowerCase (s : string) : string :=
  match s with
  | EmptyString => EmptyString
  | String c rest => String (lower_ascii c) (toLowerCase rest)
  end.

(** [s.startsWith(p)]. *)
Definition startsWith (s p : string) : bool := String.prefix p s.

(** [hay.includes(needle)]. *)
Fixpoint includes (hay needle : string) : bool :=
  String.prefix needle hay ||
  match hay with
  | EmptyString => false
  | String _ rest => includes rest needle
  end.

(** The number of bytes of the white space or line terminator character
    the string starts with, [0] when it starts with none.  The characters
    [trim] strips are U+0009 to U+000D, U+0020, U+00A0, U+1680, U+2000 to
    U+200A, U+2028, U+2029, U+202F, U+205F, U+3000 and U+FEFF. *)
Definition whiteSpace (s : string) : nat :=
  match s with
  | String c1 rest1 =>
      let n1 := nat_of_ascii c1 in
      if (n1 =? 32)%nat || ((9 <=? n1)%nat && (n1 <=? 13)%nat) then 1%nat
      else
        match rest1 with
        | String c2 rest2 =>
            let n2 := nat_of_ascii c2 in
            (* U+00A0 *)
            if (n1 =? 194)%nat && (n2 =? 160)%nat then 2%nat
            else
              match rest2 with
              | String c3 _ =>
                  let n3 := nat_of_ascii c3 in
                  (* U+1680 *)
                  if (n1 =? 225)%nat && (n2 =? 154)%nat && (n3 =? 128)%nat
                  then 3%nat
                  (* U+2000 to U+200A, U+2028, U+2029, U+202F *)
                  else if (n1 =? 226)%nat && (n2 =? 128)%nat
                          && (((128 <=? n3)%nat && (n3 <=? 138)%nat)
                              || (n3 =? 168)%nat || (n3 =? 169)%nat
                              || (n3 =? 175)%nat)
                  then 3%nat
                  (* U+205F *)
                  else if (n1 =? 226)%nat && (n2 =? 129)%nat && (n3 =? 159)%nat
                  then 3%nat
                  (* U+3000 *)
                  else if (n1 =? 227)%nat && (n2 =? 128)%nat && (n3 =? 128)%nat
                  then 3%nat
                  (* U+FEFF *)
                  else if (n1 =? 239)%nat && (n2 =? 187)%nat && (n3 =? 191)%nat
                  then 3%nat
                  else 0%nat
              | EmptyString => 0%nat
              end
        | EmptyString => 0%nat
        end
  | EmptyString => 0%nat
  end.

(** Drops the white space the string starts with; [skip] is the number of
    bytes still to drop of the white space character being removed. *)
Fixpoint dropSpace (skip : nat) (s : string) {struct s} : string :=
  match s with
  | EmptyString => EmptyString
  | String _ rest =>
      match skip with
      | S k => dropSpace k rest
      | O =>
          match whiteSpace s with
          | O => s
          | S k => dropSpace k rest
          end
      end
  end.

(** [s.trimStart()]. *)
Definition trimStart (s : string) : string := dropSpace 0 s.

(** [s.trimEnd()]: a string of white space only becomes empty; otherwise
    its first byte stays and the rest is trimmed. *)
Fixpoint trimEnd (s : string) : string :=
  match s with
  | EmptyString => EmptyString
  | String c rest =>
      match trimStart s with
      | EmptyString => EmptyString
      | _ => String c (trimEnd rest)
      end
  end.

(** [s.trim()]. *)
Definition trim (s : string) : string := trimEnd (trimStart s).

(** [String(n)] for a non-negative integer, as in a template literal. *)
Definition showNat (n : nat) : string :=
  NilEmpty.string_of_uint (Nat.to_uint n).

(** [xs.join(sep)]. *)
Fixpoint join (sep : string) (xs : list string) : string :=
  match xs with
  | [] => ""
  | [x] => x
  | x :: rest => x ++ sep ++ join sep rest
  end.

(** The one-character string holding a double quote. *)
Definition quote : string := String (ascii_of_nat 34) EmptyString.

(** [xs.includes(x)] on an array of strings. *)
Definition arrayIncludes (xs : list string) (x : string) : bool :=
  existsb (String.eqb x) xs.

End JS.

(** ** Node's [path] module, POSIX flavour *)

Module Path.

Definition slash : ascii := "/"%char.

(** The pieces of a path between separators. *)
Fixpoint segments (s : string) : list string :=
  match s with
  | EmptyString => [EmptyString]
  | String c rest =>
      if Ascii.eqb c slash then EmptyString :: segments rest
      else match segments rest with
           | seg :: more => String c seg :: more
           | [] => [String c EmptyString]
           end
  end.

(** [normalizeString]: drops empty and [.] segments and resolves [..];
    [acc] is the result so far, last segment first. *)
Fixpoint normalizeSegments (allowAboveRoot : bool) (acc segs : list string)
  : list string :=
  match segs with
  | [] => rev acc
  | seg :: rest =>
      if String.eqb seg "" || String.eqb seg "." then
        normalizeSegments allowAboveRoot acc rest
      else if String.eqb seg ".." then
        match acc with
        | last :: acc' =>
            if String.eqb last ".." then
              normalizeSegments allowAboveRoot
                (if allowAboveRoot then ".." :: acc else acc) rest
            else normalizeSegments allowAboveRoot acc' rest
        | [] =>
            normalizeSegments allowAboveRoot
              (if allowAboveRoot then [".."] else []) rest
        end
      else normalizeSegments allowAboveRoot (seg :: acc) rest
  end.

Definition isAbsolute (p : string) : bool :=
  match p with
  | String c _ => Ascii.eqb c slash
  | EmptyString => false
  end.

Fixpoint endsWithSlash (p : string) : bool :=
  match p with
  | EmptyString => false
  | String c EmptyString => Ascii.eqb c slash
  | String _ rest => endsWithSlash rest
  end.

(** [path.normalize(p)]. *)
Definition normalize (p : string) : string :=
  match p with
  | EmptyString => "."
  | _ =>
      let abs := isAbsolute p in
      let body := JS.join "/" (normalizeSegments (negb abs) [] (segments p)) in
      match body with
      | EmptyString =>
          if abs then "/" else if endsWithSlash p then "./" else "."
      | _ =>
          let body' := if endsWithSlash p then body ++ "/" else body in
          if abs then "/" ++ body' else body'
      end
  end.

(** [path.join(a, b)]: empty arguments are skipped. *)
Definition join (a b : string) : string :=
  match a, b with
  | EmptyString, EmptyString => "."
  | EmptyString, _ => normalize b
  | _, EmptyString => normalize a
  | _, _ => normalize (a ++ "/" ++ b)
  end.

(** [path.resolve(p)] in a process whose working directory is [cwd]. *)
Definition resolve (cwd p : string) : string :=
  let full :=
    if isAbsolute p then p
    else match p with
         | EmptyString => cwd
         | _ => cwd ++ "/" ++ p
         end in
  let body := JS.join "/" (normalizeSegments (negb (isAbsolute full)) []
                             (segments full)) in
  if isAbsolute full then "/" ++ body
  else match body with
       | EmptyString => "."
       | _ => body
       end.

End Path.

(** ** Constants of [src/types/tools.ts] *)

Definition MODELS : list string := ["grok-imagine-video"].
Definition ASPECT_RATIOS : list string :=
  ["16:9"; "4:3"; "1:1"; "9:16"; "3:4"; "3:2"; "2:3"].
Definition RESOLUTIONS : list string := ["720p"; "480p"].
Definition MIN_DURATION : Q := 1.
Definition MAX_DURATION : Q := 15.
Definition DEFAULT_DURATION : Q := 5.
Definition DEFAULT_POLL_INTERVAL : Z := 5000.
Definition DEFAULT_MAX_POLL_ATTEMPTS : Q := 120.

(** ** Data model ([src/types/batch.ts]) *)

Record BatchJobConfig : Type := {
  prompt : string;
  output_path : option string;
  model : option string;
  duration : option Q;
  aspect_ratio : option string;
  resolution : option string;
  image_url : option string;
  image_path : option string;
  video_url : option string
}.

Record RetryPolicy : Type := {
  max_retries : option Q;
  retry_delay_ms : option Z;
  retry_on_errors : option (list string)
}.

Record BatchConfig : Type := {
  jobs : list BatchJobConfig;
  output_dir : option string;
  max_concurrent : option Q;
  timeout : option Z;
  poll_interval : option Z;
  max_poll_attempts : option Q;
  retry_policy : option RetryPolicy;
  default_model : option string;
  default_resolution : option string;
  default_aspect_ratio : option string;
  default_duration : option Q
}.

Inductive JobStatus : Type := completed | failed | cancelled.

(** [BatchJobResult]; the fields that share a name with [BatchJobConfig]
    carry the prefix [res_]. *)
Record BatchJobResult : Type := {
  index : nat;
  res_prompt : string;
  status : JobStatus;
  res_output_path : option string;
  res_video_url : option string;
  error : option string;
  video_duration : option Q;
  is_edit : option bool;
  is_image_to_video : option bool;
  request_id : option string
}.

Record BatchResult : Type := {
  total : nat;
  succeeded : nat;
  failed_count : nat;
  cancelled_count : nat;
  results : list BatchJobResult;
  estimated_cost : option Q
}.

Record BatchExecutionOptions : Type := {
  outputDir : option string;
  opt_timeout : option Z;
  maxConcurrent : option Q;
  pollInterval : option Z;
  maxPollAttempts : option Q;
  estimateOnly : option bool;
  allowAnyPath : option bool
}.

Inductive JobKind : Type := generation | image_to_video | edit.

Record BreakdownEntry : Type := {
  type : JobKind;
  count : nat;
  totalDuration : Q;
  costMin : Q;
  costMax : Q
}.

Record CostEstimate : Type := {
  totalJobs : nat;
  totalVideoDuration : Q;
  estimatedCostMin : Q;
  estimatedCostMax : Q;
  breakdown : list BreakdownEntry
}.

(** The part of the process environment the code reads. *)
Record Env : Type := {
  OUTPUT_DIR : option string;
  cwd : string
}.

#[global] Instance JobStatus_eq_dec : EqDecision JobStatus.
Proof. solve_decision. Defined.

#[global] Instance JobKind_eq_dec : EqDecision JobKind.
Proof. solve_decision. Defined.

(** ** Configuration loading and validation ([src/utils/batch-config.ts]) *)

Module Config.

(** [class BatchConfigError extends Error]: the error carries its message. *)
Inductive BatchConfigError : Type :=
| MkBatchConfigError (message : string).

(** A computation that returns or throws a [BatchConfigError]. *)
Definition Throws (A : Type) : Type := BatchConfigError + A.

Definition ok {A} (x : A) : Throws A := inr x.
Definition throw {A} (msg : string) : Throws A := inl (MkBatchConfigError msg).

Definition bind {A B} (c : Throws A) (k : A -> Throws B) : Throws B :=
  match c with
  | inl e => inl e
  | inr x => k x
  end.

Notation "c1 ;;; c2" := (bind c1 (fun _ => c2))
  (at level 100, c2 at level 200, right associativity).

(** [if (cond) throw new BatchConfigError(msg)]. *)
Definition throwIf (cond : bool) (msg : string) : Throws unit :=
  if cond then throw msg else ok tt.

(** [if (x !== undefined) { body }]. *)
Definition whenDefined {A} (x : option A) (body : A -> Throws unit)
  : Throws unit :=
  match x with
  | Some v => body v
  | None => ok tt
  end.

Definition Zout (lo hi v : Z) : bool := ((v <? lo) || (hi <? v))%Z.

Definition Qlt_bool (a b : Q) : bool := negb (Qle_bool b a).

Definition Qout (lo hi v : Q) : bool := Qlt_bool v lo || Qlt_bool hi v.

Definition validateJobConfig (job : BatchJobConfig) (index : nat)
  : Throws unit :=
  let prefix := "Job " ++ JS.showNat (index + 1) in
  throwIf (match JS.trim (prompt job) with EmptyString => true | _ => false end)
    (prefix ++ ": prompt is required and must be a non-empty string") ;;;
  whenDefined (model job) (fun m =>
    throwIf (negb (JS.arrayIncludes MODELS m))
      (prefix ++ ": Invalid model " ++ JS.quote ++ m ++ JS.quote ++ ". Must be one of: "
              ++ JS.join ", " MODELS)) ;;;
  (* Determine job type *)
  let isEditJob := JS.truthy (video_url job) in
  let isImageToVideoJob := JS.truthy (image_url job) in
  whenDefined (duration job) (fun d =>
    throwIf isEditJob
      (prefix ++ ": duration cannot be specified for edit jobs (inherited from source video)") ;;;
    throwIf (Qout MIN_DURATION MAX_DURATION d)
      (prefix ++ ": duration must be between 1 and 15 seconds")) ;;;
  whenDefined (aspect_ratio job) (fun a =>
    throwIf isEditJob
      (prefix ++ ": aspect_ratio cannot be specified for edit jobs") ;;;
    throwIf (negb (JS.arrayIncludes ASPECT_RATIOS a))
      (prefix ++ ": Invalid aspect_ratio " ++ JS.quote ++ a ++ JS.quote ++ ". Must be one of: "
              ++ JS.join ", " ASPECT_RATIOS)) ;;;
  whenDefined (resolution job) (fun r =>
    throwIf (negb (JS.arrayIncludes RESOLUTIONS r))
      (prefix ++ ": Invalid resolution " ++ JS.quote ++ r ++ JS.quote ++ ". Must be one of: "
              ++ JS.join ", " RESOLUTIONS)) ;;;
  (* Edit job requirements *)
  if isEditJob then
    throwIf isImageToVideoJob
      (prefix ++ ": Cannot specify both video_url and image_url")
  else ok tt.

(** The two tests on [retry_on_errors] (an array, of strings) hold by its
    type. *)
Definition validateRetryPolicy (policy : RetryPolicy) : Throws unit :=
  whenDefined (max_retries policy) (fun m =>
    throwIf (Qout 0 5 m) "retry_policy.max_retries must be between 0 and 5") ;;;
  whenDefined (retry_delay_ms policy) (fun d =>
    throwIf (Zout 100 60000 d)
      "retry_policy.retry_delay_ms must be between 100 and 60000").

(** [config.jobs.forEach((job, index) => validateJobConfig(job, index))]. *)
Fixpoint validateJobs (js : list BatchJobConfig) (index : nat) : Throws unit :=
  match js with
  | [] => ok tt
  | job :: rest => validateJobConfig job index ;;; validateJobs rest (S index)
  end.

Definition validateBatchConfig (config : BatchConfig) : Throws unit :=
  throwIf (length (jobs config) =? 0)%nat "Jobs array cannot be empty" ;;;
  throwIf (100 <? length (jobs config))%nat "Maximum 100 jobs allowed per batch" ;;;
  validateJobs (jobs config) 0 ;;;
  whenDefined (max_concurrent config) (fun k =>
    throwIf (Qout 1 10 k) "max_concurrent must be a number between 1 and 10") ;;;
  whenDefined (timeout config) (fun t =>
    throwIf (Zout 1000 3600000 t)
      "timeout must be between 1000 and 3600000 milliseconds") ;;;
  whenDefined (poll_interval config) (fun p =>
    throwIf (Zout 1000 60000 p)
      "poll_interval must be between 1000 and 60000 milliseconds") ;;;
  whenDefined (max_poll_attempts config) (fun p =>
    throwIf (Qout 1 1000 p) "max_poll_attempts must be between 1 and 1000") ;;;
  whenDefined (retry_policy config) validateRetryPolicy ;;;
  whenDefined (default_model config) (fun m =>
    throwIf (negb (JS.arrayIncludes MODELS m))
      ("Invalid default_model: " ++ m ++ ". Must be one of: "
         ++ JS.join ", " MODELS)) ;;;
  whenDefined (default_resolution config) (fun r =>
    throwIf (negb (JS.arrayIncludes RESOLUTIONS r))
      ("Invalid default_resolution: " ++ r ++ ". Must be one of: "
         ++ JS.join ", " RESOLUTIONS)) ;;;
  whenDefined (default_aspect_ratio config) (fun a =>
    throwIf (negb (JS.arrayIncludes ASPECT_RATIOS a))
      ("Invalid default_aspect_ratio: " ++ a ++ ". Must be one of: "
         ++ JS.join ", " ASPECT_RATIOS)) ;;;
  whenDefined (default_duration config) (fun d =>
    throwIf (Qout MIN_DURATION MAX_DURATION d)
      "default_duration must be between 1 and 15 seconds").

(** [process.env.OUTPUT_DIR || process.cwd()]. *)
Definition getDefaultOutputDirectory (env : Env) : string :=
  JS.nullish (JS.or_str (OUTPUT_DIR env) (Some (cwd env))) "".

Definition resolveOutputPath (env : Env) (job : BatchJobConfig) (index : nat)
    (outputDir : string) (allowAnyPath : bool) : Throws string :=
  match output_path job with
  | Some (String _ _ as out) =>
      if Path.isAbsolute out then
        (if negb allowAnyPath then
           (* Security check: ensure path is within allowed directory *)
           let resolved := Path.resolve (cwd env) out in
           let allowedDir := Path.resolve (cwd env) outputDir in
           throwIf (negb (JS.startsWith resolved allowedDir))
             ("Job " ++ JS.showNat (index + 1)
                ++ ": Output path must be within output directory. Use --allow-any-path to override.")
         else ok tt) ;;;
        ok out
      else ok (Path.join outputDir out)
  | _ =>
      (* Generate default filename *)
      let isEditJob := JS.truthy (video_url job) in
      let isImageToVideoJob := JS.truthy (image_url job) in
      let prefix :=
        if isEditJob then "edited"
        else if isImageToVideoJob then "animated"
        else "generated" in
      ok (Path.join outputDir (prefix ++ "_" ++ JS.showNat (index + 1) ++ ".mp4"))
  end.

End Config.

(** ** The remote executor, seen from the batch manager *)

(** [VideoGenerationResult], what [generateVideo] and [editVideo] resolve to. *)
Record VideoGenerationResult : Type := {
  vr_success : bool;
  vr_url : option string;
  vr_output_path : option string;
  vr_duration : option Q;
  vr_request_id : option string
}.

Record EditVideoParams : Type := {
  ev_prompt : string;
  ev_video_url : string;
  ev_output_path : option string;
  ev_model : option string
}.

Record GenerateVideoParams : Type := {
  gv_prompt : string;
  gv_output_path : option string;
  gv_model : option string;
  gv_duration : option Q;
  gv_aspect_ratio : option string;
  gv_resolution : option string;
  gv_image_url : option string;
  gv_image_path : option string
}.

(** One call of the executor, with its arguments after the API key. *)
Inductive ExecRequest : Type :=
| EditVideo (params : EditVideoParams) (pollInterval : Z) (maxPollAttempts : Q)
| GenerateVideo (params : GenerateVideoParams) (pollInterval : Z)
    (maxPollAttempts : Q).

(** The promise of a call either resolves or rejects; [Rejected] carries
    the string [error.message || String(error)] of the thrown error. *)
Inductive ExecOutcome : Type :=
| Resolved (result : VideoGenerationResult)
| Rejected (message : string).

(** The executor of one job: the outcome of its [n]-th invocation (from 0). *)
Definition Executor : Type := ExecRequest -> nat -> ExecOutcome.

(** What [executeJob] does to the outside world, in order. *)
Inductive Effect : Type :=
| Invoke (req : ExecRequest)
| Sleep (ms : Z).

Definition isInvoke (e : Effect) : bool :=
  match e with
  | Invoke _ => true
  | Sleep _ => false
  end.

(** Number of executor invocations in a trace. *)
Definition invocations (trace : list Effect) : nat :=
  length (List.filter isInvoke trace).

(** Number of inter-retry delays in a trace. *)
Definition delays (trace : list Effect) : nat :=
  length (List.filter (fun e => negb (isInvoke e)) trace).

(** ** The counting semaphore *)

Module Semaphore.

(** [queue] holds the [resolve] callbacks of the suspended [acquire]
    calls, each named by the job whose task is suspended on it. *)
Record t : Type := {
  permits : Q;
  queue : list nat
}.

Definition new (n : Q) : t := {| permits := n; queue := [] |}.

(** [acquire()] called by [waiter]: [true] when the permit is taken at
    once, [false] when the caller is parked in the queue. *)
Definition acquire (waiter : nat) (s : t) : t * bool :=
  (* this.permits > 0 *)
  if negb (Qle_bool (permits s) 0) then
    ({| permits := permits s - 1; queue := queue s |}, true)
  else
    ({| permits := permits s; queue := queue s ++ [waiter] |}, false).

(** [release()]: the permit goes to the first waiter, if there is one. *)
Definition release (s : t) : t * option nat :=
  match queue s with
  | next :: rest => ({| permits := permits s; queue := rest |}, Some next)
  | [] => ({| permits := permits s + 1; queue := [] |}, None)
  end.

End Semaphore.

(** ** The batch manager ([src/utils/batch-manager.ts]) *)

Module Manager.

Import Config.

(** *** Cost estimation *)

Definition perSecond (k : JobKind) : Q :=
  match k with
  | generation => 5 # 100
  | image_to_video => 5 # 100
  | edit => 7 # 100
  end.

Definition imageBonus : Q := 1 # 100.

(** The [1.2] of the 20% estimation margin. *)
Definition margin : Q := 12 # 10.

Record TypeCount : Type := {
  tc_count : nat;
  tc_totalDuration : Q
}.

(** The object [typeCounts], one entry per key. *)
Record TypeCounts : Type := {
  of_generation : TypeCount;
  of_image_to_video : TypeCount;
  of_edit : TypeCount
}.

Definition typeCounts0 : TypeCounts :=
  {| of_generation := {| tc_count := 0; tc_totalDuration := 0%Q |};
     of_image_to_video := {| tc_count := 0; tc_totalDuration := 0%Q |};
     of_edit := {| tc_count := 0; tc_totalDuration := 0%Q |} |}.

(** [typeCounts[type]]. *)
Definition getCount (tc : TypeCounts) (k : JobKind) : TypeCount :=
  match k with
  | generation => of_generation tc
  | image_to_video => of_image_to_video tc
  | edit => of_edit tc
  end.

Definition bumped (d : Q) (c : TypeCount) : TypeCount :=
  {| tc_count := tc_count c + 1; tc_totalDuration := (tc_totalDuration c + d)%Q |}.

(** [typeCounts[type].count++; typeCounts[type].totalDuration += duration]. *)
Definition bump (k : JobKind) (d : Q) (tc : TypeCounts) : TypeCounts :=
  match k with
  | generation =>
      {| of_generation := bumped d (of_generation tc);
         of_image_to_video := of_image_to_video tc;
         of_edit := of_edit tc |}
  | image_to_video =>
      {| of_generation := of_generation tc;
         of_image_to_video := bumped d (of_image_to_video tc);
         of_edit := of_edit tc |}
  | edit =>
      {| of_generation := of_generation tc;
         of_image_to_video := of_image_to_video tc;
         of_edit := bumped d (of_edit tc) |}
  end.

(** The body of the first loop up to the two updates: the [type] and the
    [duration] the estimator assigns to a job. *)
Definition typeAndDuration (defaultDuration : Q) (job : BatchJobConfig)
  : JobKind * Q :=
  let isEdit := JS.truthy (video_url job) in
  let isImageToVideo :=
    JS.truthy (image_url job) || JS.truthy (image_path job) in
  if isEdit then
    (* Edit duration is unknown (comes from source video), estimate 5 seconds *)
    (edit, 5%Q)
  else if isImageToVideo then
    (image_to_video, JS.nullish (duration job) defaultDuration)
  else
    (generation, JS.nullish (duration job) defaultDuration).

(** The job kind as [estimateBatchCost] computes it. *)
Definition estimateType (job : BatchJobConfig) : JobKind :=
  fst (typeAndDuration DEFAULT_DURATION job).

Definition countJob (defaultDuration : Q) (tc : TypeCounts)
    (job : BatchJobConfig) : TypeCounts :=
  let '(type, duration) := typeAndDuration defaultDuration job in
  bump type duration tc.

(** The running totals of the second loop. *)
Record Totals : Type := {
  totalMin : Q;
  totalMax : Q;
  totalSeconds : Q;
  entries : list BreakdownEntry
}.

Definition totals0 : Totals :=
  {| totalMin := 0%Q; totalMax := 0%Q; totalSeconds := 0%Q; entries := [] |}.

Definition bucketCost (k : JobKind) (data : TypeCount) : Q :=
  let cost := (perSecond k * tc_totalDuration data)%Q in
  match k with
  | image_to_video =>
      (cost + imageBonus * inject_Z (Z.of_nat (tc_count data)))%Q
  | _ => cost
  end.

(** One iteration over [Object.entries(typeCounts)]. *)
Definition addBucket (tc : TypeCounts) (acc : Totals) (k : JobKind) : Totals :=
  let data := getCount tc k in
  if (tc_count data =? 0)%nat then acc
  else
    let cost := bucketCost k data in
    {| totalMin := (totalMin acc + cost)%Q;
       totalMax := (totalMax acc + cost * margin)%Q;
       totalSeconds := (totalSeconds acc + tc_totalDuration data)%Q;
       entries := entries acc ++
         [{| type := k;
             count := tc_count data;
             totalDuration := tc_totalDuration data;
             costMin := cost;
             costMax := (cost * margin)%Q |}] |}.

Definition estimateBatchCost (config : BatchConfig) : CostEstimate :=
  let defaultDuration := JS.nullish (default_duration config) DEFAULT_DURATION in
  let typeCounts := fold_left (countJob defaultDuration) (jobs config) typeCounts0 in
  let acc := fold_left (addBucket typeCounts)
               [generation; image_to_video; edit] totals0 in
  {| totalJobs := length (jobs config);
     totalVideoDuration := totalSeconds acc;
     estimatedCostMin := totalMin acc;
     estimatedCostMax := totalMax acc;
     breakdown := entries acc |}.

(** *** One job with its retry loop *)

Definition defaultRetryPolicy : RetryPolicy :=
  {| max_retries := Some 2%Q; retry_delay_ms := Some 1000%Z;
     retry_on_errors := None |}.

Definition defaultRetryPatterns : list string :=
  ["rate_limit"; "timeout"; "429"; "503"].

(** The call [executeJob] makes on each attempt. *)
Definition request (job : BatchJobConfig) (outputPath : string)
    (config : BatchConfig) (pollInterval : Z) (maxPollAttempts : Q)
  : ExecRequest :=
  let isEditJob := JS.truthy (video_url job) in
  if isEditJob then
    EditVideo
      {| ev_prompt := prompt job;
         ev_video_url := JS.nullish (video_url job) "";
         ev_output_path := Some outputPath;
         ev_model := JS.or_str (model job) (default_model config) |}
      pollInterval maxPollAttempts
  else
    GenerateVideo
      {| gv_prompt := prompt job;
         gv_output_path := Some outputPath;
         gv_model := JS.or_str (model job) (default_model config);
         gv_duration := JS.or_num (duration job) (default_duration config);
         gv_aspect_ratio := JS.or_str (aspect_ratio job) (default_aspect_ratio config);
         gv_resolution := JS.or_str (resolution job) (default_resolution config);
         gv_image_url := image_url job;
         gv_image_path := image_path job |}
      pollInterval maxPollAttempts.

(** [if (x) v = x]: a falsy field leaves the variable [undefined]. *)
Definition keepTruthy (s : option string) : option string :=
  if JS.truthy s then s else None.

Definition keepTruthyQ (n : option Q) : option Q :=
  if JS.truthyQ n then n else None.

(** [retryPatterns.some((pattern) =>
      lastError.toLowerCase().includes(pattern.toLowerCase()))]. *)
Definition matchesPattern (retryPatterns : list string) (lastError : string)
  : bool :=
  existsb (fun pattern =>
             JS.includes (JS.toLowerCase lastError) (JS.toLowerCase pattern))
          retryPatterns.

Section RetryLoop.

Variable exec : Executor.
Variable req : ExecRequest.
Variable maxRetries : Q.
Variable retryDelay : Z.
Variable retryPatterns : list string.

(** [attempt < maxRetries && retryPatterns.some(...)]. *)
Definition shouldRetry (attempt : nat) (lastError : string) : bool :=
  Qlt_bool (JS.ofNat attempt) maxRetries
  && matchesPattern retryPatterns lastError.

(** [for (let attempt = 0; attempt <= maxRetries; attempt++)], with
    [remaining] the number of iterations still to run: the loop is entered
    with the whole numbers from [attempt] to [maxRetries] ahead of it.
    The loop ends with the resolved result of an attempt ([inl]) or falls
    through with [lastError] ([inr]). *)
Fixpoint retryLoop (remaining attempt : nat) (lastError : string)
  : (VideoGenerationResult + string) * list Effect :=
  match remaining with
  | O => (inr lastError, [])
  | S remaining' =>
      match exec req attempt with
      | Resolved result => (inl result, [Invoke req])
      | Rejected message =>
          let '(out, effects) := retryLoop remaining' (S attempt) message in
          (out,
           Invoke req ::
           (if shouldRetry attempt message then [Sleep retryDelay] else [])
           ++ effects)
      end
  end.

End RetryLoop.

Definition executeJob (job : BatchJobConfig) (index : nat)
    (outputPath : string) (config : BatchConfig)
    (pollInterval : Z) (maxPollAttempts : Q) (exec : Executor)
  : BatchJobResult * list Effect :=
  let jobIndex := index + 1 in
  let isEditJob := JS.truthy (video_url job) in
  let isImageToVideoJob :=
    JS.truthy (image_url job) || JS.truthy (image_path job) in
  let retryPolicy := JS.nullish (retry_policy config) defaultRetryPolicy in
  let maxRetries := JS.nullish (max_retries retryPolicy) 2%Q in
  let retryDelay := JS.nullish (retry_delay_ms retryPolicy) 1000%Z in
  let retryPatterns :=
    JS.nullish (retry_on_errors retryPolicy) defaultRetryPatterns in
  let req := request job outputPath config pollInterval maxPollAttempts in
  let '(out, effects) :=
    (* attempt = 0, 1, ... while attempt <= maxRetries *)
    retryLoop exec req maxRetries retryDelay retryPatterns
      (Z.to_nat (Qfloor maxRetries + 1)) 0 "" in
  match out with
  | inl result =>
      ({| index := jobIndex;
          res_prompt := prompt job;
          status := completed;
          res_output_path :=
            Some (JS.nullish (keepTruthy (vr_output_path result)) outputPath);
          res_video_url := keepTruthy (vr_url result);
          error := None;
          video_duration := keepTruthyQ (vr_duration result);
          is_edit := Some isEditJob;
          is_image_to_video := Some isImageToVideoJob;
          request_id := keepTruthy (vr_request_id result) |},
       effects)
  | inr lastError =>
      (* All retries exhausted *)
      ({| index := jobIndex;
          res_prompt := prompt job;
          status := failed;
          res_output_path := None;
          res_video_url := None;
          error := Some lastError;
          video_duration := None;
          is_edit := Some isEditJob;
          is_image_to_video := Some isImageToVideoJob;
          request_id := None |},
       effects)
  end.

(** *** The batch *)

(** Where the task of one job stands: suspended in [acquire] ([Queued]),
    holding a permit with its continuation not yet run ([Granted]),
    inside [executeJob] ([Running]), or past the [finally] ([Settled]). *)
Inductive TaskState : Type := Queued | Granted | Running | Settled.

#[global] Instance TaskState_eq_dec : EqDecision TaskState.
Proof. solve_decision. Defined.

(** The mutable state the tasks of a batch share. *)
Record Sched : Type := {
  semaphore : Semaphore.t;
  tasks : list TaskState;
  collected : list BatchJobResult
}.

(** The synchronous start of the task of job [i]: the async arrow runs
    up to its first suspension, inside [semaphore.acquire()]. *)
Definition launch (i : nat) (s : Sched) : Sched :=
  let '(sem, got) := Semaphore.acquire i (semaphore s) in
  {| semaphore := sem;
     tasks := tasks s ++ [if got then Granted else Queued];
     collected := collected s |}.

(** The loop that creates the job promises; [paths] collects the
    [outputPath] each task closes over. *)
Fixpoint launchAll (env : Env) (allowAny : bool) (outputDir : string)
    (js : list BatchJobConfig) (i : nat) (s : Sched) (paths : list string)
  : Throws (Sched * list string) :=
  match js with
  | [] => ok (s, paths)
  | job :: rest =>
      bind (resolveOutputPath env job i outputDir allowAny) (fun outputPath =>
        launchAll env allowAny outputDir rest (S i) (launch i s)
          (paths ++ [outputPath]))
  end.

(** What the event loop can run next: the continuation of an admitted
    task, or the completion of a running [executeJob]. *)
Inductive Event : Type :=
| Start (i : nat)
| Finish (i : nat).

Section Step.

Variable config : BatchConfig.
Variable pollInterval : Z.
Variable maxPollAttempts : Q.
Variable execs : nat -> Executor.
Variable paths : list string.

(** [results.push(result)] followed by the [finally] block. *)
Definition settle (i : nat) (result : BatchJobResult) (s : Sched) : Sched :=
  let '(sem, next) := Semaphore.release (semaphore s) in
  let tasks1 := <[i := Settled]> (tasks s) in
  {| semaphore := sem;
     tasks := match next with
              | Some j => <[j := Granted]> tasks1
              | None => tasks1
              end;
     collected := collected s ++ [result] |}.

(** One event; an event that is not enabled changes nothing. *)
Definition step (s : Sched) (ev : Event) : Sched :=
  match ev with
  | Start i =>
      match tasks s !! i with
      | Some Granted =>
          {| semaphore := semaphore s;
             tasks := <[i := Running]> (tasks s);
             collected := collected s |}
      | _ => s
      end
  | Finish i =>
      match tasks s !! i, jobs config !! i, paths !! i with
      | Some Running, Some job, Some outputPath =>
          settle i
            (fst (executeJob job i outputPath config pollInterval
                    maxPollAttempts (execs i)))
            s
      | _, _, _ => s
      end
  end.

Definition run (s : Sched) (schedule : list Event) : Sched :=
  fold_left step schedule s.

End Step.

Definition cancelledResult (i : nat) (job : BatchJobConfig) : BatchJobResult :=
  {| index := i + 1;
     res_prompt := prompt job;
     status := cancelled;
     res_output_path := None;
     res_video_url := None;
     error := Some "Job cancelled due to timeout";
     video_duration := None;
     is_edit := None;
     is_image_to_video := None;
     request_id := None |}.

(** The loop that marks incomplete jobs as cancelled. *)
Fixpoint markIncomplete (completedIndices : gset nat)
    (js : list BatchJobConfig) (i : nat) (results : list BatchJobResult)
  : list BatchJobResult :=
  match js with
  | [] => results
  | job :: rest =>
      markIncomplete completedIndices rest (S i)
        (if decide (i + 1 ∈ completedIndices) then results
         else results ++ [cancelledResult i job])
  end.

Fixpoint insertByIndex (r : BatchJobResult) (l : list BatchJobResult)
  : list BatchJobResult :=
  match l with
  | [] => [r]
  | x :: rest =>
      if (index r <=? index x)%nat then r :: l
      else x :: insertByIndex r rest
  end.

(** [results.sort((a, b) => a.index - b.index)], a stable sort. *)
Definition sortByIndex (l : list BatchJobResult) : list BatchJobResult :=
  fold_right insertByIndex [] l.

Definition countStatus (st : JobStatus) (l : list BatchJobResult) : nat :=
  length (filter (fun r => status r = st) l).

(** The end of [executeBatch], from "Mark incomplete jobs as cancelled". *)
Definition finalize (config : BatchConfig) (recorded : list BatchJobResult)
  : BatchResult :=
  let completedIndices : gset nat := list_to_set (index <$> recorded) in
  let results :=
    sortByIndex (markIncomplete completedIndices (jobs config) 0 recorded) in
  let estimate := estimateBatchCost config in
  {| total := length (jobs config);
     succeeded := countStatus completed results;
     failed_count := countStatus failed results;
     cancelled_count := countStatus cancelled results;
     results := results;
     estimated_cost := Some (estimatedCostMin estimate) |}.

Definition sched0 (maxConcurrent : Q) : Sched :=
  {| semaphore := Semaphore.new maxConcurrent; tasks := []; collected := [] |}.

(** [executeBatch].  [schedule] lists the events that happen between the
    creation of the job promises and the assembly of the report, which
    starts when every task has settled or when the deadline and its two
    seconds of grace have passed, whichever comes first. *)
Definition executeBatch (env : Env) (config : BatchConfig)
    (options : BatchExecutionOptions) (execs : nat -> Executor)
    (schedule : list Event) : Throws BatchResult :=
  let maxConcurrent := JS.or_q (max_concurrent config) 2 in
  let outputDir :=
    JS.nullish
      (JS.or_str (output_dir config) (Some (getDefaultOutputDirectory env))) "" in
  let pollInterval := JS.or_int (poll_interval config) DEFAULT_POLL_INTERVAL in
  let maxPollAttempts :=
    JS.or_q (max_poll_attempts config) DEFAULT_MAX_POLL_ATTEMPTS in
  bind (launchAll env (JS.nullish (allowAnyPath options) false) outputDir
          (jobs config) 0 (sched0 maxConcurrent) [])
    (fun '(s0, paths) =>
       let s := run config pollInterval maxPollAttempts execs paths s0 schedule in
       ok (finalize config (collected s))).

End Manager.

(** ** Observations in which the properties are stated *)

Module Obs.

Import Config Manager.

(** The kind of work a call of the executor asks for: [editVideo] edits;
    [generateVideo] animates an image when it is given one. *)
Definition requestType (req : ExecRequest) : JobKind :=
  match req with
  | EditVideo _ _ _ => edit
  | GenerateVideo p _ _ =>
      if JS.truthy (gv_image_url p) || JS.truthy (gv_image_path p)
      then image_to_video else generation
  end.

(** The kind a job result reports through [is_edit] and
    [is_image_to_video], the edit flag first. *)
Definition flagsType (r : BatchJobResult) : option JobKind :=
  match is_edit r, is_image_to_video r with
  | Some true, _ => Some edit
  | Some false, Some true => Some image_to_video
  | Some false, Some false => Some generation
  | _, _ => None
  end.

(** A task holds a permit from its admission to its [finally]. *)
Definition isHolder (t : TaskState) : bool :=
  match t with
  | Granted | Running => true
  | Queued | Settled => false
  end.


Definition b2n (b : bool) : nat := if b then 1 else 0.

Definition holders (ts : list TaskState) : nat :=
  length (List.filter isHolder ts).


Fixpoint isPrefix (xs ys : list string) : bool :=
  match xs, ys with
  | [], _ => true
  | x :: xs', y :: ys' => String.eqb x y && isPrefix xs' ys'
  | _ :: _, [] => false
  end.

(** The directories a resolved absolute path goes through. *)
Definition components (p : string) : list string :=
  Path.normalizeSegments false [] (Path.segments p).

(** [p] lies in the directory [dir] or below it. *)
Definition within (dir p : string) : bool :=
  isPrefix (components dir) (components p).

(** The entry of the report for job [i], given where its task stands
    when the report is assembled. *)
Definition expectedEntry (config : BatchConfig)
    (pollInterval : Z) (maxPollAttempts : Q) (execs : nat -> Executor)
    (paths : list string) (ts : list TaskState) (i : nat)
    (job : BatchJobConfig) : BatchJobResult :=
  match ts !! i, paths !! i with
  | Some Settled, Some outputPath =>
      fst (executeJob job i outputPath config pollInterval maxPollAttempts
             (execs i))
  | _, _ => cancelledResult i job
  end.

(** The settings [executeBatch] derives from its arguments. *)
Definition maxConcurrentOf (config : BatchConfig) : Q :=
  JS.or_q (max_concurrent config) 2.

Definition outputDirOf (env : Env) (config : BatchConfig) : string :=
  JS.nullish
    (JS.or_str (output_dir config) (Some (getDefaultOutputDirectory env))) "".

Definition pollIntervalOf (config : BatchConfig) : Z :=
  JS.or_int (poll_interval config) DEFAULT_POLL_INTERVAL.

Definition maxPollAttemptsOf (config : BatchConfig) : Q :=
  JS.or_q (max_poll_attempts config) DEFAULT_MAX_POLL_ATTEMPTS.

Definition allowAnyOf (options : BatchExecutionOptions) : bool :=
  JS.nullish (allowAnyPath options) false.

(** The state of the batch once every job promise has been created, with
    the output paths of the jobs. *)
Definition launched (env : Env) (config : BatchConfig)
    (options : BatchExecutionOptions) : Throws (Sched * list string) :=
  launchAll env (allowAnyOf options) (outputDirOf env config) (jobs config) 0
    (sched0 (maxConcurrentOf config)) [].

(** The shared state when the report is assembled. *)
Definition finalState (config : BatchConfig) (execs : nat -> Executor)
    (schedule : list Event) (s0 : Sched) (paths : list string) : Sched :=
  run config (pollIntervalOf config) (maxPollAttemptsOf config) execs paths
    s0 schedule.

(** The order of the report. *)
Definition byIndex (a b : BatchJobResult) : Prop := (index a <= index b)%nat.

(** The report the batch should assemble from the tasks' final states. *)
Definition expectedReport (config : BatchConfig)
    (pollInterval : Z) (maxPollAttempts : Q) (execs : nat -> Executor)
    (paths : list string) (ts : list TaskState) : list BatchJobResult :=
  imap (expectedEntry config pollInterval maxPollAttempts execs paths ts)
    (jobs config).

(** The queue of the semaphore holds the suspended tasks, each once. *)
Definition queueInv (s : Sched) : Prop :=
  NoDup (Semaphore.queue (semaphore s)) /\
  forall j, j ∈ Semaphore.queue (semaphore s) <-> tasks s !! j = Some Queued.

(** The [k] permits are either free or held by a task that is admitted or
    running: no settled task keeps one.  The count of free permits stays
    above [-1]: a permit is only taken from a positive count. *)
Definition permitInv (k : Q) (s : Sched) : Prop :=
  (-1 < Semaphore.permits (semaphore s))%Q /\
  (Semaphore.permits (semaphore s) + JS.ofNat (holders (tasks s)) == k)%Q.

(** The results pushed so far are those of the settled tasks, one each. *)
Definition resultInv (config : BatchConfig) (pollInterval : Z) (maxPollAttempts : Q)
    (execs : nat -> Executor) (paths : list string) (s : Sched) : Prop :=
  NoDup (index <$> collected s) /\
  forall res,
    res ∈ collected s <->
    exists i job,
      jobs config !! i = Some job /\ tasks s !! i = Some Settled /\
      res = expectedEntry config pollInterval maxPollAttempts execs paths
              (tasks s) i job.

(** The cancelled entries the finalization adds, in the order of the jobs. *)
Fixpoint missing (completedIndices : gset nat) (js : list BatchJobConfig)
    (i : nat) : list BatchJobResult :=
  match js with
  | [] => []
  | job :: rest =>
      (if decide (i + 1 ∈ completedIndices) then [] else [cancelledResult i job])
      ++ missing completedIndices rest (S i)
  end.

(** The retry bound and the retry patterns [executeJob] reads off a
    configuration. *)
Definition maxRetriesOf (config : BatchConfig) : Q :=
  JS.nullish
    (max_retries (JS.nullish (retry_policy config) defaultRetryPolicy)) 2%Q.

Definition retryPatternsOf (config : BatchConfig) : list string :=
  JS.nullish
    (retry_on_errors (JS.nullish (retry_policy config) defaultRetryPolicy))
    defaultRetryPatterns.

(** The breakdown entry of the bucket of kind [k]; an empty bucket has none. *)
Definition bucketEntries (tc : TypeCounts) (k : JobKind) : list BreakdownEntry :=
  if (tc_count (getCount tc k) =? 0)%nat then []
  else [{| type := k;
           count := tc_count (getCount tc k);
           totalDuration := tc_totalDuration (getCount tc k);
           costMin := bucketCost k (getCount tc k);
           costMax := (bucketCost k (getCount tc k) * margin)%Q |}].

(** Number of jobs the estimator counts under kind [k]. *)
Definition jobsOfType (k : JobKind) (js : list BatchJobConfig) : nat :=
  length (List.filter (fun job => bool_decide (estimateType job = k)) js).

(** The job durations and the default duration are not negative. *)
Definition nonnegDurations (config : BatchConfig) : Prop :=
  (forall d, default_duration config = Some d -> (0 <= d)%Q) /\
  (forall job d, In job (jobs config) -> duration job = Some d -> (0 <= d)%Q).

End Obs.

(** ** Sample inputs *)

Module Sample.

Definition textJob (p : string) : BatchJobConfig :=
  {| prompt := p; output_path := None; model := None; duration := None;
     aspect_ratio := None; resolution := None; image_url := None;
     image_path := None; video_url := None |}.

Definition timedJob (p : string) (d : Q) : BatchJobConfig :=
  {| prompt := p; output_path := None; model := None; duration := Some d;
     aspect_ratio := None; resolution := None; image_url := None;
     image_path := None; video_url := None |}.

Definition editJob (p v : string) : BatchJobConfig :=
  {| prompt := p; output_path := None; model := None; duration := None;
     aspect_ratio := None; resolution := None; image_url := None;
     image_path := None; video_url := Some v |}.

(** A job that animates a local image. *)
Definition imagePathJob : BatchJobConfig :=
  {| prompt := "Animate the character walking"; output_path := None;
     model := None; duration := Some 10%Q; aspect_ratio := None;
     resolution := None; image_url := None;
     image_path := Some "./images/character.jpg"; video_url := None |}.

(** An edit job that also names a local image. *)
Definition editJobWithImagePath : BatchJobConfig :=
  {| prompt := "Make the ball larger"; output_path := None; model := None;
     duration := None; aspect_ratio := None; resolution := None;
     image_url := None; image_path := Some "./images/character.jpg";
     video_url := Some "https://example.com/video.mp4" |}.

(** A job that asks for an absolute path next to the output directory. *)
Definition outsideJob : BatchJobConfig :=
  {| prompt := "A cat playing with a ball";
     output_path := Some "/outside/x.mp4"; model := None; duration := None;
     aspect_ratio := None; resolution := None; image_url := None;
     image_path := None; video_url := None |}.

(** The ideographic space U+3000, in UTF-8. *)
Definition ideographicSpace : string :=
  String (ascii_of_nat 227)
    (String (ascii_of_nat 128) (String (ascii_of_nat 128) EmptyString)).

(** The no-break space U+00A0, in UTF-8. *)
Definition noBreakSpace : string :=
  String (ascii_of_nat 194) (String (ascii_of_nat 160) EmptyString).

Definition policy (m : Q) (patterns : list string) : RetryPolicy :=
  {| max_retries := Some m; retry_delay_ms := Some 1000%Z;
     retry_on_errors := Some patterns |}.

Definition configOf (js : list BatchJobConfig) (k : option Q)
    (p : option RetryPolicy) : BatchConfig :=
  {| jobs := js; output_dir := Some "/out"; max_concurrent := k;
     timeout := None; poll_interval := None; max_poll_attempts := None;
     retry_policy := p; default_model := None; default_resolution := None;
     default_aspect_ratio := None; default_duration := None |}.

Definition noOptions : BatchExecutionOptions :=
  {| outputDir := None; opt_timeout := None; maxConcurrent := None;
     pollInterval := None; maxPollAttempts := None; estimateOnly := None;
     allowAnyPath := None |}.

Definition env : Env := {| OUTPUT_DIR := None; cwd := "/home/user" |}.

Definition video : VideoGenerationResult :=
  {| vr_success := true; vr_url := Some "https://vidgen.x.ai/v.mp4";
     vr_output_path := Some "/out/generated_1.mp4"; vr_duration := Some 5%Q;
     vr_request_id := Some "req-1" |}.


(** Three text jobs run one at a time. *)
Definition serialConfig : BatchConfig :=
  configOf [textJob "first"; textJob "second"; textJob "third"]
    (Some 1%Q) (Some (policy 1 ["rate_limit"])).

(** An executor that rejects every call with the same message. *)
Definition alwaysRejects (msg : string) : Executor :=
  fun _ _ => Rejected msg.

(** An executor that rejects its first [r] calls and then resolves. *)
Definition rejectsThenResolves (r : nat) (msg : string) : Executor :=
  fun _ n => if (n <? r)%nat then Rejected msg else Resolved video.

Definition alwaysResolves : Executor := fun _ _ => Resolved video.

End Sample.

(** ** Merging the configuration with the options
    ([mergeBatchConfig] of [src/utils/batch-config.ts]) *)

Module Merge.

Import Config.

Definition DEFAULT_RESOLUTION : string := "720p".
Definition DEFAULT_ASPECT_RATIO : string := "16:9".

(** [if (opt !== undefined) merged.field = opt]. *)
Definition override {A} (opt field : option A) : option A :=
  match opt with
  | Some v => Some v
  | None => field
  end.

(** The retry policy [mergeBatchConfig] fills in. *)
Definition mergedRetryPolicy : RetryPolicy :=
  {| max_retries := Some 2%Q; retry_delay_ms := Some 1000%Z;
     retry_on_errors := Some ["rate_limit"; "timeout"; "429"; "503"] |}.

Definition mergeBatchConfig (env : Env) (config : BatchConfig)
    (options : BatchExecutionOptions) : BatchConfig :=
  (* Apply environment defaults *)
  let output_dir1 :=
    if negb (JS.truthy (output_dir config)) && JS.truthy (OUTPUT_DIR env)
    then OUTPUT_DIR env else output_dir config in
  (* Apply CLI overrides *)
  let output_dir2 :=
    if JS.truthy (outputDir options) then outputDir options else output_dir1 in
  let max_concurrent1 := override (maxConcurrent options) (max_concurrent config) in
  let timeout1 := override (opt_timeout options) (timeout config) in
  let poll_interval1 := override (pollInterval options) (poll_interval config) in
  let max_poll_attempts1 :=
    override (maxPollAttempts options) (max_poll_attempts config) in
  (* Set defaults *)
  {| jobs := jobs config;
     output_dir := output_dir2;
     max_concurrent := Some (JS.nullish max_concurrent1 2%Q);
     timeout := Some (JS.nullish timeout1 600000%Z);
     poll_interval := Some (JS.nullish poll_interval1 DEFAULT_POLL_INTERVAL);
     max_poll_attempts :=
       Some (JS.nullish max_poll_attempts1 DEFAULT_MAX_POLL_ATTEMPTS);
     retry_policy := Some (JS.nullish (retry_policy config) mergedRetryPolicy);
     default_model :=
       Some (JS.nullish (default_model config) "grok-imagine-video");
     default_resolution :=
       Some (JS.nullish (default_resolution config) DEFAULT_RESOLUTION);
     default_aspect_ratio :=
       Some (JS.nullish (default_aspect_ratio config) DEFAULT_ASPECT_RATIO);
     default_duration :=
       Some (JS.nullish (default_duration config) DEFAULT_DURATION) |}.

End Merge.

(** ** The batch command ([main] of the batch CLI) *)

Module Cli.

Import Config Manager Merge.










Section ParseArgs.

(** [parseInt(s, 10)], with [None] for [NaN]; a missing argument
    ([args[++i]] past the end) is not a number either. *)
Variable parseInt : string -> option Z.




End ParseArgs.

(** What the command prints, as data. *)
Inductive Output : Type :=
| Version
| Help
| MissingApiKey
| ConfigurationError (message : string)
| Estimate (estimate : CostEstimate)
| Report (result : BatchResult).

(** [main], from the result of [parseArgs] on: [loaded] is what
    [loadBatchConfig(configPath)] returns or throws, [apiKey] the
    environment's [XAI_API_KEY], and the second component the code passed
    to [process.exit]. *)
Definition main (showVersion showHelp : bool) (configPath apiKey : option string)
    (loaded : Throws BatchConfig) (env : Env) (options : BatchExecutionOptions)
    (execs : nat -> Executor) (schedule : list Event) : Output * nat :=
  if showVersion then (Version, 0%nat)
  else if showHelp || negb (JS.truthy configPath) then
    (Help, if showHelp then 0%nat else 1%nat)
  else if negb (JS.truthy apiKey) then (MissingApiKey, 1%nat)
  else
    let body :=
      bind loaded (fun config =>
      validateBatchConfig config ;;;
      let mergedConfig := mergeBatchConfig env config options in
      (* Estimate only mode *)
      if JS.nullish (estimateOnly options) false then
        ok (Estimate (estimateBatchCost mergedConfig), 0%nat)
      else
        (* Execute batch *)
        bind (executeBatch env mergedConfig options execs schedule)
          (fun result =>
             (* Exit code based on results *)
             ok (Report result,
                 if (0 <? failed_count result)%nat
                    || (0 <? cancelled_count result)%nat
                 then 1%nat else 0%nat))) in
    match body with
    | inl (MkBatchConfigError message) => (ConfigurationError message, 1%nat)
    | inr outcome => outcome
    end.

End Cli.

(** ** Polling for the result ([pollVideoResult] of [src/utils/video.ts]) *)

Module Video.

Inductive VideoGenerationStatus : Type := st_pending | st_completed | st_failed.

Record XAIVideo : Type := {
  xv_url : string;
  xv_duration : Q
}.

(** [XAIVideoGenerationResult]: every field is optional. *)
Record XAIVideoGenerationResult : Type := {
  x_status : option VideoGenerationStatus;
  x_video : option XAIVideo;
  x_model : option string;
  x_error : option string
}.

(** What one round of [fetch], [response.ok] and [response.json()] gives:
    a rejection of one of the awaited promises, a response that is not
    [ok], or the parsed body of one that is. *)
Inductive Response : Type :=
| Broken (message : string)
| NotOk (status : Z) (statusText : string)
| Ok (result : XAIVideoGenerationResult).

Inductive PollEffect : Type :=
| Fetch (attempt : nat)
| Progress (status : option VideoGenerationStatus) (attempt : nat)
| Wait (ms : Z).

Inductive PollOutcome : Type :=
| Returned (result : XAIVideoGenerationResult)
| Thrown (message : string).

(** [String(n)] for an integer, as in a template literal. *)
Definition showInt (z : Z) : string :=
  match z with
  | Z0 => "0"
  | Zpos p => JS.showNat (Pos.to_nat p)
  | Zneg p => "-" ++ JS.showNat (Pos.to_nat p)
  end.

Section Poll.

(** [String(n)] for a number that is not whole. *)
Variable showFraction : Q -> string.

(** [String(n)], as in a template literal. *)
Definition showNumber (n : Q) : string :=
  if Qeq_bool (inject_Z (Qfloor n)) n then showInt (Qfloor n)
  else showFraction n.

(** The response to the request of each attempt. *)
Variable fetch : nat -> Response.
Variable pollInterval : Z.
Variable maxAttempts : Q.
(** Whether [onProgress] is given. *)
Variable onProgress : bool.

(** [for (let attempt = 1; attempt <= maxAttempts; attempt++)], with
    [remaining] the number of iterations still to run: the loop is entered
    with the whole numbers from [attempt] to [maxAttempts] ahead of it. *)
Fixpoint pollLoop (remaining attempt : nat) : PollOutcome * list PollEffect :=
  match remaining with
  | O =>
      (Thrown ("Video generation timed out after " ++ showNumber maxAttempts
                 ++ " attempts"), [])
  | S remaining' =>
      match fetch attempt with
      | Broken message => (Thrown message, [Fetch attempt])
      | NotOk status statusText =>
          (* Don't throw immediately for transient errors *)
          if (500 <=? status)%Z
             && Config.Qlt_bool (JS.ofNat attempt) maxAttempts then
            let '(out, effects) := pollLoop remaining' (S attempt) in
            (out, Fetch attempt :: Wait pollInterval :: effects)
          else
            (Thrown ("Failed to get video status: " ++ showInt status ++ " "
                       ++ statusText),
             [Fetch attempt])
      | Ok result =>
          let progress :=
            if onProgress then [Progress (x_status result) attempt] else [] in
          match x_status result with
          | Some st_completed => (Returned result, Fetch attempt :: progress)
          | Some st_failed =>
              (Thrown ("Video generation failed: "
                         ++ JS.nullish
                              (JS.or_str (x_error result) (Some "Unknown error"))
                              ""),
               Fetch attempt :: progress)
          | _ =>
              (* Status is 'pending', continue polling *)
              let '(out, effects) := pollLoop remaining' (S attempt) in
              (out,
               Fetch attempt :: progress
                 ++ (if Config.Qlt_bool (JS.ofNat attempt) maxAttempts
                     then [Wait pollInterval] else [])
                 ++ effects)
          end
      end
  end.

End Poll.

(** [pollVideoResult]; an omitted [pollInterval] or [maxAttempts] takes its
    default. *)
Definition pollVideoResult (showFraction : Q -> string)
    (fetch : nat -> Response) (pollInterval : option Z)
    (maxAttempts : option Q) (onProgress : bool)
  : PollOutcome * list PollEffect :=
  let pollInterval := JS.nullish pollInterval DEFAULT_POLL_INTERVAL in
  let maxAttempts := JS.nullish maxAttempts DEFAULT_MAX_POLL_ATTEMPTS in
  (* attempt = 1, 2, ... while attempt <= maxAttempts *)
  pollLoop showFraction fetch pollInterval maxAttempts onProgress
    (Z.to_nat (Qfloor maxAttempts)) 1.

(** [/^\d+:\d+$/.test(s)]. *)
Definition isDigit (c : ascii) : bool :=
  let n := nat_of_ascii c in (48 <=? n)%nat && (n <=? 57)%nat.

(** [\d*$]. *)
Fixpoint digitsToEnd (s : string) : bool :=
  match s with
  | EmptyString => true
  | String c rest => isDigit c && digitsToEnd rest
  end.

(** [\d*:\d+$]. *)
Fixpoint digitsColonDigits (s : string) : bool :=
  match s with
  | EmptyString => false
  | String c rest =>
      if isDigit c then digitsColonDigits rest
      else if Ascii.eqb c ":"%char then
        match rest with
        | EmptyString => false
        | _ => digitsToEnd rest
        end
      else false
  end.

Definition validateAspectRatio (aspectRatio : string) : bool :=
  match aspectRatio with
  | EmptyString => false
  | String c rest => isDigit c && digitsColonDigits rest
  end.

End Video.

(** ** Output files ([generateUniqueFilePath] and [getVideoExtension] of
    [src/utils/path.ts]) *)

Module PathUtil.

Section Paths.

(** [path.extname], [path.basename] with a suffix, [path.dirname]. *)
Variable extname : string -> string.
Variable basename : string -> string -> string.
Variable dirname : string -> string.
(** The files that exist while the function runs. *)
Variable fileExists : string -> bool.

(** [while (await fileExists(uniquePath))], for at most [fuel] rounds. *)
Fixpoint uniqueLoop (fuel : nat) (ext baseName dir : string) (counter : nat)
    (uniquePath : string) : option string :=
  if fileExists uniquePath then
    match fuel with
    | O => None
    | S fuel' =>
        let counter := (counter + 1)%nat in
        uniqueLoop fuel' ext baseName dir counter
          (Path.join dir (baseName ++ "_" ++ JS.showNat counter ++ ext))
    end
  else Some uniquePath.

Definition generateUniqueFilePath (fuel : nat) (filePath : string)
  : option string :=
  let ext := extname filePath in
  let baseName := basename filePath ext in
  let dir := dirname filePath in
  uniqueLoop fuel ext baseName dir 0 filePath.

(** [s.substring(1)]. *)
Definition substring1 (s : string) : string :=
  match s with
  | EmptyString => EmptyString
  | String _ rest => rest
  end.

Definition getVideoExtension (outputPath : string) : string :=
  let ext := JS.toLowerCase (extname outputPath) in
  if JS.arrayIncludes [".mp4"; ".webm"; ".mov"] ext then substring1 ext
  else "mp4".

End Paths.

End PathUtil.

(** ** The upload settings ([src/utils/r2.ts]) *)

Module R2.

(** The variables of the process environment the module reads. *)
Record R2Env : Type := {
  R2_ACCOUNT_ID : option string;
  R2_ACCESS_KEY_ID : option string;
  R2_SECRET_ACCESS_KEY : option string;
  R2_BUCKET_NAME : option string;
  R2_PUBLIC_URL : option string
}.

Record R2Config : Type := {
  accountId : string;
  accessKeyId : string;
  secretAccessKey : string;
  bucketName : string;
  publicUrl : string
}.

(** [s.replace(/\/$/, '')]: one trailing slash is removed. *)
Fixpoint dropTrailingSlash (s : string) : string :=
  match s with
  | EmptyString => EmptyString
  | String c EmptyString =>
      if Ascii.eqb c "/"%char then EmptyString else s
  | String c rest => String c (dropTrailingSlash rest)
  end.

Definition getR2Config (env : R2Env) : option R2Config :=
  if negb (JS.truthy (R2_ACCOUNT_ID env))
     || negb (JS.truthy (R2_ACCESS_KEY_ID env))
     || negb (JS.truthy (R2_SECRET_ACCESS_KEY env))
     || negb (JS.truthy (R2_BUCKET_NAME env))
     || negb (JS.truthy (R2_PUBLIC_URL env))
  then None
  else
    Some {| accountId := JS.nullish (R2_ACCOUNT_ID env) "";
            accessKeyId := JS.nullish (R2_ACCESS_KEY_ID env) "";
            secretAccessKey := JS.nullish (R2_SECRET_ACCESS_KEY env) "";
            bucketName := JS.nullish (R2_BUCKET_NAME env) "";
            publicUrl := dropTrailingSlash (JS.nullish (R2_PUBLIC_URL env) "") |}.

Definition isR2Configured (env : R2Env) : bool :=
  match getR2Config env with
  | Some _ => true
  | None => false
  end.

(** [process.env[varName]] for the five names. *)
Definition lookupVar (env : R2Env) (varName : string) : option string :=
  if String.eqb varName "R2_ACCOUNT_ID" then R2_ACCOUNT_ID env
  else if String.eqb varName "R2_ACCESS_KEY_ID" then R2_ACCESS_KEY_ID env
  else if String.eqb varName "R2_SECRET_ACCESS_KEY" then R2_SECRET_ACCESS_KEY env
  else if String.eqb varName "R2_BUCKET_NAME" then R2_BUCKET_NAME env
  else if String.eqb varName "R2_PUBLIC_URL" then R2_PUBLIC_URL env
  else None.

Definition getMissingR2Vars (env : R2Env) : list string :=
  let required :=
    ["R2_ACCOUNT_ID"; "R2_ACCESS_KEY_ID"; "R2_SECRET_ACCESS_KEY";
     "R2_BUCKET_NAME"; "R2_PUBLIC_URL"] in
  List.filter (fun varName => negb (JS.truthy (lookupVar env varName))) required.

End R2.

(** ** Further observations *)

Module Facts.

Import Config Manager Obs Merge Cli Video PathUtil.


Definition isSettled (t : TaskState) : bool :=
  match t with
  | Settled => true
  | _ => false
  end.

(** Number of tasks that have not settled. *)
Definition unsettled (ts : list TaskState) : nat :=
  length (List.filter (fun t => negb (isSettled t)) ts).

(** What is left for a task to do: be admitted, start, finish. *)
Definition stepsLeft (t : TaskState) : nat :=
  match t with
  | Queued => 3
  | Granted => 2
  | Running => 1
  | Settled => 0
  end.

Fixpoint workLeft (ts : list TaskState) : nat :=
  match ts with
  | [] => 0
  | t :: rest => stepsLeft t + workLeft rest
  end.

(** The queue holds the last jobs of the configuration, in their order. *)
Definition fifoInv (s : Sched) : Prop :=
  Semaphore.queue (semaphore s)
  = seq (length (tasks s) - length (Semaphore.queue (semaphore s)))
        (length (Semaphore.queue (semaphore s))) /\
  (length (Semaphore.queue (semaphore s)) <= length (tasks s))%nat.

(** A task waits only when no permit is free. *)
Definition waitInv (s : Sched) : Prop :=
  (0 < Semaphore.permits (semaphore s))%Q -> Semaphore.queue (semaphore s) = [].

(** Sum of a rational field over the breakdown. *)
Fixpoint sumOver (f : BreakdownEntry -> Q) (l : list BreakdownEntry) : Q :=
  match l with
  | [] => 0
  | b :: rest => f b + sumOver f rest
  end.

(** Seconds the estimator books for the jobs of kind [k]. *)
Fixpoint secondsOfType (k : JobKind) (defaultDuration : Q)
    (js : list BatchJobConfig) : Q :=
  match js with
  | [] => 0
  | job :: rest =>
      (if bool_decide (estimateType job = k)
       then snd (typeAndDuration defaultDuration job) else 0)
      + secondsOfType k defaultDuration rest
  end.

(** Requests and delays in a trace of [pollVideoResult]. *)
Definition fetches (trace : list PollEffect) : nat :=
  length (List.filter (fun e => match e with Fetch _ => true | _ => false end)
            trace).

Definition waits (trace : list PollEffect) : nat :=
  length (List.filter (fun e => match e with Wait _ => true | _ => false end)
            trace).

(** The trace is empty or ends with something other than a delay. *)
Definition endsBusy (trace : list PollEffect) : Prop :=
  trace = [] \/
  exists before e, trace = (before ++ [e])%list /\ forall ms, e <> Wait ms.

(** The responses after which the polling loop asks again, when attempts
    are left. *)
Definition goesOn (r : Response) : bool :=
  match r with
  | Broken _ => false
  | NotOk status _ => (500 <=? status)%Z
  | Ok result =>
      match x_status result with
      | Some st_completed | Some st_failed => false
      | _ => true
      end
  end.


(** A number without a fractional part. *)
Definition isWhole (q : Q) : Prop := exists z, (q == inject_Z z)%Q.

(** What the validators ask of an optional setting. *)
Definition inRange (lo hi : Z) (o : option Z) : Prop :=
  forall v, o = Some v -> (lo <= v <= hi)%Z.

Definition inRangeQ (lo hi : Q) (o : option Q) : Prop :=
  forall v, o = Some v -> (lo <= v <= hi)%Q.

Definition oneOf (xs : list string) (o : option string) : Prop :=
  forall v, o = Some v -> In v xs.

(** The jobs [validateJobConfig] lets through. *)
Definition acceptableJob (job : BatchJobConfig) : Prop :=
  JS.trim (prompt job) <> "" /\
  oneOf MODELS (model job) /\
  inRangeQ MIN_DURATION MAX_DURATION (duration job) /\
  oneOf ASPECT_RATIOS (aspect_ratio job) /\
  oneOf RESOLUTIONS (resolution job) /\
  (JS.truthy (video_url job) = true ->
   duration job = None /\ aspect_ratio job = None /\
   JS.truthy (image_url job) = false).

Definition acceptablePolicy (policy : RetryPolicy) : Prop :=
  inRangeQ 0 5 (max_retries policy) /\
  inRange 100 60000 (retry_delay_ms policy).

(** The configurations [validateBatchConfig] lets through. *)
Definition acceptableConfig (config : BatchConfig) : Prop :=
  (1 <= length (jobs config) <= 100)%nat /\
  Forall acceptableJob (jobs config) /\
  inRangeQ 1 10 (max_concurrent config) /\
  inRange 1000 3600000 (timeout config) /\
  inRange 1000 60000 (poll_interval config) /\
  inRangeQ 1 1000 (max_poll_attempts config) /\
  (forall policy, retry_policy config = Some policy -> acceptablePolicy policy) /\
  oneOf MODELS (default_model config) /\
  oneOf RESOLUTIONS (default_resolution config) /\
  oneOf ASPECT_RATIOS (default_aspect_ratio config) /\
  inRangeQ MIN_DURATION MAX_DURATION (default_duration config).





(** The delay [executeJob] waits before a retry. *)
Definition retryDelayOf (config : BatchConfig) : Z :=
  JS.nullish
    (retry_delay_ms (JS.nullish (retry_policy config) defaultRetryPolicy))
    1000%Z.

End Facts.

(** * Properties *)

Import Config Manager Obs.

(** ** Numbers *)

Lemma Qlt_bool_iff a b : Qlt_bool a b = true <-> (a < b)%Q.
Proof.
  unfold Qlt_bool. rewrite negb_true_iff. split.
  - intros H. apply Qnot_le_lt. intros Hle. apply Qle_bool_iff in Hle.
    congruence.
  - intros H. destruct (Qle_bool b a) eqn:E; [|reflexivity].
    apply Qle_bool_iff in E. lra.
Qed.

Lemma Qlt_bool_false a b : Qlt_bool a b = false <-> (b <= a)%Q.
Proof. unfold Qlt_bool. rewrite negb_false_iff. apply Qle_bool_iff. Qed.

Lemma Qfloor_whole q z : (q == inject_Z z)%Q -> Qfloor q = z.
Proof. intros H. rewrite H. apply Qfloor_Z. Qed.

Lemma ofNat_le_floor a q :
  (JS.ofNat a <= q)%Q <-> (Z.of_nat a <= Qfloor q)%Z.
Proof.
  unfold JS.ofNat. split.
  - intros H. rewrite <- (Qfloor_Z (Z.of_nat a)). now apply Qfloor_resp_le.
  - intros H. apply Qle_trans with (inject_Z (Qfloor q)).
    + now rewrite <- Zle_Qle.
    + apply Qfloor_le.
Qed.

Lemma ofNat_lt_floor a q : (Z.of_nat a < Qfloor q)%Z -> (JS.ofNat a < q)%Q.
Proof.
  intros H. unfold JS.ofNat. apply Qlt_le_trans with (inject_Z (Qfloor q)).
  - now rewrite <- Zlt_Qlt.
  - apply Qfloor_le.
Qed.



Lemma ofNat_lt a b : (JS.ofNat a < JS.ofNat b)%Q <-> (a < b)%nat.
Proof. unfold JS.ofNat. rewrite <- Zlt_Qlt. lia. Qed.

Lemma ofNat_le a b : (JS.ofNat a <= JS.ofNat b)%Q <-> (a <= b)%nat.
Proof. unfold JS.ofNat. rewrite <- Zle_Qle. lia. Qed.

Lemma ofNat_add a b : (JS.ofNat (a + b) == JS.ofNat a + JS.ofNat b)%Q.
Proof.
  unfold JS.ofNat. rewrite Nat2Z.inj_add, inject_Z_plus. reflexivity.
Qed.

Lemma ofNat_0 : (JS.ofNat 0 == 0)%Q.
Proof. reflexivity. Qed.

Lemma ofNat_1 : (JS.ofNat 1 == 1)%Q.
Proof. reflexivity. Qed.


Lemma Qfloor_between lo hi q :
  (inject_Z lo <= q <= inject_Z hi)%Q -> (lo <= Qfloor q <= hi)%Z.
Proof.
  intros [Hlo Hhi]. apply Qfloor_resp_le in Hlo, Hhi.
  rewrite Qfloor_Z in Hlo, Hhi. auto.
Qed.

Lemma or_q_between lo hi o d :
  (forall v, o = Some v -> (lo <= v <= hi)%Q) -> (lo <= d <= hi)%Q ->
  (lo <= JS.or_q o d <= hi)%Q.
Proof.
  intros Ho Hd. unfold JS.or_q. destruct o as [v|]; [|exact Hd].
  destruct (Qeq_bool v 0); [exact Hd|]. now apply Ho.
Qed.

Lemma ofNat_eq a b : a = b -> (JS.ofNat a == JS.ofNat b)%Q.
Proof. intros ->. reflexivity. Qed.

(** Carries an equation between counts over to the numbers. *)
Ltac count_eq H :=
  apply ofNat_eq in H; rewrite ?ofNat_add in H;
  rewrite ?ofNat_0, ?ofNat_1 in H.


(** The test [permits > 0]. *)
Lemma positive_spec (p : Q) :
  BoolSpec (0 < p)%Q (p <= 0)%Q (negb (Qle_bool p 0)).
Proof.
  destruct (Qle_bool p 0) eqn:Hle; constructor.
  - now apply Qle_bool_iff.
  - apply Qnot_le_lt. intros H. apply Qle_bool_iff in H. congruence.
Qed.

Lemma ofNat_S a : (JS.ofNat (S a) == JS.ofNat a + 1)%Q.
Proof.
  unfold JS.ofNat. rewrite Nat2Z.inj_succ. unfold Z.succ.
  rewrite inject_Z_plus. reflexivity.
Qed.



Lemma below_floor_more attempt n limit :
  Z.of_nat (attempt + S (S n)) = (Qfloor limit + 1)%Z ->
  Qlt_bool (JS.ofNat attempt) limit = true.
Proof. intros Hend. apply Qlt_bool_iff, ofNat_lt_floor. lia. Qed.

(** ** The retry loop *)

Section RetryLoopFacts.

Variable exec : Executor.
Variable req : ExecRequest.
Variable maxRetries : Q.
Variable retryDelay : Z.
Variable retryPatterns : list string.

Local Abbreviation loop := (retryLoop exec req maxRetries retryDelay retryPatterns).

Lemma invocations_step (b : bool) (effects : list Effect) :
  invocations (Invoke req :: (if b then [Sleep retryDelay] else []) ++ effects)
  = S (invocations effects).
Proof. destruct b; reflexivity. Qed.

Lemma delays_step (b : bool) (effects : list Effect) :
  delays (Invoke req :: (if b then [Sleep retryDelay] else []) ++ effects)
  = ((if b then 1 else 0) + delays effects)%nat.
Proof. destruct b; reflexivity. Qed.

(** A loop whose every attempt is rejected runs all its iterations. *)
Lemma retryLoop_rejected (remaining : nat) :
  forall attempt lastError,
    (forall a, (attempt <= a < attempt + remaining)%nat ->
               exists msg, exec req a = Rejected msg) ->
    (exists msg, fst (loop remaining attempt lastError) = inr msg) /\
    invocations (snd (loop remaining attempt lastError)) = remaining.
Proof.
  induction remaining as [|n IH]; intros attempt lastError Hrej.
  - split; [exists lastError|]; reflexivity.
  - destruct (Hrej attempt ltac:(lia)) as [msg Hmsg].
    cbn [retryLoop]. rewrite Hmsg.
    destruct (retryLoop exec req maxRetries retryDelay retryPatterns n
                (S attempt) msg) as [out effects] eqn:Hloop.
    specialize (IH (S attempt) msg).
    rewrite Hloop in IH.
    destruct IH as [Hout Hinv].
    { intros a Ha. apply Hrej. lia. }
    cbn [fst snd] in *. split; [exact Hout|].
    rewrite invocations_step. now rewrite Hinv.
Qed.

Lemma retryLoop_step_rejected (n attempt : nat) (lastError m : string) :
  exec req attempt = Rejected m ->
  fst (loop (S n) attempt lastError) = fst (loop n (S attempt) m).
Proof.
  intros Hm. cbn [retryLoop]. rewrite Hm.
  now destruct (retryLoop exec req maxRetries retryDelay retryPatterns n
                  (S attempt) m).
Qed.

(** A loop whose every attempt is rejected falls through with the message
    of the last rejection. *)
Lemma retryLoop_rejected_last (n : nat) :
  forall attempt lastError msg,
    (forall a, (attempt <= a < attempt + n)%nat ->
               exists m, exec req a = Rejected m) ->
    exec req (attempt + n) = Rejected msg ->
    fst (loop (S n) attempt lastError) = inr msg.
Proof.
  induction n as [|n IH]; intros attempt lastError msg Hrej Hlast.
  - rewrite Nat.add_0_r in Hlast.
    rewrite (retryLoop_step_rejected 0 attempt lastError msg Hlast).
    reflexivity.
  - destruct (Hrej attempt ltac:(lia)) as [m Hm].
    rewrite (retryLoop_step_rejected (S n) attempt lastError m Hm).
    apply IH.
    + intros a Ha. apply Hrej. lia.
    + replace (S attempt + n)%nat with (attempt + S n)%nat by lia. exact Hlast.
Qed.

(** [r] rejected attempts followed by a resolved one: the loop returns
    that result after [r + 1] invocations. *)
Lemma retryLoop_resolved (r : nat) :
  forall remaining attempt lastError result,
    (r < remaining)%nat ->
    (forall a, (attempt <= a < attempt + r)%nat ->
               exists msg, exec req a = Rejected msg) ->
    exec req (attempt + r) = Resolved result ->
    fst (loop remaining attempt lastError) = inl result /\
    invocations (snd (loop remaining attempt lastError)) = S r.
Proof.
  induction r as [|r IH]; intros remaining attempt lastError result Hlt Hrej Hres.
  - destruct remaining as [|n]; [lia|].
    cbn [retryLoop]. rewrite Nat.add_0_r in Hres. rewrite Hres.
    split; reflexivity.
  - destruct remaining as [|n]; [lia|].
    destruct (Hrej attempt ltac:(lia)) as [msg Hmsg].
    cbn [retryLoop]. rewrite Hmsg.
    destruct (retryLoop exec req maxRetries retryDelay retryPatterns n
                (S attempt) msg) as [out effects] eqn:Hloop.
    specialize (IH n (S attempt) msg result).
    rewrite Hloop in IH.
    destruct IH as [Hout Hinv].
    { lia. }
    { intros a Ha. apply Hrej. lia. }
    { replace (S attempt + r)%nat with (attempt + S r)%nat by lia. exact Hres. }
    cbn [fst snd] in *. split; [exact Hout|].
    rewrite invocations_step. now rewrite Hinv.
Qed.

(** Rejections that all match a pattern: a delay follows every attempt
    but the one that uses up the retries. *)
Lemma retryLoop_rejected_delays (remaining : nat) :
  forall attempt lastError,
    (forall a, (attempt <= a < attempt + remaining)%nat ->
               exists msg, exec req a = Rejected msg /\
                           matchesPattern retryPatterns msg = true) ->
    (maxRetries + 1 == JS.ofNat (attempt + remaining))%Q ->
    delays (snd (loop remaining attempt lastError)) = pred remaining.
Proof.
  induction remaining as [|n IH]; intros attempt lastError Hrej Hend.
  - reflexivity.
  - destruct (Hrej attempt ltac:(lia)) as (msg & Hmsg & Hpat).
    cbn [retryLoop]. rewrite Hmsg.
    destruct (retryLoop exec req maxRetries retryDelay retryPatterns n
                (S attempt) msg) as [out effects] eqn:Hloop.
    specialize (IH (S attempt) msg). rewrite Hloop in IH.
    cbn [snd] in *. rewrite delays_step, IH.
    + unfold shouldRetry. rewrite Hpat, andb_true_r.
      replace (attempt + S n)%nat with (S (attempt + n)) in Hend by lia.
      rewrite ofNat_S in Hend.
      destruct (Qlt_bool (JS.ofNat attempt) maxRetries) eqn:Hlt.
      * apply Qlt_bool_iff in Hlt. destruct n; [|reflexivity].
        rewrite Nat.add_0_r in Hend. lra.
      * apply Qlt_bool_false in Hlt. destruct n; [reflexivity|].
        assert (JS.ofNat attempt < JS.ofNat (attempt + S n))%Q
          by (apply ofNat_lt; lia).
        lra.
    + intros a Ha. apply Hrej. lia.
    + replace (S attempt + n)%nat with (attempt + S n)%nat by lia. exact Hend.
Qed.

Lemma retryLoop_resolved_delays (r : nat) :
  forall remaining attempt lastError result,
    (r < remaining)%nat ->
    (forall a, (attempt <= a < attempt + r)%nat ->
               exists msg, exec req a = Rejected msg /\
                           matchesPattern retryPatterns msg = true) ->
    exec req (attempt + r) = Resolved result ->
    (JS.ofNat (attempt + r) <= maxRetries)%Q ->
    delays (snd (loop remaining attempt lastError)) = r.
Proof.
  induction r as [|r IH]; intros remaining attempt lastError result Hlt Hrej Hres Hle.
  - destruct remaining as [|n]; [lia|].
    cbn [retryLoop]. rewrite Nat.add_0_r in Hres. rewrite Hres. reflexivity.
  - destruct remaining as [|n]; [lia|].
    destruct (Hrej attempt ltac:(lia)) as (msg & Hmsg & Hpat).
    cbn [retryLoop]. rewrite Hmsg.
    destruct (retryLoop exec req maxRetries retryDelay retryPatterns n
                (S attempt) msg) as [out effects] eqn:Hloop.
    specialize (IH n (S attempt) msg result). rewrite Hloop in IH.
    cbn [snd] in *. rewrite delays_step, IH.
    + unfold shouldRetry. rewrite Hpat, andb_true_r.
      assert (Qlt_bool (JS.ofNat attempt) maxRetries = true) as ->;
        [|reflexivity].
      apply Qlt_bool_iff.
      assert (JS.ofNat attempt < JS.ofNat (attempt + S r))%Q
        by (apply ofNat_lt; lia).
      lra.
    + lia.
    + intros a Ha. apply Hrej. lia.
    + replace (S attempt + r)%nat with (attempt + S r)%nat by lia. exact Hres.
    + replace (S attempt + r)%nat with (attempt + S r)%nat by lia. exact Hle.
Qed.

End RetryLoopFacts.

(** [executeJob] is its retry loop followed by the construction of the
    result: the status tells how the loop ended, the trace is the loop's. *)
Lemma executeJob_loop job i outputPath config pollInterval maxPollAttempts exec :
  let out :=
    retryLoop exec
      (request job outputPath config pollInterval maxPollAttempts)
      (maxRetriesOf config)
      (JS.nullish
         (retry_delay_ms (JS.nullish (retry_policy config) defaultRetryPolicy))
         1000%Z)
      (retryPatternsOf config)
      (Z.to_nat (Qfloor (maxRetriesOf config) + 1)) 0 "" in
  let res := executeJob job i outputPath config pollInterval maxPollAttempts exec in
  snd res = snd out /\
  index (fst res) = (i + 1)%nat /\
  match fst out with
  | inl _ => status (fst res) = completed
  | inr lastError => status (fst res) = failed /\ error (fst res) = Some lastError
  end.
Proof.
  unfold executeJob, maxRetriesOf, retryPatternsOf. cbn zeta.
  destruct (retryLoop _ _ _ _ _ _ _ _) as [[result|lastError] effects];
    cbn; auto.
Qed.

(** C1 -- a failure whose message matches no retry pattern should end the
    job after that single attempt.  Under a policy with [max_retries = 2]
    and the only pattern [rate_limit], an executor that rejects every call
    with "Invalid prompt" is invoked three times by [executeJob]: the
    unmatched message only skips the delays, the loop goes on. *)
Theorem executeJob_unmatched_error_is_retried :
  let job := Sample.textJob "A cat playing with a ball" in
  let config :=
    Sample.configOf [job] (Some 2%Q) (Some (Sample.policy 2 ["rate_limit"])) in
  let out :=
    executeJob job 0 "/out/generated_1.mp4" config 5000 120
      (Sample.alwaysRejects "Invalid prompt") in
  matchesPattern (retryPatternsOf config) "Invalid prompt" = false /\
  status (fst out) = failed /\
  error (fst out) = Some "Invalid prompt" /\
  invocations (snd out) = 3%nat /\
  delays (snd out) = 0%nat.
Proof. cbv zeta. repeat split; vm_compute; reflexivity. Qed.

(** C5 -- under a retry bound of [m]: an executor that rejects [r <= m]
    times with messages matching a retry pattern and then resolves gives
    a completed job after exactly [r + 1] invocations (and [r] delays);
    an executor that rejects every call with such a message gives a failed
    job after exactly [m + 1] invocations (and [m] delays). *)
Theorem executeJob_retry_counts :
  forall job i outputPath config pollInterval maxPollAttempts exec (m r : nat),
    (maxRetriesOf config == JS.ofNat m)%Q ->
    let req := request job outputPath config pollInterval maxPollAttempts in
    let out := executeJob job i outputPath config pollInterval maxPollAttempts exec in
    ((r <= m)%nat ->
     (forall a, (a < r)%nat ->
        exists msg, exec req a = Rejected msg /\
                    matchesPattern (retryPatternsOf config) msg = true) ->
     (exists result, exec req r = Resolved result) ->
     status (fst out) = completed /\
     invocations (snd out) = (r + 1)%nat /\
     delays (snd out) = r)
    /\
    ((forall a, exists msg, exec req a = Rejected msg /\
                  matchesPattern (retryPatternsOf config) msg = true) ->
     status (fst out) = failed /\
     invocations (snd out) = (m + 1)%nat /\
     delays (snd out) = m).
Proof.
  intros job i outputPath config pollInterval maxPollAttempts exec m r Hm req out.
  destruct (executeJob_loop job i outputPath config pollInterval
              maxPollAttempts exec) as (Htrace & _ & Hstatus).
  fold req in Htrace, Hstatus. fold out in Htrace, Hstatus.
  rewrite (Qfloor_whole _ _ Hm) in Htrace, Hstatus.
  replace (Z.to_nat (Z.of_nat m + 1)) with (S m) in Htrace, Hstatus by lia.
  split.
  - intros Hr Hrej [result Hres].
    set (delay := JS.nullish _ _) in *.
    destruct (retryLoop_resolved exec req (maxRetriesOf config) delay
                (retryPatternsOf config) r (S m) 0 "" result) as [Hout Hinv].
    { lia. }
    { intros a Ha. destruct (Hrej a ltac:(lia)) as (msg & Hmsg & _). eauto. }
    { exact Hres. }
    rewrite Hout in Hstatus. rewrite Htrace, Hinv. repeat split; [exact Hstatus|lia|].
    apply (retryLoop_resolved_delays exec req (maxRetriesOf config) delay
             (retryPatternsOf config) r (S m) 0 "" result); try lia.
    + intros a Ha. apply Hrej. lia.
    + exact Hres.
    + rewrite Hm. apply ofNat_le. lia.
  - intros Hrej.
    set (delay := JS.nullish _ _) in *.
    destruct (retryLoop_rejected exec req (maxRetriesOf config) delay
                (retryPatternsOf config) (S m) 0 "") as [[msg Hout] Hinv].
    { intros a _. destruct (Hrej a) as (msg & Hmsg & _). eauto. }
    rewrite Hout in Hstatus. rewrite Htrace, Hinv.
    repeat split; [apply Hstatus|lia|].
    rewrite (retryLoop_rejected_delays exec req (maxRetriesOf config) delay
               (retryPatternsOf config) (S m) 0 ""); try lia.
    + intros a _. apply Hrej.
    + rewrite Hm, Nat.add_0_l, ofNat_S. reflexivity.
Qed.

Lemma executeJob_retry_counts_witness :
  let job := Sample.textJob "A cat playing with a ball" in
  let config :=
    Sample.configOf [job] (Some 2%Q) (Some (Sample.policy 2 ["rate_limit"; "429"])) in
  (status (fst (executeJob job 0 "/out/generated_1.mp4" config 5000 120
                  (Sample.rejectsThenResolves 1 "HTTP 429: Too Many Requests")))
   = completed /\
   invocations (snd (executeJob job 0 "/out/generated_1.mp4" config 5000 120
                  (Sample.rejectsThenResolves 1 "HTTP 429: Too Many Requests")))
   = 2%nat) /\
  (status (fst (executeJob job 0 "/out/generated_1.mp4" config 5000 120
                  (Sample.alwaysRejects "Rate_Limit reached")))
   = failed /\
   invocations (snd (executeJob job 0 "/out/generated_1.mp4" config 5000 120
                  (Sample.alwaysRejects "Rate_Limit reached")))
   = 3%nat).
Proof.
  cbv zeta. split.
  - destruct (executeJob_retry_counts
                (Sample.textJob "A cat playing with a ball") 0
                "/out/generated_1.mp4"
                (Sample.configOf [Sample.textJob "A cat playing with a ball"]
                   (Some 2%Q) (Some (Sample.policy 2 ["rate_limit"; "429"])))
                5000 120
                (Sample.rejectsThenResolves 1 "HTTP 429: Too Many Requests")
                2 1 eq_refl) as [Hresolved _].
    destruct Hresolved as (Hst & Hinv & _).
    + lia.
    + intros a Ha. exists "HTTP 429: Too Many Requests".
      destruct a as [|a]; [split; reflexivity | lia].
    + exists Sample.video. reflexivity.
    + split; [exact Hst | exact Hinv].
  - destruct (executeJob_retry_counts
                (Sample.textJob "A cat playing with a ball") 0
                "/out/generated_1.mp4"
                (Sample.configOf [Sample.textJob "A cat playing with a ball"]
                   (Some 2%Q) (Some (Sample.policy 2 ["rate_limit"; "429"])))
                5000 120
                (Sample.alwaysRejects "Rate_Limit reached")
                2 0 eq_refl) as [_ Hrejected].
    destruct Hrejected as (Hst & Hinv & _).
    + intros a. exists "Rate_Limit reached". split; reflexivity.
    + split; [exact Hst | exact Hinv].
Defined.

(** ** Job classification *)

(** Every invocation the retry loop makes is the one request it was given. *)
Lemma retryLoop_invokes exec req maxRetries retryDelay retryPatterns remaining :
  forall attempt lastError q,
    In (Invoke q)
       (snd (retryLoop exec req maxRetries retryDelay retryPatterns
               remaining attempt lastError)) ->
    q = req.
Proof.
  induction remaining as [|n IH]; intros attempt lastError q Hin.
  - destruct Hin.
  - cbn [retryLoop] in Hin. destruct (exec req attempt) as [result|msg].
    + destruct Hin as [Heq|[]]. congruence.
    + destruct (retryLoop exec req maxRetries retryDelay retryPatterns n
                  (S attempt) msg) as [out effects] eqn:Hloop.
      cbn [snd] in Hin. destruct Hin as [Heq|Hin]; [congruence|].
      apply in_app_or in Hin. destruct Hin as [Hin|Hin].
      * destruct (shouldRetry _ _ _ _); [destruct Hin as [Heq|[]]; discriminate | destruct Hin].
      * apply (IH (S attempt) msg). rewrite Hloop. exact Hin.
Qed.

Lemma estimateType_priority job :
  estimateType job =
  if JS.truthy (video_url job) then edit
  else if JS.truthy (image_url job) || JS.truthy (image_path job)
       then image_to_video
       else generation.
Proof.
  unfold estimateType, typeAndDuration.
  destruct (JS.truthy (video_url job)); [reflexivity|].
  destruct (JS.truthy (image_url job) || JS.truthy (image_path job)); reflexivity.
Qed.

(** C8 -- the kind of a job follows the priority order video reference,
    then image reference, then plain generation; the kind the estimator
    counts the job under is the kind of every call [executeJob] makes for
    it and the kind its result reports. *)
Theorem classification_agrees :
  forall job i outputPath config pollInterval maxPollAttempts exec,
    let res := executeJob job i outputPath config pollInterval maxPollAttempts exec in
    estimateType job =
      (if JS.truthy (video_url job) then edit
       else if JS.truthy (image_url job) || JS.truthy (image_path job)
            then image_to_video
            else generation) /\
    (forall defaultDuration,
        fst (typeAndDuration defaultDuration job) = estimateType job) /\
    requestType (request job outputPath config pollInterval maxPollAttempts)
      = estimateType job /\
    (forall req, In (Invoke req) (snd res) -> requestType req = estimateType job) /\
    flagsType (fst res) = Some (estimateType job).
Proof.
  intros job i outputPath config pollInterval maxPollAttempts exec res.
  assert (Hreq : requestType
                   (request job outputPath config pollInterval maxPollAttempts)
                 = estimateType job).
  { rewrite estimateType_priority. unfold request, requestType.
    destruct (JS.truthy (video_url job)); reflexivity. }
  split; [apply estimateType_priority|].
  split.
  { intros dd. unfold estimateType, typeAndDuration.
    destruct (JS.truthy (video_url job)); [reflexivity|].
    destruct (JS.truthy (image_url job) || JS.truthy (image_path job)); reflexivity. }
  split; [exact Hreq|].
  split.
  - intros req Hin.
    destruct (executeJob_loop job i outputPath config pollInterval
                maxPollAttempts exec) as (Htrace & _ & _).
    fold res in Htrace. rewrite Htrace in Hin.
    apply retryLoop_invokes in Hin. subst req. exact Hreq.
  - rewrite estimateType_priority. subst res. unfold executeJob. cbn zeta.
    destruct (retryLoop _ _ _ _ _ _ _ _) as [[result|lastError] effects];
      unfold flagsType; cbn;
      destruct (JS.truthy (video_url job)); try reflexivity;
      destruct (JS.truthy (image_url job) || JS.truthy (image_path job)); reflexivity.
Qed.

Lemma classification_agrees_witness :
  let job := Sample.imagePathJob in
  let config := Sample.configOf [job] None None in
  requestType (request job "/out/animated_1.mp4" config 5000 120)
  = estimateType job /\
  estimateType job = image_to_video.
Proof.
  cbv zeta.
  destruct (classification_agrees Sample.imagePathJob 0 "/out/animated_1.mp4"
              (Sample.configOf [Sample.imagePathJob] None None) 5000 120
              Sample.alwaysResolves) as (Hprio & _ & _ & Hall & _).
  split.
  - apply Hall. left. reflexivity.
  - rewrite Hprio. reflexivity.
Defined.

(** ** Configuration validation and output paths *)

(** A job with both a video URL and an image URL never passes. *)
Lemma validateJobConfig_video_and_image_url job i :
  JS.truthy (video_url job) = true ->
  JS.truthy (image_url job) = true ->
  exists e, validateJobConfig job i = inl e.
Proof.
  intros Hv Hi. unfold validateJobConfig. cbn zeta. rewrite Hv, Hi.
  unfold bind, whenDefined, throwIf, throw, ok.
  repeat match goal with
         | |- context [match ?x with _ => _ end] => destruct x
         end; eauto.
Qed.

(** C2 -- a job with both [video_url] and [image_path] should be rejected
    by validation.  [validateBatchConfig] accepts the configuration whose
    only job is such a job: the check of [validateJobConfig] looks at
    [image_url] alone.  The job is then dispatched as an edit. *)
Theorem validateBatchConfig_accepts_video_with_image_path :
  let job := Sample.editJobWithImagePath in
  let config := Sample.configOf [job] (Some 2%Q) None in
  JS.truthy (video_url job) = true /\
  JS.truthy (image_path job) = true /\
  validateJobConfig job 0 = inr tt /\
  validateBatchConfig config = inr tt /\
  estimateType job = edit.
Proof. cbv zeta. repeat split; vm_compute; reflexivity. Qed.

(** Strings and their prefixes. *)
Lemma prefix_append (s t : string) : String.prefix s (s ++ t) = true.
Proof.
  induction s as [|c s IH].
  - now destruct t.
  - change (String c s ++ t) with (String c (s ++ t)). cbn [String.prefix].
    destruct (Ascii.ascii_dec c c); [exact IH|congruence].
Qed.

Lemma append_assoc' (a b c : string) : (a ++ b) ++ c = a ++ (b ++ c).
Proof.
  induction a as [|x a IH]; [reflexivity|].
  change ((String x a ++ b) ++ c) with (String x ((a ++ b) ++ c)).
  change (String x a ++ b ++ c) with (String x (a ++ b ++ c)).
  now rewrite IH.
Qed.

Lemma append_empty_r (a : string) : a ++ "" = a.
Proof.
  induction a as [|x a IH]; [reflexivity|].
  change (String x a ++ "") with (String x (a ++ "")). now rewrite IH.
Qed.

(** Joining a list of components that extends another extends the join. *)
Lemma join_isPrefix xs :
  forall zs, isPrefix xs zs = true ->
             exists t, JS.join "/" zs = JS.join "/" xs ++ t.
Proof.
  induction xs as [|x xs IH]; intros zs Hpre.
  - exists (JS.join "/" zs). reflexivity.
  - destruct zs as [|z zs]; [discriminate|]. cbn [isPrefix] in Hpre.
    apply andb_true_iff in Hpre as [Hxz Hrest].
    apply String.eqb_eq in Hxz. subst z.
    destruct (IH zs Hrest) as [t Ht].
    destruct xs as [|x' xs].
    + destruct zs as [|z' zs].
      * exists "". cbn [JS.join]. now rewrite append_empty_r.
      * exists ("/" ++ JS.join "/" (z' :: zs)). reflexivity.
    + destruct zs as [|z' zs]; [discriminate|].
      exists t. change (JS.join "/" (x :: z' :: zs))
        with (x ++ "/" ++ JS.join "/" (z' :: zs)).
      change (JS.join "/" (x :: x' :: xs))
        with (x ++ "/" ++ JS.join "/" (x' :: xs)).
      rewrite Ht. now rewrite !append_assoc'.
Qed.

Lemma resolve_absolute cwd p :
  Path.isAbsolute p = true ->
  Path.resolve cwd p = "/" ++ JS.join "/" (components p).
Proof.
  intros Habs. unfold Path.resolve, components. rewrite Habs. cbn zeta.
  now rewrite Habs.
Qed.

(** An absolute path that lies in the (absolute) output directory or below
    it is accepted. *)
Lemma resolveOutputPath_within env job i outputDir out :
  output_path job = Some out ->
  Path.isAbsolute out = true ->
  Path.isAbsolute outputDir = true ->
  within outputDir out = true ->
  resolveOutputPath env job i outputDir false = inr out.
Proof.
  intros Hout Habs Hdir Hin. unfold resolveOutputPath. rewrite Hout.
  destruct out as [|c rest]; [discriminate|]. rewrite Habs. cbn [negb].
  rewrite (resolve_absolute _ _ Habs), (resolve_absolute _ _ Hdir).
  unfold within in Hin.
  destruct (join_isPrefix _ _ Hin) as [t Ht]. rewrite Ht.
  unfold JS.startsWith, throwIf.
  rewrite <- append_assoc', prefix_append. reflexivity.
Qed.

(** For instance below [/out]. *)
Example resolveOutputPath_inside :
  resolveOutputPath Sample.env
    {| prompt := "p"; output_path := Some "/out/clips/x.mp4"; model := None;
       duration := None; aspect_ratio := None; resolution := None;
       image_url := None; image_path := None; video_url := None |}
    0 "/out" false
  = inr "/out/clips/x.mp4".
Proof. vm_compute. reflexivity. Qed.

(** A relative output path is joined under the output directory without
    any check. *)
Lemma resolveOutputPath_relative env job i outputDir allowAny out :
  output_path job = Some out ->
  JS.truthy (Some out) = true ->
  Path.isAbsolute out = false ->
  resolveOutputPath env job i outputDir allowAny = inr (Path.join outputDir out).
Proof.
  intros Hout Htruthy Hrel. unfold resolveOutputPath. rewrite Hout.
  destruct out as [|c rest]; [discriminate|]. now rewrite Hrel.
Qed.

(** C3 -- an absolute output path that escapes the output directory should
    make [resolveOutputPath] fail when the override is not granted.  With
    the output directory [/out], the job path [/outside/x.mp4] is not in
    that directory, yet it is returned: the check compares the two paths as
    strings, and [/out] is a prefix of [/outside/x.mp4]. *)
Theorem resolveOutputPath_accepts_sibling_directory :
  let job := Sample.outsideJob in
  output_path job = Some "/outside/x.mp4" /\
  Path.isAbsolute "/outside/x.mp4" = true /\
  within "/out" (Path.resolve (cwd Sample.env) "/outside/x.mp4") = false /\
  resolveOutputPath Sample.env job 0 "/out" false = inr "/outside/x.mp4".
Proof. cbv zeta. repeat split; vm_compute; reflexivity. Qed.

(** ** Cost estimation *)

Section CountJobs.

Variable defaultDuration : Q.

Lemma typeAndDuration_edit job :
  estimateType job = edit -> typeAndDuration defaultDuration job = (edit, 5%Q).
Proof.
  unfold estimateType, typeAndDuration.
  destruct (JS.truthy (video_url job)); [reflexivity|].
  destruct (JS.truthy (image_url job) || JS.truthy (image_path job)); discriminate.
Qed.

Lemma typeAndDuration_fst job :
  fst (typeAndDuration defaultDuration job) = estimateType job.
Proof.
  unfold estimateType, typeAndDuration.
  destruct (JS.truthy (video_url job)); [reflexivity|].
  destruct (JS.truthy (image_url job) || JS.truthy (image_path job)); reflexivity.
Qed.

Lemma getCount_bump k k' d tc :
  getCount (bump k d tc) k' =
  if decide (k = k') then bumped d (getCount tc k') else getCount tc k'.
Proof. destruct k, k'; reflexivity. Qed.

(** The first loop only ever adds the duration it assigned to a job. *)
Lemma countJobs_nonneg js :
  forall tc,
    (forall k, (0 <= tc_totalDuration (getCount tc k))%Q) ->
    (forall job, In job js -> (0 <= snd (typeAndDuration defaultDuration job))%Q) ->
    forall k,
      (0 <= tc_totalDuration
              (getCount (fold_left (countJob defaultDuration) js tc) k))%Q.
Proof.
  induction js as [|job js IH]; intros tc Htc Hjs k; [apply Htc|].
  cbn [fold_left]. apply IH.
  - intros k'. unfold countJob.
    pose proof (Hjs job (or_introl eq_refl)) as Hd.
    destruct (typeAndDuration defaultDuration job) as [ty d].
    rewrite getCount_bump. cbn [snd] in Hd.
    destruct (decide (ty = k')); [|apply Htc].
    cbn. specialize (Htc k'). lra.
  - intros job' Hin. apply Hjs. now right.
Qed.

(** The count of a bucket is the number of jobs of its kind. *)
Lemma countJobs_count js :
  forall tc k,
    tc_count (getCount (fold_left (countJob defaultDuration) js tc) k)
    = (tc_count (getCount tc k) + jobsOfType k js)%nat.
Proof.
  induction js as [|job js IH]; intros tc k.
  - unfold jobsOfType. cbn. lia.
  - cbn [fold_left]. rewrite IH. unfold countJob, jobsOfType.
    pose proof (typeAndDuration_fst job) as Hty.
    destruct (typeAndDuration defaultDuration job) as [ty d]. cbn [fst] in Hty.
    rewrite getCount_bump. cbn [List.filter]. rewrite <- Hty.
    destruct (decide (ty = k)) as [->|Hne].
    + rewrite bool_decide_eq_true_2 by reflexivity. cbn. lia.
    + rewrite bool_decide_eq_false_2 by exact Hne. cbn. lia.
Qed.

(** The edit bucket holds five seconds per job, whatever was configured. *)
Lemma countJobs_edit js :
  forall tc,
    (tc_totalDuration (of_edit tc)
     == 5 * inject_Z (Z.of_nat (tc_count (of_edit tc))))%Q ->
    (tc_totalDuration (of_edit (fold_left (countJob defaultDuration) js tc))
     == 5 * inject_Z
              (Z.of_nat (tc_count
                 (of_edit (fold_left (countJob defaultDuration) js tc)))))%Q.
Proof.
  induction js as [|job js IH]; intros tc Htc; [exact Htc|].
  cbn [fold_left]. apply IH. unfold countJob.
  destruct (estimateType job) eqn:Hty.
  - pose proof (typeAndDuration_fst job) as Hf. rewrite Hty in Hf.
    destruct (typeAndDuration defaultDuration job) as [ty d].
    cbn [fst] in Hf. subst ty. exact Htc.
  - pose proof (typeAndDuration_fst job) as Hf. rewrite Hty in Hf.
    destruct (typeAndDuration defaultDuration job) as [ty d].
    cbn [fst] in Hf. subst ty. exact Htc.
  - rewrite (typeAndDuration_edit job Hty).
    cbn [bump of_edit bumped tc_count tc_totalDuration].
    rewrite Nat2Z.inj_add, inject_Z_plus.
    change (inject_Z (Z.of_nat 1)) with 1%Q. lra.
Qed.

End CountJobs.

Section Buckets.

Variable tc : TypeCounts.

(** The breakdown entry of a bucket. *)
Lemma addBucket_entries acc k :
  entries (addBucket tc acc k) = (entries acc ++ bucketEntries tc k)%list.
Proof.
  unfold addBucket, bucketEntries. destruct (tc_count (getCount tc k) =? 0)%nat; cbn.
  - now rewrite app_nil_r.
  - reflexivity.
Qed.

Lemma bucketCost_nonneg k :
  (0 <= tc_totalDuration (getCount tc k))%Q ->
  (0 <= bucketCost k (getCount tc k))%Q.
Proof.
  intros Hd. unfold bucketCost.
  assert (0 <= perSecond k * tc_totalDuration (getCount tc k))%Q as Hcost.
  { apply Qmult_le_0_compat; [destruct k; discriminate | exact Hd]. }
  destruct k; try exact Hcost.
  assert (0 <= imageBonus * inject_Z (Z.of_nat (tc_count (getCount tc image_to_video))))%Q.
  { apply Qmult_le_0_compat; [discriminate|].
    change 0%Q with (inject_Z 0). rewrite <- Zle_Qle. lia. }
  lra.
Qed.

Lemma addBucket_le acc k :
  (0 <= tc_totalDuration (getCount tc k))%Q ->
  (totalMin acc <= totalMax acc)%Q ->
  (totalMin (addBucket tc acc k) <= totalMax (addBucket tc acc k))%Q.
Proof.
  intros Hd Hacc. pose proof (bucketCost_nonneg k Hd) as Hcost.
  unfold addBucket. destruct (tc_count (getCount tc k) =? 0)%nat; [exact Hacc|].
  cbn. unfold margin. lra.
Qed.

Lemma addBuckets_le ks :
  forall acc,
    (forall k, (0 <= tc_totalDuration (getCount tc k))%Q) ->
    (totalMin acc <= totalMax acc)%Q ->
    (totalMin (fold_left (addBucket tc) ks acc)
     <= totalMax (fold_left (addBucket tc) ks acc))%Q.
Proof.
  induction ks as [|k ks IH]; intros acc Hd Hacc; [exact Hacc|].
  cbn [fold_left]. apply IH; [exact Hd|]. apply addBucket_le; auto.
Qed.

End Buckets.

Lemma typeAndDuration_generation defaultDuration job :
  estimateType job = generation ->
  typeAndDuration defaultDuration job
  = (generation, JS.nullish (duration job) defaultDuration).
Proof.
  unfold estimateType, typeAndDuration.
  destruct (JS.truthy (video_url job)); [discriminate|].
  destruct (JS.truthy (image_url job) || JS.truthy (image_path job));
    [discriminate|reflexivity].
Qed.

(** The breakdown lists the non-empty buckets in the order of the keys. *)
Lemma breakdown_buckets config :
  let tc :=
    fold_left (countJob (JS.nullish (default_duration config) DEFAULT_DURATION))
      (jobs config) typeCounts0 in
  breakdown (estimateBatchCost config)
  = (bucketEntries tc generation ++ bucketEntries tc image_to_video
       ++ bucketEntries tc edit)%list.
Proof.
  intros tc. unfold estimateBatchCost. cbn [breakdown fold_left].
  fold tc. rewrite !addBucket_entries. unfold totals0. cbn [entries].
  rewrite app_nil_l. symmetry. apply app_assoc.
Qed.

Lemma nonnegDurations_jobs config job :
  nonnegDurations config ->
  In job (jobs config) ->
  (0 <= snd (typeAndDuration
               (JS.nullish (default_duration config) DEFAULT_DURATION) job))%Q.
Proof.
  intros [Hdefault Hjobs] Hin. unfold typeAndDuration.
  assert (0 <= JS.nullish (duration job)
                 (JS.nullish (default_duration config) DEFAULT_DURATION))%Q as Hd.
  { destruct (duration job) as [d|] eqn:Hdur; cbn.
    - eapply Hjobs; eauto.
    - destruct (default_duration config) as [d|] eqn:Hdd; cbn.
      + now apply Hdefault.
      + discriminate. }
  destruct (JS.truthy (video_url job)); [discriminate|].
  destruct (JS.truthy (image_url job) || JS.truthy (image_path job)); exact Hd.
Qed.


Lemma bind_inr {A B} (c : Throws A) (k : A -> Throws B) v :
  bind c k = inr v -> exists x, c = inr x /\ k x = inr v.
Proof. destruct c as [e|x]; [discriminate|]. cbn. eauto. Qed.

Lemma Qout_false lo hi v : Qout lo hi v = false -> (lo <= v <= hi)%Q.
Proof.
  unfold Qout, Qlt_bool. intros H. apply orb_false_elim in H as [H1 H2].
  apply negb_false_iff in H1, H2. apply Qle_bool_iff in H1, H2. auto.
Qed.

Lemma validateJobConfig_duration job i d :
  validateJobConfig job i = inr tt ->
  duration job = Some d ->
  (MIN_DURATION <= d <= MAX_DURATION)%Q.
Proof.
  intros Hok Hd. unfold validateJobConfig in Hok. cbn zeta in Hok.
  apply bind_inr in Hok as (? & ? & Hok).
  apply bind_inr in Hok as (? & ? & Hok).
  apply bind_inr in Hok as (? & Hdur & ?).
  rewrite Hd in Hdur. cbn [whenDefined] in Hdur.
  apply bind_inr in Hdur as (? & ? & Hrange).
  unfold throwIf in Hrange.
  destruct (Qout MIN_DURATION MAX_DURATION d) eqn:Hout; [discriminate|].
  now apply Qout_false.
Qed.

Lemma validateJobs_each js :
  forall i,
    validateJobs js i = inr tt ->
    forall job, In job js -> exists n, validateJobConfig job n = inr tt.
Proof.
  induction js as [|job js IH]; intros i Hok job' Hin; [destruct Hin|].
  cbn [validateJobs] in Hok. apply bind_inr in Hok as ([] & Hjob & Hrest).
  destruct Hin as [<-|Hin]; [eauto|]. eapply IH; eauto.
Qed.

(** A configuration that passes validation has its durations in range. *)
Lemma validateBatchConfig_durations config :
  validateBatchConfig config = inr tt -> nonnegDurations config.
Proof.
  intros Hok. unfold validateBatchConfig in Hok.
  apply bind_inr in Hok as (? & ? & Hok).
  apply bind_inr in Hok as (? & ? & Hok).
  apply bind_inr in Hok as ([] & Hjobs & Hok).
  do 8 (apply bind_inr in Hok as (? & ? & Hok)).
  split.
  - intros d Hd. rewrite Hd in Hok. cbn [whenDefined] in Hok.
    unfold throwIf in Hok.
    destruct (Qout MIN_DURATION MAX_DURATION d) eqn:Hout; [discriminate|].
    apply Qout_false in Hout. unfold MIN_DURATION in Hout. lra.
  - intros job d Hin Hd.
    destruct (validateJobs_each _ _ Hjobs job Hin) as [n Hn].
    pose proof (validateJobConfig_duration job n d Hn Hd) as Hrange.
    unfold MIN_DURATION in Hrange. lra.
Qed.

(** C7 -- [estimateBatchCost] is a function of the configuration alone;
    for every configuration that passes [validateBatchConfig], which
    [main] calls before it estimates, also after [mergeBatchConfig] has
    merged the options into it, and more generally whenever no duration is
    negative, its lower estimate is at most its upper one; an
    edit job counts for five seconds whatever durations are
    configured, so the edit bucket holds five seconds per edit job; a
    generation job of duration 5 with an edit job gives exactly the two
    buckets generation and edit, of five seconds each. *)
Theorem estimateBatchCost_properties :
  forall config,
    let est := estimateBatchCost config in
    (forall config', config' = config -> estimateBatchCost config' = est) /\
    (nonnegDurations config ->
     (estimatedCostMin est <= estimatedCostMax est)%Q) /\
    (validateBatchConfig config = inr tt ->
     (estimatedCostMin est <= estimatedCostMax est)%Q) /\
    (forall env options,
        validateBatchConfig config = inr tt ->
        let merged := Merge.mergeBatchConfig env config options in
        (estimatedCostMin (estimateBatchCost merged)
         <= estimatedCostMax (estimateBatchCost merged))%Q) /\
    (forall job defaultDuration,
        estimateType job = edit ->
        snd (typeAndDuration defaultDuration job) = 5%Q) /\
    (forall b, In b (breakdown est) -> type b = edit ->
               count b = jobsOfType edit (jobs config) /\
               (totalDuration b == 5 * inject_Z (Z.of_nat (count b)))%Q) /\
    (forall g e,
        jobs config = [g; e] \/ jobs config = [e; g] ->
        estimateType g = generation -> duration g = Some 5%Q ->
        estimateType e = edit ->
        length (breakdown est) = 2%nat /\
        map type (breakdown est) = [generation; edit] /\
        map count (breakdown est) = [1%nat; 1%nat] /\
        Forall (fun b => (totalDuration b == 5)%Q) (breakdown est)).
Proof.
  intros config est.
  set (dd := JS.nullish (default_duration config) DEFAULT_DURATION).
  set (tc := fold_left (countJob dd) (jobs config) typeCounts0).
  split; [intros config' ->; reflexivity|].
  assert (Hle : nonnegDurations config ->
                (estimatedCostMin est <= estimatedCostMax est)%Q).
  { intros Hnonneg. subst est. unfold estimateBatchCost.
    cbn [estimatedCostMin estimatedCostMax]. fold dd. fold tc.
    apply addBuckets_le; [|cbn; lra].
    intros k. apply countJobs_nonneg.
    - intros k'. destruct k'; cbn; lra.
    - intros job Hin. now apply nonnegDurations_jobs. }
  split; [exact Hle|].
  split; [intros Hvalid; now apply Hle, validateBatchConfig_durations|].
  split.
  { intros env options Hvalid merged. subst merged.
    change (estimateBatchCost (Merge.mergeBatchConfig env config options))
      with est.
    now apply Hle, validateBatchConfig_durations. }
  split.
  { intros job defaultDuration Hty. now rewrite typeAndDuration_edit. }
  split.
  { intros b Hin Hty. subst est. rewrite breakdown_buckets in Hin.
    fold dd in Hin. fold tc in Hin.
    assert (Hb : In b (bucketEntries tc edit)).
    { rewrite !in_app_iff in Hin. destruct Hin as [Hin|[Hin|Hin]]; [| |exact Hin];
        unfold bucketEntries in Hin;
        destruct (tc_count _ =? 0)%nat; try destruct Hin as [<-|[]];
        try destruct Hin; discriminate. }
    unfold bucketEntries in Hb.
    destruct (tc_count (getCount tc edit) =? 0)%nat; [destruct Hb|].
    destruct Hb as [<-|[]]. cbn [count totalDuration]. split.
    - subst tc. rewrite (countJobs_count dd (jobs config) typeCounts0 edit).
      reflexivity.
    - subst tc. cbn [getCount]. apply countJobs_edit. vm_compute. reflexivity. }
  intros g e Hjobs Hg Hdur He. subst est. rewrite breakdown_buckets.
  fold dd. fold tc.
  assert (Htc : tc = bump edit 5 (bump generation 5 typeCounts0)
                \/ tc = bump generation 5 (bump edit 5 typeCounts0)).
  { subst tc. destruct Hjobs as [-> | ->]; cbn [fold_left]; unfold countJob;
      rewrite (typeAndDuration_generation dd g Hg), (typeAndDuration_edit dd e He),
        Hdur; cbn [JS.nullish]; auto. }
  destruct Htc as [-> | ->]; cbn; repeat split;
    repeat constructor; reflexivity.
Qed.

Lemma estimateBatchCost_properties_witness :
  let config :=
    Sample.configOf
      [Sample.timedJob "A cat playing with a ball" 5;
       Sample.editJob "Make the ball larger" "https://example.com/video.mp4"]
      None None in
  (estimatedCostMin (estimateBatchCost config)
   <= estimatedCostMax (estimateBatchCost config))%Q /\
  length (breakdown (estimateBatchCost config)) = 2%nat.
Proof.
  cbv zeta.
  destruct (estimateBatchCost_properties
              (Sample.configOf
                 [Sample.timedJob "A cat playing with a ball" 5;
                  Sample.editJob "Make the ball larger"
                    "https://example.com/video.mp4"]
                 None None)) as (_ & Hle & _ & _ & _ & _ & Htwo).
  split.
  - apply Hle. split.
    + intros d Hd. discriminate Hd.
    + intros job d [<-|[<-|[]]] Hd; cbn in Hd; inversion Hd; subst; discriminate.
  - apply (Htwo (Sample.timedJob "A cat playing with a ball" 5)
             (Sample.editJob "Make the ball larger"
                "https://example.com/video.mp4"));
      [left; reflexivity | reflexivity | reflexivity | reflexivity].
Defined.

(** ** The semaphore and the scheduler *)

Lemma holders_app ts t :
  holders (ts ++ [t]) = (holders ts + b2n (isHolder t))%nat.
Proof.
  unfold holders. rewrite List.filter_app, length_app. cbn.
  destruct (isHolder t); reflexivity.
Qed.

Lemma holders_insert ts :
  forall i old new,
    ts !! i = Some old ->
    (holders (<[i := new]> ts) + b2n (isHolder old)
     = holders ts + b2n (isHolder new))%nat.
Proof.
  unfold holders. induction ts as [|t ts IH]; intros i old new Hi.
  - discriminate.
  - destruct i as [|i].
    + cbn in *. inversion Hi; subst.
      destruct (isHolder old), (isHolder new); cbn; lia.
    + change (<[S i:=new]> (t :: ts)) with (t :: <[i:=new]> ts).
      change ((t :: ts) !! S i) with (ts !! i) in Hi.
      specialize (IH i old new Hi). cbn [List.filter].
      destruct (isHolder t); cbn [length]; lia.
Qed.


Lemma index_injective_on (l : list BatchJobResult) :
  NoDup (index <$> l) ->
  forall x y, x ∈ l -> y ∈ l -> index x = index y -> x = y.
Proof.
  induction l as [|a l IH]; intros Hnd x y Hx Hy Heq.
  - inversion Hx.
  - rewrite fmap_cons in Hnd. apply NoDup_cons in Hnd as [Ha Hnd].
    apply elem_of_cons in Hx as [->|Hx]; apply elem_of_cons in Hy as [->|Hy].
    + reflexivity.
    + exfalso. apply Ha. rewrite Heq. now apply list_elem_of_fmap_2.
    + exfalso. apply Ha. rewrite <- Heq. now apply list_elem_of_fmap_2.
    + now apply IH.
Qed.

(** *** Launching the tasks *)

Lemma launch_queueInv i s :
  i = length (tasks s) -> queueInv s -> queueInv (launch i s).
Proof.
  intros Hi [Hnd Hq]. unfold launch, Semaphore.acquire.
  destruct (negb (Qle_bool (Semaphore.permits (semaphore s)) 0)); cbn; split;
    cbn.
  - exact Hnd.
  - intros j. rewrite Hq. split; intros Hj.
    + rewrite lookup_app_l; [exact Hj|]. now apply lookup_lt_Some in Hj.
    + destruct (decide (j < length (tasks s))%nat) as [Hlt|Hge].
      * now rewrite lookup_app_l in Hj.
      * rewrite lookup_app_r in Hj by lia.
        destruct (j - length (tasks s))%nat; cbn in Hj; discriminate.
  - apply NoDup_app. split; [exact Hnd|]. split; [|apply NoDup_singleton].
    intros x Hx Hxi. apply list_elem_of_singleton in Hxi. subst x.
    apply Hq in Hx. apply lookup_lt_Some in Hx. lia.
  - intros j. rewrite elem_of_app, list_elem_of_singleton, Hq. split.
    + intros [Hj| ->].
      * rewrite lookup_app_l; [exact Hj|]. now apply lookup_lt_Some in Hj.
      * subst i. rewrite lookup_app_r by lia. now rewrite Nat.sub_diag.
    + intros Hj. destruct (decide (j < length (tasks s))%nat) as [Hlt|Hge].
      * left. now rewrite lookup_app_l in Hj.
      * right. apply lookup_lt_Some in Hj. rewrite length_app in Hj.
        cbn in Hj. lia.
Qed.

Lemma launch_permitInv k i s : permitInv k s -> permitInv k (launch i s).
Proof.
  intros [Hpos Hsum]. unfold launch, Semaphore.acquire, permitInv.
  destruct (positive_spec (Semaphore.permits (semaphore s)));
    cbn [semaphore tasks Semaphore.permits]; rewrite holders_app, ofNat_add;
    cbn [isHolder b2n]; rewrite ?ofNat_0, ?ofNat_1; split; lra.
Qed.

Lemma launch_tasks_length i s : length (tasks (launch i s)) = S (length (tasks s)).
Proof.
  unfold launch. destruct (Semaphore.acquire i (semaphore s)) as [sem got].
  cbn. rewrite length_app. cbn. lia.
Qed.

Lemma launch_collected i s : collected (launch i s) = collected s.
Proof.
  unfold launch. now destruct (Semaphore.acquire i (semaphore s)).
Qed.

Lemma launch_no_settled i s :
  (forall j, tasks s !! j <> Some Settled) ->
  forall j, tasks (launch i s) !! j <> Some Settled.
Proof.
  intros Hs j. unfold launch.
  destruct (Semaphore.acquire i (semaphore s)) as [sem got]. cbn.
  destruct (decide (j < length (tasks s))%nat) as [Hlt|Hge].
  - rewrite lookup_app_l by exact Hlt. apply Hs.
  - rewrite lookup_app_r by lia.
    destruct (j - length (tasks s))%nat as [|n]; cbn;
      [destruct got; discriminate | discriminate].
Qed.

(** What holds of the state in which [launchAll] leaves the batch. *)
Lemma launchAll_spec env allowAny outputDir js :
  forall i s paths s' paths',
    launchAll env allowAny outputDir js i s paths = inr (s', paths') ->
    i = length (tasks s) ->
    queueInv s ->
    (forall j, tasks s !! j <> Some Settled) ->
    queueInv s' /\
    length (tasks s') = (length (tasks s) + length js)%nat /\
    length paths' = (length paths + length js)%nat /\
    collected s' = collected s /\
    (forall j, tasks s' !! j <> Some Settled).
Proof.
  induction js as [|job js IH]; intros i s paths s' paths' Hrun Hi Hq Hs.
  - cbn in Hrun. inversion Hrun; subst. repeat split; try apply Hq;
      cbn; try lia; auto.
  - cbn [launchAll] in Hrun. unfold bind in Hrun.
    destruct (resolveOutputPath env job i outputDir allowAny) as [e|outputPath];
      [discriminate|].
    apply IH in Hrun.
    + destruct Hrun as (Hq' & Hlen & Hpaths & Hcol & Hs').
      rewrite launch_tasks_length in Hlen. rewrite length_app in Hpaths.
      rewrite launch_collected in Hcol. cbn in *.
      repeat split; try apply Hq'; auto; lia.
    + rewrite launch_tasks_length. lia.
    + now apply launch_queueInv.
    + now apply launch_no_settled.
Qed.

Lemma launchAll_permitInv env allowAny outputDir k js :
  forall i s paths s' paths',
    launchAll env allowAny outputDir js i s paths = inr (s', paths') ->
    permitInv k s -> permitInv k s'.
Proof.
  induction js as [|job js IH]; intros i s paths s' paths' Hrun Hp.
  - cbn in Hrun. now inversion Hrun; subst.
  - cbn [launchAll] in Hrun. unfold bind in Hrun.
    destruct (resolveOutputPath env job i outputDir allowAny) as [e|outputPath];
      [discriminate|].
    eapply IH; [exact Hrun|]. now apply launch_permitInv.
Qed.

(** The path each task closes over is the one [resolveOutputPath] gave
    for its job. *)
Lemma launchAll_paths env allowAny outputDir js :
  forall i s paths s' paths',
    launchAll env allowAny outputDir js i s paths = inr (s', paths') ->
    exists ps,
      paths' = (paths ++ ps)%list /\
      forall n job,
        js !! n = Some job ->
        exists outputPath,
          ps !! n = Some outputPath /\
          resolveOutputPath env job (i + n) outputDir allowAny = inr outputPath.
Proof.
  induction js as [|job js IH]; intros i s paths s' paths' Hrun.
  - cbn in Hrun. inversion Hrun; subst. exists []. rewrite app_nil_r.
    split; [reflexivity|]. intros n job Hn. discriminate.
  - cbn [launchAll] in Hrun. unfold bind in Hrun.
    destruct (resolveOutputPath env job i outputDir allowAny)
      as [e|outputPath] eqn:Hpath; [discriminate|].
    apply IH in Hrun as (ps & -> & Hps). exists (outputPath :: ps).
    split; [now rewrite <- app_assoc|].
    intros n job' Hn. destruct n as [|n].
    + cbn in Hn. inversion Hn; subst job'. exists outputPath.
      rewrite Nat.add_0_r. auto.
    + cbn in Hn. destruct (Hps n job' Hn) as (p & Hp & Hres).
      exists p. split; [exact Hp|].
      replace (i + S n)%nat with (S i + n)%nat by lia. exact Hres.
Qed.

(** [launchAll] throws only what [resolveOutputPath] throws for a job. *)
Lemma launchAll_error env allowAny outputDir js :
  forall i s paths e,
    launchAll env allowAny outputDir js i s paths = inl e ->
    exists n job,
      js !! n = Some job /\
      resolveOutputPath env job (i + n) outputDir allowAny = inl e.
Proof.
  induction js as [|job js IH]; intros i s paths e Hrun.
  - discriminate.
  - cbn [launchAll] in Hrun. unfold bind in Hrun.
    destruct (resolveOutputPath env job i outputDir allowAny)
      as [e'|outputPath] eqn:Hpath.
    + inversion Hrun; subst e'. exists 0%nat, job.
      rewrite Nat.add_0_r. auto.
    + apply IH in Hrun as (n & job' & Hn & Hres). exists (S n), job'.
      replace (i + S n)%nat with (S i + n)%nat by lia. auto.
Qed.

(** *** The tasks of a batch *)

Section SchedulerFacts.

Variable config : BatchConfig.
Variable pollInterval : Z.
Variable maxPollAttempts : Q.
Variable execs : nat -> Executor.
Variable paths : list string.

Local Abbreviation step' := (step config pollInterval maxPollAttempts execs paths).
Local Abbreviation run' := (run config pollInterval maxPollAttempts execs paths).
Local Abbreviation entry := (expectedEntry config pollInterval maxPollAttempts execs paths).

(** The states of the tasks after a task has settled. *)
Lemma settle_tasks i result s :
  tasks s !! i = Some Running ->
  queueInv s ->
  forall x,
    tasks (settle i result s) !! x =
    if decide (x = i) then Some Settled
    else if decide (head (Semaphore.queue (semaphore s)) = Some x)
         then Some Granted
         else tasks s !! x.
Proof.
  intros Hi [Hnd Hq] x. unfold settle, Semaphore.release.
  assert (Hlen : (i < length (tasks s))%nat) by (eapply lookup_lt_Some; eauto).
  destruct (Semaphore.queue (semaphore s)) as [|j rest] eqn:Hqueue; cbn.
  - destruct (decide (x = i)) as [->|Hne].
    + now rewrite list_lookup_insert_eq.
    + rewrite list_lookup_insert_ne by congruence. reflexivity.
  - assert (Hj : tasks s !! j = Some Queued).
    { apply (proj1 (Hq j)). left. }
    assert (Hji : j <> i) by congruence.
    destruct (decide (x = i)) as [->|Hne].
    + rewrite list_lookup_insert_ne by congruence.
      now rewrite list_lookup_insert_eq.
    + destruct (decide (Some j = Some x)) as [Heq|Hneq].
      * inversion Heq; subst x. rewrite list_lookup_insert_eq; [reflexivity|].
        rewrite length_insert. eapply lookup_lt_Some; eauto.
      * rewrite !list_lookup_insert_ne by congruence. reflexivity.
Qed.

Lemma settle_queueInv i result s :
  tasks s !! i = Some Running -> queueInv s -> queueInv (settle i result s).
Proof.
  intros Hi Hinv. pose proof (settle_tasks i result s Hi Hinv) as Hts.
  destruct Hinv as [Hnd Hq]. split.
  - unfold settle, Semaphore.release.
    destruct (Semaphore.queue (semaphore s)) as [|j rest]; cbn.
    + constructor.
    + now apply NoDup_cons in Hnd.
  - intros x. rewrite Hts.
    assert (Hqueue : Semaphore.queue (semaphore (settle i result s))
                     = tail (Semaphore.queue (semaphore s))).
    { unfold settle, Semaphore.release.
      now destruct (Semaphore.queue (semaphore s)). }
    rewrite Hqueue.
    destruct (Semaphore.queue (semaphore s)) as [|j rest] eqn:Hq0; cbn.
    + destruct (decide (x = i)) as [->|Hne].
      * split; [intros Hin; inversion Hin | discriminate].
      * destruct (decide (None = Some x)); [discriminate|].
        rewrite <- Hq. reflexivity.
    + apply NoDup_cons in Hnd as [Hj Hrest].
      destruct (decide (x = i)) as [->|Hne].
      * split; [|discriminate]. intros Hin.
        assert (tasks s !! i = Some Queued) by (apply (proj1 (Hq i)); now right).
        congruence.
      * destruct (decide (Some j = Some x)) as [Heq|Hneq].
        -- inversion Heq; subst x. split; [contradiction|discriminate].
        -- rewrite <- Hq. rewrite elem_of_cons. split; [auto|].
           intros [->|Hin]; [congruence|exact Hin].
Qed.

Lemma settle_permitInv k i result s :
  tasks s !! i = Some Running -> queueInv s -> permitInv k s ->
  permitInv k (settle i result s).
Proof.
  intros Hi [Hnd Hq] [Hpos Hsum]. unfold settle, Semaphore.release, permitInv.
  pose proof (holders_insert (tasks s) i Running Settled Hi) as H1.
  destruct (Semaphore.queue (semaphore s)) as [|j rest] eqn:Hqueue;
    cbn [semaphore tasks Semaphore.permits isHolder b2n] in *.
  - count_eq H1. split; lra.
  - assert (Hj : tasks s !! j = Some Queued).
    { apply (proj1 (Hq j)). left. }
    assert (Hji : j <> i) by congruence.
    assert (Hj' : <[i:=Settled]> (tasks s) !! j = Some Queued).
    { rewrite list_lookup_insert_ne by congruence. exact Hj. }
    pose proof (holders_insert _ j Queued Granted Hj') as H2.
    cbn [isHolder b2n] in H2. count_eq H1. count_eq H2. split; lra.
Qed.

Lemma expectedEntry_index ts i job : index (entry ts i job) = (i + 1)%nat.
Proof.
  unfold expectedEntry.
  destruct (ts !! i) as [[| | |]|]; try reflexivity.
  destruct (paths !! i) as [outputPath|]; [|reflexivity].
  apply executeJob_loop.
Qed.

Lemma expectedEntry_ext ts ts' i job :
  ts !! i = ts' !! i -> entry ts i job = entry ts' i job.
Proof. intros Heq. unfold expectedEntry. now rewrite Heq. Qed.

Lemma settle_resultInv i job outputPath s :
  tasks s !! i = Some Running ->
  jobs config !! i = Some job ->
  paths !! i = Some outputPath ->
  queueInv s ->
  resultInv config pollInterval maxPollAttempts execs paths s ->
  resultInv config pollInterval maxPollAttempts execs paths
    (settle i
       (fst (executeJob job i outputPath config pollInterval maxPollAttempts
               (execs i)))
       s).
Proof.
  intros Hi Hjob Hpath Hqinv [Hnd Hres].
  set (result := fst (executeJob job i outputPath config pollInterval
                        maxPollAttempts (execs i))).
  pose proof (settle_tasks i result s Hi Hqinv) as Hts.
  assert (Hcol : collected (settle i result s) = (collected s ++ [result])%list).
  { unfold settle. now destruct (Semaphore.release (semaphore s)). }
  assert (Hkeep : forall x, tasks s !! x = Some Settled ->
                            tasks (settle i result s) !! x = Some Settled).
  { intros x Hx. rewrite Hts.
    destruct (decide (x = i)); [reflexivity|].
    destruct (decide (head (Semaphore.queue (semaphore s)) = Some x)) as [Hh|];
      [|exact Hx].
    exfalso. destruct Hqinv as [_ Hq].
    assert (x ∈ Semaphore.queue (semaphore s)) as Hin.
    { destruct (Semaphore.queue (semaphore s)); inversion Hh; subst. left. }
    apply Hq in Hin. congruence. }
  assert (Hnew : entry (tasks (settle i result s)) i job = result).
  { unfold expectedEntry. rewrite Hts, Hpath.
    destruct (decide (i = i)); [reflexivity|congruence]. }
  split.
  - rewrite Hcol, fmap_app. apply NoDup_app. split; [exact Hnd|].
    split; [|apply NoDup_singleton].
    intros x Hx Hxi. apply list_elem_of_singleton in Hxi. cbn in Hxi.
    apply list_elem_of_fmap in Hx as (res & -> & Hin).
    apply Hres in Hin as (i' & job' & _ & Hset & ->).
    rewrite expectedEntry_index in Hxi.
    assert (index result = (i + 1)%nat) as Hri by apply executeJob_loop.
    assert (i' = i) by lia. subst i'. congruence.
  - intros res. rewrite Hcol, elem_of_app, list_elem_of_singleton, Hres. split.
    + intros [(i' & job' & Hj' & Hset & ->)| ->].
      * exists i', job'. split; [exact Hj'|]. split; [now apply Hkeep|].
        apply expectedEntry_ext. rewrite (Hkeep i' Hset). exact Hset.
      * exists i, job. split; [exact Hjob|]. split; [|now rewrite Hnew].
        rewrite Hts. destruct (decide (i = i)); [reflexivity|congruence].
    + intros (i' & job' & Hj' & Hset & ->).
      destruct (decide (i' = i)) as [->|Hne].
      * right. rewrite Hjob in Hj'. inversion Hj'; subst job'. exact Hnew.
      * left. exists i', job'. split; [exact Hj'|].
        rewrite Hts in Hset. destruct (decide (i' = i)); [congruence|].
        destruct (decide (head (Semaphore.queue (semaphore s)) = Some i'));
          [discriminate|].
        split; [exact Hset|]. apply expectedEntry_ext.
        rewrite Hts. destruct (decide (i' = i)); [congruence|].
        destruct (decide (head (Semaphore.queue (semaphore s)) = Some i'));
          [contradiction|reflexivity].
Qed.

(** *** One event *)

Lemma step_queueInv s ev : queueInv s -> queueInv (step' s ev).
Proof.
  intros Hinv. destruct ev as [i|i]; cbn [step].
  - destruct (tasks s !! i) as [[| | |]|] eqn:Hi; try exact Hinv.
    destruct Hinv as [Hnd Hq]. split; [exact Hnd|]. cbn [semaphore tasks].
    intros j. rewrite Hq. destruct (decide (j = i)) as [->|Hne].
    + rewrite list_lookup_insert_eq by (eapply lookup_lt_Some; eauto).
      rewrite Hi. split; discriminate.
    + now rewrite list_lookup_insert_ne by congruence.
  - destruct (tasks s !! i) as [[| | |]|] eqn:Hi; try exact Hinv.
    destruct (jobs config !! i) as [job|]; [|exact Hinv].
    destruct (paths !! i) as [outputPath|]; [|exact Hinv].
    now apply settle_queueInv.
Qed.

Lemma step_permitInv k s ev :
  queueInv s -> permitInv k s -> permitInv k (step' s ev).
Proof.
  intros Hq Hinv. destruct ev as [i|i]; cbn [step].
  - destruct (tasks s !! i) as [[| | |]|] eqn:Hi; try exact Hinv.
    destruct Hinv as [Hpos Hsum]. unfold permitInv. cbn [semaphore tasks].
    pose proof (holders_insert (tasks s) i Granted Running Hi) as H1.
    cbn [isHolder b2n] in H1. count_eq H1. split; lra.
  - destruct (tasks s !! i) as [[| | |]|] eqn:Hi; try exact Hinv.
    destruct (jobs config !! i) as [job|]; [|exact Hinv].
    destruct (paths !! i) as [outputPath|]; [|exact Hinv].
    now apply settle_permitInv.
Qed.

Lemma step_resultInv s ev :
  queueInv s ->
  resultInv config pollInterval maxPollAttempts execs paths s ->
  resultInv config pollInterval maxPollAttempts execs paths (step' s ev).
Proof.
  intros Hq Hinv. destruct ev as [i|i]; cbn [step].
  - destruct (tasks s !! i) as [[| | |]|] eqn:Hi; try exact Hinv.
    destruct Hinv as [Hnd Hres]. split; [exact Hnd|]. cbn [collected tasks].
    assert (Hsame : forall x, tasks s !! x = Some Settled <->
                              <[i:=Running]> (tasks s) !! x = Some Settled).
    { intros x. destruct (decide (x = i)) as [->|Hne].
      - rewrite list_lookup_insert_eq by (eapply lookup_lt_Some; eauto).
        rewrite Hi. split; discriminate.
      - now rewrite list_lookup_insert_ne by congruence. }
    intros res. rewrite Hres. split.
    + intros (i' & job' & Hj' & Hset & ->). exists i', job'.
      split; [exact Hj'|]. split; [now apply Hsame|].
      apply expectedEntry_ext. rewrite Hset. symmetry. now apply Hsame.
    + intros (i' & job' & Hj' & Hset & ->). exists i', job'.
      split; [exact Hj'|]. split; [now apply Hsame|].
      apply expectedEntry_ext. rewrite Hset. symmetry. now apply Hsame.

  - destruct (tasks s !! i) as [[| | |]|] eqn:Hi; try exact Hinv.
    destruct (jobs config !! i) as [job|] eqn:Hjob; [|exact Hinv].
    destruct (paths !! i) as [outputPath|] eqn:Hpath; [|exact Hinv].
    now apply settle_resultInv.
Qed.

(** *** A whole schedule *)

Lemma run_queue_result schedule :
  forall s,
    queueInv s ->
    resultInv config pollInterval maxPollAttempts execs paths s ->
    queueInv (run' s schedule) /\
    resultInv config pollInterval maxPollAttempts execs paths (run' s schedule).
Proof.
  unfold run. induction schedule as [|ev schedule IH]; intros s Hq Hr.
  - cbn. auto.
  - cbn [fold_left]. apply IH.
    + now apply step_queueInv.
    + now apply step_resultInv.
Qed.

Lemma run_invariants k schedule :
  forall s,
    queueInv s -> permitInv k s ->
    resultInv config pollInterval maxPollAttempts execs paths s ->
    queueInv (run' s schedule) /\
    permitInv k (run' s schedule) /\
    resultInv config pollInterval maxPollAttempts execs paths (run' s schedule).
Proof.
  unfold run. induction schedule as [|ev schedule IH]; intros s Hq Hp Hr.
  - cbn. auto.
  - cbn [fold_left]. apply IH.
    + now apply step_queueInv.
    + now apply step_permitInv.
    + now apply step_resultInv.
Qed.

End SchedulerFacts.

(** ** Assembling the report *)

Lemma markIncomplete_missing completedIndices js :
  forall i results,
    markIncomplete completedIndices js i results
    = (results ++ missing completedIndices js i)%list.
Proof.
  induction js as [|job js IH]; intros i results; cbn [markIncomplete missing].
  - now rewrite app_nil_r.
  - rewrite IH. destruct (decide (i + 1 ∈ completedIndices)); cbn [app].
    + reflexivity.
    + now rewrite <- app_assoc.
Qed.

Lemma elem_of_missing completedIndices js :
  forall i0 x,
    x ∈ missing completedIndices js i0 <->
    exists i job,
      js !! i = Some job /\ ((i0 + i + 1)%nat ∉ completedIndices) /\
      x = cancelledResult (i0 + i) job.
Proof.
  induction js as [|job js IH]; intros i0 x; cbn [missing].
  - split; [intros Hin; inversion Hin | intros (i & j & Hl & _); discriminate].
  - rewrite elem_of_app, IH. split.
    + intros [Hin|(i & j & Hl & Hn & ->)].
      * destruct (decide (i0 + 1 ∈ completedIndices)) as [|Hn];
          [inversion Hin|].
        apply list_elem_of_singleton in Hin. subst x.
        exists 0%nat, job. rewrite !Nat.add_0_r. auto.
      * exists (S i), j. replace (i0 + S i)%nat with (S i0 + i)%nat by lia. auto.
    + intros (i & j & Hl & Hn & ->). destruct i as [|i].
      * left. cbn in Hl. inversion Hl; subst j.
        rewrite !Nat.add_0_r in *.
        destruct (decide (i0 + 1 ∈ completedIndices)); [contradiction|].
        now left.
      * right. exists i, j.
        replace (S i0 + i)%nat with (i0 + S i)%nat by lia. auto.
Qed.

Lemma missing_indices completedIndices js :
  forall i0,
    NoDup (index <$> missing completedIndices js i0) /\
    forall n, n ∈ index <$> missing completedIndices js i0 ->
              (i0 < n)%nat /\ n ∉ completedIndices.
Proof.
  induction js as [|job js IH]; intros i0; cbn [missing].
  - split; [constructor | intros n Hn; inversion Hn].
  - destruct (IH (S i0)) as [Hnd Hgt].
    destruct (decide (i0 + 1 ∈ completedIndices)) as [Hin|Hnin]; cbn [app].
    + split; [exact Hnd|]. intros n Hn. destruct (Hgt n Hn). split; [lia|auto].
    + rewrite fmap_cons. cbn [cancelledResult index]. split.
      * apply NoDup_cons. split; [|exact Hnd].
        intros Hn. apply Hgt in Hn. lia.
      * intros n Hn. apply elem_of_cons in Hn as [->|Hn].
        -- split; [lia|exact Hnin].
        -- destruct (Hgt n Hn). split; [lia|auto].
Qed.

Lemma insertByIndex_perm r l : insertByIndex r l ≡ₚ r :: l.
Proof.
  induction l as [|x l IH]; cbn [insertByIndex]; [reflexivity|].
  destruct (index r <=? index x)%nat; [reflexivity|].
  rewrite IH. apply Permutation_swap.
Qed.

Lemma sortByIndex_perm l : sortByIndex l ≡ₚ l.
Proof.
  induction l as [|x l IH]; cbn; [reflexivity|].
  unfold sortByIndex in IH. now rewrite insertByIndex_perm, IH.
Qed.

Lemma insertByIndex_sorted r l :
  StronglySorted byIndex l -> StronglySorted byIndex (insertByIndex r l).
Proof.
  induction 1 as [|x l Hl IH Hx]; cbn [insertByIndex].
  - repeat constructor.
  - destruct (Nat.leb_spec (index r) (index x)) as [Hle|Hgt].
    + constructor; [now constructor|]. constructor; [exact Hle|].
      eapply Forall_impl; [exact Hx|]. unfold byIndex. intros; lia.
    + constructor; [exact IH|].
      rewrite insertByIndex_perm. constructor; [unfold byIndex; lia | exact Hx].
Qed.

Lemma sortByIndex_sorted l : StronglySorted byIndex (sortByIndex l).
Proof.
  induction l as [|x l IH]; cbn; [constructor|].
  now apply insertByIndex_sorted.
Qed.

Lemma sorted_of_indices (l : list BatchJobResult) :
  forall a n, index <$> l = seq a n -> StronglySorted byIndex l.
Proof.
  induction l as [|x l IH]; intros a n Hseq; [constructor|].
  destruct n as [|n]; [discriminate|].
  rewrite fmap_cons in Hseq. cbn [seq] in Hseq. inversion Hseq as [[Hx Hl]].
  constructor; [eapply IH; eauto|].
  apply Forall_forall. intros y Hy. unfold byIndex.
  assert (index y ∈ seq (S (index x)) n) as Hin.
  { rewrite <- Hl. now apply list_elem_of_fmap_2. }
  apply elem_of_seq in Hin. lia.
Qed.

Section Report.

Variable config : BatchConfig.
Variable pollInterval : Z.
Variable maxPollAttempts : Q.
Variable execs : nat -> Executor.
Variable paths : list string.

Local Abbreviation entry := (expectedEntry config pollInterval maxPollAttempts execs paths).
Local Abbreviation report := (expectedReport config pollInterval maxPollAttempts execs paths).

Lemma expectedReport_indices ts :
  index <$> report ts = seq 1 (length (jobs config)).
Proof.
  apply list_eq. intros i. unfold expectedReport.
  rewrite list_lookup_fmap, list_lookup_imap.
  destruct (jobs config !! i) as [job|] eqn:Hjob; cbn.
  - rewrite expectedEntry_index. symmetry. apply lookup_seq.
    split; [lia|]. eapply lookup_lt_Some; eauto.
  - symmetry. apply lookup_ge_None. rewrite length_seq.
    now apply lookup_ge_None in Hjob.
Qed.

(** Sorting the pushed results and the cancelled entries gives one entry
    per job, in the order of the jobs. *)
Lemma finalize_results s :
  resultInv config pollInterval maxPollAttempts execs paths s ->
  results (finalize config (collected s)) = report (tasks s).
Proof.
  intros [Hnd Hres]. unfold finalize. cbn [results].
  set (done := list_to_set (index <$> collected s) : gset nat).
  rewrite markIncomplete_missing.
  assert (Hdone : forall i job,
             jobs config !! i = Some job ->
             ((i + 1)%nat ∈ done <-> tasks s !! i = Some Settled)).
  { intros i job Hjob. unfold done. rewrite elem_of_list_to_set. split.
    - intros Hin. apply list_elem_of_fmap in Hin as (res & Hidx & Hin).
      apply Hres in Hin as (i' & job' & _ & Hset & ->).
      rewrite expectedEntry_index in Hidx.
      assert (i' = i) by lia. now subst i'.
    - intros Hset. apply list_elem_of_fmap. exists (entry (tasks s) i job).
      split; [now rewrite expectedEntry_index|]. apply Hres. eauto. }
  assert (Hcancel : forall i job,
             tasks s !! i <> Some Settled ->
             entry (tasks s) i job = cancelledResult i job).
  { intros i job Hns. unfold expectedEntry.
    destruct (tasks s !! i) as [[| | |]|]; try reflexivity. congruence. }
  assert (HndT : NoDup (report (tasks s))).
  { apply (NoDup_fmap_1 index). rewrite expectedReport_indices. apply NoDup_seq. }
  assert (Hperm : (collected s ++ missing done (jobs config) 0)%list
                  ≡ₚ report (tasks s)).
  { apply NoDup_Permutation; [|exact HndT|].
    - apply (NoDup_fmap_1 index). rewrite fmap_app. apply NoDup_app.
      split; [exact Hnd|]. split; [|apply missing_indices].
      intros n Hn Hm. apply missing_indices in Hm as [_ Hm]. apply Hm.
      unfold done. now rewrite elem_of_list_to_set.
    - intros x. rewrite elem_of_app, Hres, elem_of_missing.
      unfold expectedReport. rewrite elem_of_lookup_imap. split.
      + intros [(i & job & Hjob & Hset & ->)|(i & job & Hjob & Hn & ->)].
        * eauto.
        * cbn [Nat.add] in *. exists i, job. split; [|exact Hjob].
          symmetry. apply Hcancel. intros Hset. apply Hn.
          now apply (Hdone i job Hjob).
      + intros (i & job & -> & Hjob).
        destruct (decide (tasks s !! i = Some Settled)) as [Hset|Hns].
        * left. eauto.
        * right. exists i, job. cbn [Nat.add]. split; [exact Hjob|].
          split; [|now apply Hcancel].
          intros Hin. apply Hns. now apply (Hdone i job Hjob). }
  assert (Hsorted : sortByIndex (collected s ++ missing done (jobs config) 0)
                    ≡ₚ report (tasks s)).
  { etrans; [apply sortByIndex_perm | exact Hperm]. }
  apply (StronglySorted_unique_strong byIndex).
  - intros x1 x2 Hx1 Hx2 H12 H21. unfold byIndex in *.
    rewrite Hsorted in Hx1.
    apply (index_injective_on (report (tasks s))); auto.
    + rewrite expectedReport_indices. apply NoDup_seq.
    + lia.
  - apply sortByIndex_sorted.
  - eapply sorted_of_indices. apply expectedReport_indices.
  - exact Hsorted.
Qed.

End Report.

(** ** The batch as a whole *)

Lemma executeBatch_unfold env config options execs schedule :
  executeBatch env config options execs schedule =
  match launched env config options with
  | inl e => inl e
  | inr (s0, paths) =>
      inr (finalize config
             (collected (finalState config execs schedule s0 paths)))
  end.
Proof.
  unfold executeBatch, launched, finalState, bind, ok.
  destruct (launchAll _ _ _ _ _ _ _) as [e|[s0 paths]]; reflexivity.
Qed.

(** The state after the launch satisfies the invariants of the scheduler. *)
Lemma launched_spec env config options s0 paths :
  launched env config options = inr (s0, paths) ->
  queueInv s0 /\
  (forall execs,
      resultInv config (pollIntervalOf config) (maxPollAttemptsOf config)
        execs paths s0) /\
  ((-1 < maxConcurrentOf config)%Q -> permitInv (maxConcurrentOf config) s0).
Proof.
  intros Hrun. unfold launched in Hrun.
  assert (Hq0 : queueInv (sched0 (maxConcurrentOf config))).
  { split; [constructor|]. intros j. cbn.
    split; [intros Hin; inversion Hin | discriminate]. }
  destruct (launchAll_spec _ _ _ _ _ _ _ _ _ Hrun eq_refl Hq0)
    as (Hq & _ & _ & Hcol & Hns).
  { intros j. cbn. discriminate. }
  split; [exact Hq|]. split.
  - intros execs. unfold resultInv. rewrite Hcol. cbn. split; [constructor|].
    intros res. split; [intros Hin; inversion Hin|].
    intros (i & job & _ & Hset & _). now apply Hns in Hset.
  - intros Hk. eapply launchAll_permitInv; [exact Hrun|].
    split; cbn [sched0 semaphore tasks Semaphore.new Semaphore.permits holders
                List.filter length]; [exact Hk|].
    rewrite ofNat_0. ring.
Qed.

Lemma finalState_invariants env config options execs schedule s0 paths :
  launched env config options = inr (s0, paths) ->
  let s := finalState config execs schedule s0 paths in
  queueInv s /\
  resultInv config (pollIntervalOf config) (maxPollAttemptsOf config)
    execs paths s /\
  ((-1 < maxConcurrentOf config)%Q -> permitInv (maxConcurrentOf config) s).
Proof.
  intros Hrun s. destruct (launched_spec _ _ _ _ _ Hrun) as (Hq & Hr & Hp).
  destruct (run_queue_result config (pollIntervalOf config)
              (maxPollAttemptsOf config) execs paths schedule s0 Hq (Hr execs))
    as [Hq' Hr'].
  split; [exact Hq'|]. split; [exact Hr'|].
  intros Hk.
  apply (run_invariants config (pollIntervalOf config)
           (maxPollAttemptsOf config) execs paths (maxConcurrentOf config)
           schedule s0 Hq (Hp Hk) (Hr execs)).
Qed.

(** The executors do not steer the scheduler: which task holds a permit,
    runs or has settled depends on the schedule alone. *)
Lemma run_tasks_independent config pollInterval maxPollAttempts paths
    execs execs' schedule :
  forall s s',
    semaphore s = semaphore s' -> tasks s = tasks s' ->
    semaphore (run config pollInterval maxPollAttempts execs paths s schedule)
    = semaphore (run config pollInterval maxPollAttempts execs' paths s' schedule)
    /\
    tasks (run config pollInterval maxPollAttempts execs paths s schedule)
    = tasks (run config pollInterval maxPollAttempts execs' paths s' schedule).
Proof.
  unfold run. induction schedule as [|ev schedule IH]; intros s s' Hsem Hts.
  - cbn. auto.
  - cbn [fold_left].
    assert (Hstep :
      semaphore (step config pollInterval maxPollAttempts execs paths s ev)
      = semaphore (step config pollInterval maxPollAttempts execs' paths s' ev)
      /\
      tasks (step config pollInterval maxPollAttempts execs paths s ev)
      = tasks (step config pollInterval maxPollAttempts execs' paths s' ev)).
    { destruct s as [sem ts col], s' as [sem' ts' col']. cbn in Hsem, Hts.
      subst sem' ts'. destruct ev as [i|i]; cbn [step tasks semaphore].
      - destruct (ts !! i) as [[| | |]|]; cbn; auto.
      - destruct (ts !! i) as [[| | |]|]; cbn; auto.
        destruct (jobs config !! i); cbn; auto.
        destruct (paths !! i); cbn; auto.
        unfold settle. cbn [semaphore tasks collected].
        destruct (Semaphore.release sem); cbn; auto. }
    destruct Hstep as [Hsem' Hts']. now apply IH.
Qed.

Lemma retryLoop_ext exec exec' req maxRetries retryDelay retryPatterns remaining :
  (forall n, exec req n = exec' req n) ->
  forall attempt lastError,
    retryLoop exec req maxRetries retryDelay retryPatterns remaining attempt lastError
    = retryLoop exec' req maxRetries retryDelay retryPatterns remaining attempt lastError.
Proof.
  intros Hext. induction remaining as [|n IH]; intros attempt lastError.
  - reflexivity.
  - cbn [retryLoop]. rewrite <- Hext.
    destruct (exec req attempt); [reflexivity|]. now rewrite IH.
Qed.

(** The result of a job depends on its own executor only. *)
Lemma executeJob_ext job i outputPath config pollInterval maxPollAttempts exec exec' :
  (forall req n, exec req n = exec' req n) ->
  executeJob job i outputPath config pollInterval maxPollAttempts exec
  = executeJob job i outputPath config pollInterval maxPollAttempts exec'.
Proof.
  intros Hext. unfold executeJob. cbn zeta.
  now rewrite (retryLoop_ext exec exec') by (intros n; apply Hext).
Qed.

(** The upper estimate is the lower one with the margin applied. *)
Lemma estimate_margin config :
  (estimatedCostMax (estimateBatchCost config)
   == margin * estimatedCostMin (estimateBatchCost config))%Q.
Proof.
  unfold estimateBatchCost. cbn [estimatedCostMax estimatedCostMin].
  set (tc := fold_left _ (jobs config) typeCounts0).
  assert (H : forall ks acc,
             (totalMax acc == margin * totalMin acc)%Q ->
             (totalMax (fold_left (addBucket tc) ks acc)
              == margin * totalMin (fold_left (addBucket tc) ks acc))%Q).
  { induction ks as [|k ks IH]; intros acc Hacc; [exact Hacc|].
    cbn [fold_left]. apply IH. unfold addBucket.
    destruct (tc_count (getCount tc k) =? 0)%nat; [exact Hacc|].
    cbn [totalMax totalMin]. rewrite Hacc. ring. }
  apply H. cbn. reflexivity.
Qed.

(** The entries of the report, read off the final states of the tasks. *)
Lemma finalize_report env config options execs schedule s0 paths :
  launched env config options = inr (s0, paths) ->
  results (finalize config
             (collected (finalState config execs schedule s0 paths)))
  = expectedReport config (pollIntervalOf config) (maxPollAttemptsOf config)
      execs paths (tasks (finalState config execs schedule s0 paths)) /\
  length (results (finalize config
             (collected (finalState config execs schedule s0 paths))))
  = length (jobs config).
Proof.
  intros Hrun.
  destruct (finalState_invariants env config options execs schedule s0 paths Hrun)
    as (_ & Hr & _).
  rewrite (finalize_results config _ _ execs paths _ Hr).
  split; [reflexivity|]. unfold expectedReport. apply length_imap.
Qed.

(** Once the job promises are created, [executeBatch] returns a report,
    whose entries are read off the final states of the tasks. *)
Lemma executeBatch_report_spec :
  forall env config options execs schedule s0 paths,
    launched env config options = inr (s0, paths) ->
    let s := finalState config execs schedule s0 paths in
    exists report,
      executeBatch env config options execs schedule = inr report /\
      total report = length (jobs config) /\
      index <$> results report = seq 1 (length (jobs config)) /\
      (forall i job,
          jobs config !! i = Some job ->
          results report !! i =
          Some (expectedEntry config (pollIntervalOf config)
                  (maxPollAttemptsOf config) execs paths (tasks s) i job)) /\
      (forall res, res ∈ collected s -> res ∈ results report) /\
      (forall i job,
          jobs config !! i = Some job ->
          ((i + 1)%nat ∉ index <$> collected s) ->
          results report !! i = Some (cancelledResult i job)) /\
      (forall res,
          res ∈ results report ->
          res ∈ collected s \/
          (status res = cancelled /\
           error res = Some "Job cancelled due to timeout")).
Proof.
  intros env config options execs schedule s0 paths Hrun s.
  destruct (finalState_invariants env config options execs schedule s0 paths Hrun)
    as (Hq & Hr & _).
  fold s in Hq, Hr.
  pose proof (finalize_results config _ _ execs paths s Hr) as Hfin.
  exists (finalize config (collected s)).
  split; [rewrite executeBatch_unfold, Hrun; reflexivity|].
  split; [reflexivity|].
  split; [rewrite Hfin; apply expectedReport_indices|].
  assert (Hlookup : forall i job,
             jobs config !! i = Some job ->
             results (finalize config (collected s)) !! i =
             Some (expectedEntry config (pollIntervalOf config)
                     (maxPollAttemptsOf config) execs paths (tasks s) i job)).
  { intros i job Hjob. rewrite Hfin. unfold expectedReport.
    now rewrite list_lookup_imap, Hjob. }
  destruct Hr as [Hnd Hres].
  split; [exact Hlookup|].
  split.
  { intros res Hin. apply Hres in Hin as (i & job & Hjob & _ & ->).
    eapply list_elem_of_lookup_2. now apply Hlookup. }
  split.
  { intros i job Hjob Hnin. rewrite (Hlookup i job Hjob). f_equal.
    unfold expectedEntry.
    destruct (tasks s !! i) as [[| | |]|] eqn:Hts; try reflexivity.
    exfalso. apply Hnin. apply list_elem_of_fmap.
    exists (expectedEntry config (pollIntervalOf config)
              (maxPollAttemptsOf config) execs paths (tasks s) i job).
    split; [now rewrite expectedEntry_index|]. apply Hres. eauto. }
  intros res Hin. rewrite Hfin in Hin. unfold expectedReport in Hin.
  apply elem_of_lookup_imap in Hin as (i & job & -> & Hjob).
  destruct (decide (tasks s !! i = Some Settled)) as [Hset|Hns].
  - left. apply Hres. eauto.
  - right. unfold expectedEntry.
    destruct (tasks s !! i) as [[| | |]|]; try (split; reflexivity).
    congruence.
Qed.

(** C4 -- the report [executeBatch] returns has exactly one outcome per
    job, the indices being 1..N in ascending order, whatever has happened
    by the time the report is assembled (every task settled, or the
    deadline passed with tasks still queued or running): the entry of a
    task that has settled is the result its [executeJob] returned, every
    pushed result is kept, and every index with no pushed result gets the
    cancelled entry with the timeout reason. *)
Theorem executeBatch_one_outcome_per_job :
  forall env config options execs schedule report,
    executeBatch env config options execs schedule = inr report ->
    total report = length (jobs config) /\
    length (results report) = length (jobs config) /\
    index <$> results report = seq 1 (length (jobs config)) /\
    exists s0 paths,
      launched env config options = inr (s0, paths) /\
      let s := finalState config execs schedule s0 paths in
      (forall i job,
          jobs config !! i = Some job ->
          results report !! i =
          Some (expectedEntry config (pollIntervalOf config)
                  (maxPollAttemptsOf config) execs paths (tasks s) i job)) /\
      (forall res, res ∈ collected s -> res ∈ results report) /\
      (forall i job,
          jobs config !! i = Some job ->
          ((i + 1)%nat ∉ index <$> collected s) ->
          results report !! i = Some (cancelledResult i job)) /\
      (forall res,
          res ∈ results report ->
          res ∈ collected s \/
          (status res = cancelled /\
           error res = Some "Job cancelled due to timeout")).
Proof.
  intros env config options execs schedule report Hreturn.
  destruct (launched env config options) as [e|[s0 paths]] eqn:Hrun.
  { rewrite executeBatch_unfold, Hrun in Hreturn. discriminate. }
  destruct (executeBatch_report_spec env config options execs schedule s0
              paths Hrun)
    as (report' & Hreturn' & Htotal & Hidx & Hentry & Hkeep & Hcancel & Hall).
  rewrite Hreturn in Hreturn'. inversion Hreturn'; subst report'.
  split; [exact Htotal|].
  split.
  { rewrite <- (length_fmap index), Hidx. apply length_seq. }
  split; [exact Hidx|].
  exists s0, paths. split; [reflexivity|].
  cbv zeta. auto.
Qed.

Lemma executeBatch_one_outcome_per_job_witness :
  exists report,
    executeBatch Sample.env Sample.serialConfig Sample.noOptions
      (fun _ => Sample.alwaysResolves) [Start 0; Finish 0; Start 1] = inr report /\
    index <$> results report = [1; 2; 3]%nat.
Proof.
  destruct (executeBatch Sample.env Sample.serialConfig Sample.noOptions
              (fun _ => Sample.alwaysResolves) [Start 0; Finish 0; Start 1])
    as [e|report] eqn:Hrun; [vm_compute in Hrun; discriminate|].
  exists report. split; [reflexivity|].
  exact (proj1 (proj2 (proj2 (executeBatch_one_outcome_per_job Sample.env
                                Sample.serialConfig Sample.noOptions
                                (fun _ => Sample.alwaysResolves)
                                [Start 0; Finish 0; Start 1] report Hrun)))).
Defined.





Lemma retryLoop_last_error exec req maxRetries retryDelay retryPatterns remaining :
  forall attempt lastError msg,
    fst (retryLoop exec req maxRetries retryDelay retryPatterns remaining
           attempt lastError) = inr msg ->
    msg = lastError \/ exists n, exec req n = Rejected msg.
Proof.
  induction remaining as [|n IH]; intros attempt lastError msg Hout.
  - cbn in Hout. inversion Hout. now left.
  - cbn [retryLoop] in Hout.
    destruct (exec req attempt) as [result|message] eqn:Hexec;
      [discriminate|].
    destruct (retryLoop exec req maxRetries retryDelay retryPatterns n
                (S attempt) message) as [out effects] eqn:Hloop.
    cbn [fst] in Hout. subst out.
    specialize (IH (S attempt) message msg). rewrite Hloop in IH.
    destruct (IH eq_refl) as [->|Hn]; right; eauto.
Qed.

(** A failed job carries the message of a rejection by its own executor
    (the empty message when no attempt was made at all). *)
Lemma executeJob_failed job i outputPath config pollInterval maxPollAttempts exec :
  let res := fst (executeJob job i outputPath config pollInterval
                    maxPollAttempts exec) in
  (status res = completed \/ status res = failed) /\
  (status res = failed ->
   exists msg,
     error res = Some msg /\
     (msg = "" \/
      exists n, exec (request job outputPath config pollInterval maxPollAttempts) n
                = Rejected msg)).
Proof.
  intros res.
  destruct (executeJob_loop job i outputPath config pollInterval
              maxPollAttempts exec) as (_ & _ & Hstatus).
  fold res in Hstatus.
  destruct (fst (retryLoop _ _ _ _ _ _ _ _)) as [result|lastError] eqn:Hloop.
  - split; [now left|]. rewrite Hstatus. discriminate.
  - destruct Hstatus as [Hst Herr]. split; [now right|]. intros _.
    exists lastError. split; [exact Herr|].
    now apply retryLoop_last_error in Hloop.
Qed.

(** C9 -- [executeBatch] throws only a [BatchConfigError] that
    [resolveOutputPath] threw for one of the jobs, and whether it does is
    decided before any executor is called; otherwise it returns a report,
    whatever the executors do.  A rejection by the executor of one job
    shows in the outcome of that job only: the entry of a job is the same
    under any other behaviour of the executors of its siblings, and a
    failed entry carries a message with which the executor of that very
    job rejected a call.  The rejections are recorded: when the executor
    of a job that left [executeJob] has rejected every attempt, the entry
    of that job is [failed] with the message of the last rejection as its
    error. *)
Theorem executeBatch_contains_job_errors :
  forall env config options execs schedule,
    (forall e,
        executeBatch env config options execs schedule = inl e ->
        exists i job,
          jobs config !! i = Some job /\
          resolveOutputPath env job i (outputDirOf env config)
            (allowAnyOf options) = inl e) /\
    (forall e execs' schedule',
        executeBatch env config options execs schedule = inl e ->
        executeBatch env config options execs' schedule' = inl e) /\
    (forall report execs' j,
        executeBatch env config options execs schedule = inr report ->
        (forall req n, execs' j req n = execs j req n) ->
        exists report',
          executeBatch env config options execs' schedule = inr report' /\
          results report' !! j = results report !! j) /\
    (forall report i res,
        executeBatch env config options execs schedule = inr report ->
        results report !! i = Some res ->
        status res = failed ->
        exists job outputPath msg,
          jobs config !! i = Some job /\
          error res = Some msg /\
          (msg = "" \/
           exists n,
             execs i (request job outputPath config (pollIntervalOf config)
                        (maxPollAttemptsOf config)) n = Rejected msg)) /\
    (forall report i job res,
        executeBatch env config options execs schedule = inr report ->
        jobs config !! i = Some job ->
        results report !! i = Some res ->
        status res <> cancelled ->
        exists outputPath,
          resolveOutputPath env job i (outputDirOf env config)
            (allowAnyOf options) = inr outputPath /\
          forall last msg,
            Z.of_nat last = Qfloor (maxRetriesOf config) ->
            (forall a, (a < last)%nat ->
                       exists m,
                         execs i (request job outputPath config
                                    (pollIntervalOf config)
                                    (maxPollAttemptsOf config)) a
                         = Rejected m) ->
            execs i (request job outputPath config (pollIntervalOf config)
                       (maxPollAttemptsOf config)) last = Rejected msg ->
            status res = failed /\ error res = Some msg).
Proof.
  intros env config options execs schedule. split; [|split; [|split; [|split]]].
  - intros e Hthrow. rewrite executeBatch_unfold in Hthrow.
    destruct (launched env config options) as [e'|[s0 paths]] eqn:Hrun;
      [|discriminate].
    inversion Hthrow; subst e'. unfold launched in Hrun.
    apply launchAll_error in Hrun as (n & job & Hjob & Hres).
    exists n, job. auto.
  - intros e execs' schedule' Hthrow. rewrite executeBatch_unfold in *.
    destruct (launched env config options) as [e'|[s0 paths]];
      [exact Hthrow|discriminate].
  - intros report execs' j Hreturn Hsame.
    rewrite executeBatch_unfold in Hreturn.
    destruct (launched env config options) as [e'|[s0 paths]] eqn:Hrun;
      [discriminate|].
    inversion Hreturn as [Hreport]. clear Hreturn.
    destruct (finalize_report env config options execs
                schedule s0 paths Hrun) as [Hfin Hlen].
    destruct (finalize_report env config options execs'
                schedule s0 paths Hrun) as [Hfin' Hlen'].
    exists (finalize config
              (collected (finalState config execs' schedule s0 paths))).
    split; [rewrite executeBatch_unfold, Hrun; reflexivity|].
    rewrite Hfin, Hfin'. unfold expectedReport. rewrite !list_lookup_imap.
    destruct (jobs config !! j) as [job|]; [|reflexivity]. cbn. f_equal.
    destruct (run_tasks_independent config (pollIntervalOf config)
                (maxPollAttemptsOf config) paths execs' execs schedule s0 s0
                eq_refl eq_refl) as [_ Hts].
    unfold finalState, expectedEntry. rewrite Hts.
    destruct (tasks _ !! j) as [[| | |]|]; try reflexivity.
    destruct (paths !! j) as [outputPath|]; [|reflexivity].
    now rewrite (executeJob_ext _ _ _ _ _ _ (execs' j) (execs j)) by apply Hsame.
  - intros report i res Hreturn Hlookup Hfailed.
    rewrite executeBatch_unfold in Hreturn.
    destruct (launched env config options) as [e'|[s0 paths]] eqn:Hrun;
      [discriminate|].
    inversion Hreturn as [Hreport]. subst report. clear Hreturn.
    destruct (finalize_report env config options execs schedule s0 paths Hrun)
      as [Hfin _].
    rewrite Hfin in Hlookup. unfold expectedReport in Hlookup.
    rewrite list_lookup_imap in Hlookup.
    destruct (jobs config !! i) as [job|] eqn:Hjob; [|discriminate].
    cbn in Hlookup. inversion Hlookup as [Hres]. clear Hlookup.
    rewrite <- Hres in Hfailed. clear Hres.
    unfold expectedEntry in Hfailed |- *.
    destruct (tasks _ !! i) as [[| | |]|];
      try (cbn in Hfailed; discriminate Hfailed).
    destruct (paths !! i) as [outputPath|];
      [|cbn in Hfailed; discriminate Hfailed].
    destruct (proj2 (executeJob_failed job i outputPath config
                       (pollIntervalOf config) (maxPollAttemptsOf config)
                       (execs i)) Hfailed) as (msg & Herr & Hmsg).
    exists job, outputPath, msg. split; [reflexivity|]. split; assumption.
  - intros report i job res Hreturn Hjob Hlookup Hsettled.
    rewrite executeBatch_unfold in Hreturn.
    destruct (launched env config options) as [e'|[s0 paths]] eqn:Hrun;
      [discriminate|].
    inversion Hreturn as [Hreport]. subst report. clear Hreturn.
    destruct (finalize_report env config options execs schedule s0 paths Hrun)
      as [Hfin _].
    rewrite Hfin in Hlookup. unfold expectedReport in Hlookup.
    rewrite list_lookup_imap, Hjob in Hlookup.
    cbn in Hlookup. inversion Hlookup as [Hres]. clear Hlookup.
    unfold launched in Hrun.
    apply launchAll_paths in Hrun as (ps & Hps & Hpaths).
    cbn [app] in Hps. subst ps.
    destruct (Hpaths i job Hjob) as (outputPath & Hpath & Hresolve).
    exists outputPath. split; [exact Hresolve|].
    intros last msg Hlast Hrej Hmsg.
    unfold expectedEntry in Hres, Hsettled |- *. rewrite Hpath in *.
    destruct (tasks _ !! i) as [[| | |]|];
      try (subst res; cbn in Hsettled; congruence).
    destruct (executeJob_loop job i outputPath config (pollIntervalOf config)
                (maxPollAttemptsOf config) (execs i)) as (_ & _ & Hstatus).
    rewrite Hres in Hstatus. rewrite <- Hlast in Hstatus.
    replace (Z.to_nat (Z.of_nat last + 1)) with (S last) in Hstatus by lia.
    rewrite (retryLoop_rejected_last _ _ _ _ _ last 0 "" msg) in Hstatus.
    + rewrite ?Hres. exact Hstatus.
    + intros a Ha. apply Hrej. lia.
    + exact Hmsg.
Qed.

Lemma executeBatch_contains_job_errors_witness :
  exists report res,
    executeBatch Sample.env Sample.serialConfig Sample.noOptions
      (fun j => if (j =? 1)%nat
                then Sample.alwaysRejects "HTTP 500: Internal Server Error"
                else Sample.alwaysResolves)
      [Start 0; Finish 0; Start 1; Finish 1; Start 2; Finish 2] = inr report /\
    results report !! 1%nat = Some res /\
    status res = failed /\
    error res = Some "HTTP 500: Internal Server Error" /\
    status <$> results report = [completed; failed; completed].
Proof.
  destruct (executeBatch Sample.env Sample.serialConfig Sample.noOptions
              (fun j => if (j =? 1)%nat
                        then Sample.alwaysRejects "HTTP 500: Internal Server Error"
                        else Sample.alwaysResolves)
              [Start 0; Finish 0; Start 1; Finish 1; Start 2; Finish 2])
    as [e|report] eqn:Hrun; [vm_compute in Hrun; discriminate|].
  assert (Hreport := Hrun). vm_compute in Hreport.
  destruct (results report !! 1%nat) as [res|] eqn:Hres;
    [|injection Hreport as <-; vm_compute in Hres; discriminate].
  assert (Hsettled : status res <> cancelled).
  { injection Hreport as <-. vm_compute in Hres. injection Hres as <-.
    discriminate. }
  destruct (proj2 (proj2 (proj2 (proj2
              (executeBatch_contains_job_errors Sample.env Sample.serialConfig
                 Sample.noOptions
                 (fun j => if (j =? 1)%nat
                           then Sample.alwaysRejects
                                  "HTTP 500: Internal Server Error"
                           else Sample.alwaysResolves)
                 [Start 0; Finish 0; Start 1; Finish 1; Start 2; Finish 2]))))
              report 1%nat (Sample.textJob "second") res Hrun eq_refl Hres
              Hsettled) as (outputPath & _ & Hrecorded).
  destruct (Hrecorded 1%nat "HTTP 500: Internal Server Error" eq_refl
              (fun a _ => ex_intro _ _ eq_refl) eq_refl) as [Hstatus Herror].
  exists report, res. split; [reflexivity|]. split; [exact Hres|].
  split; [exact Hstatus|]. split; [exact Herror|].
  injection Hreport as <-. vm_compute. reflexivity.
Defined.

(** C10 -- the [estimated_cost] of the report is the lower end of the
    range [estimateBatchCost] computes for the configuration handed to
    [executeBatch], and it is the same whatever the executors and the
    schedule did. *)
Theorem executeBatch_estimated_cost :
  forall env config options execs schedule report,
    executeBatch env config options execs schedule = inr report ->
    estimated_cost report = Some (estimatedCostMin (estimateBatchCost config)) /\
    (forall execs' schedule' report',
        executeBatch env config options execs' schedule' = inr report' ->
        estimated_cost report' = estimated_cost report).
Proof.
  intros env config options execs schedule report Hrun.
  assert (Hcost : forall execs0 schedule0 report0,
             executeBatch env config options execs0 schedule0 = inr report0 ->
             estimated_cost report0
             = Some (estimatedCostMin (estimateBatchCost config))).
  { intros execs0 schedule0 report0 H0. rewrite executeBatch_unfold in H0.
    destruct (launched env config options) as [e|[s0 paths]]; [discriminate|].
    inversion H0. reflexivity. }
  split; [eapply Hcost; eauto|].
  intros execs' schedule' report' Hrun'.
  now rewrite (Hcost _ _ _ Hrun), (Hcost _ _ _ Hrun').
Qed.

Lemma executeBatch_estimated_cost_witness :
  exists report,
    executeBatch Sample.env Sample.serialConfig Sample.noOptions
      (fun _ => Sample.alwaysRejects "HTTP 500: Internal Server Error")
      [Start 0; Finish 0] = inr report /\
    estimated_cost report
    = Some (estimatedCostMin (estimateBatchCost Sample.serialConfig)).
Proof.
  destruct (executeBatch Sample.env Sample.serialConfig Sample.noOptions
              (fun _ => Sample.alwaysRejects "HTTP 500: Internal Server Error")
              [Start 0; Finish 0]) as [e|report] eqn:Hrun;
    [vm_compute in Hrun; discriminate|].
  exists report. split; [reflexivity|].
  exact (proj1 (executeBatch_estimated_cost Sample.env Sample.serialConfig
                  Sample.noOptions
                  (fun _ => Sample.alwaysRejects "HTTP 500: Internal Server Error")
                  [Start 0; Finish 0] report Hrun)).
Defined.


(** * Further properties *)

Import Merge Cli Video PathUtil R2 Facts.

(** ** The retry loop, for any executor *)

(** Every delay follows a call of its own. *)
Lemma retryLoop_trace_counts exec req maxRetries retryDelay retryPatterns remaining :
  forall attempt lastError,
    let trace :=
      snd (retryLoop exec req maxRetries retryDelay retryPatterns remaining
             attempt lastError) in
    (invocations trace <= remaining)%nat /\
    (delays trace <= invocations trace)%nat.
Proof.
  induction remaining as [|n IH]; intros attempt lastError; cbn zeta.
  - cbn. lia.
  - cbn [retryLoop]. destruct (exec req attempt) as [result|msg].
    + cbn. lia.
    + destruct (retryLoop exec req maxRetries retryDelay retryPatterns n
                  (S attempt) msg) as [out effects] eqn:Hloop.
      specialize (IH (S attempt) msg). rewrite Hloop in IH.
      cbn [snd] in *. rewrite invocations_step, delays_step.
      destruct (shouldRetry maxRetries retryPatterns attempt msg); lia.
Qed.


Lemma retryLoop_resolved_inv exec req maxRetries retryDelay retryPatterns remaining :
  forall attempt lastError result,
    fst (retryLoop exec req maxRetries retryDelay retryPatterns remaining
           attempt lastError) = inl result ->
    exists r,
      (r < remaining)%nat /\
      exec req (attempt + r)%nat = Resolved result /\
      forall a, (attempt <= a < attempt + r)%nat ->
                exists msg, exec req a = Rejected msg.
Proof.
  induction remaining as [|n IH]; intros attempt lastError result Hout.
  - discriminate.
  - cbn [retryLoop] in Hout.
    destruct (exec req attempt) as [res|msg] eqn:Hexec.
    + cbn in Hout. inversion Hout; subst res. exists 0%nat.
      rewrite Nat.add_0_r. split; [lia|]. split; [exact Hexec|]. intros; lia.
    + destruct (retryLoop exec req maxRetries retryDelay retryPatterns n
                  (S attempt) msg) as [out effects] eqn:Hloop.
      cbn [fst] in Hout. subst out.
      specialize (IH (S attempt) msg result). rewrite Hloop in IH.
      destruct (IH eq_refl) as (r & Hr & Hres & Hrej).
      exists (S r). split; [lia|]. split.
      * replace (attempt + S r)%nat with (S attempt + r)%nat by lia. exact Hres.
      * intros a Ha. destruct (decide (a = attempt)) as [->|Hne]; [eauto|].
        apply Hrej. lia.
Qed.

(** The fields of a completed job are read off the result the executor
    resolved with. *)
Lemma executeJob_completed_fields job i outputPath config pollInterval
    maxPollAttempts exec result :
  fst (retryLoop exec
         (request job outputPath config pollInterval maxPollAttempts)
         (maxRetriesOf config)
         (JS.nullish
            (retry_delay_ms (JS.nullish (retry_policy config) defaultRetryPolicy))
            1000%Z)
         (retryPatternsOf config)
         (Z.to_nat (Qfloor (maxRetriesOf config) + 1)) 0 "") = inl result ->
  let res := fst (executeJob job i outputPath config pollInterval
                    maxPollAttempts exec) in
  res_output_path res
  = Some (JS.nullish (keepTruthy (vr_output_path result)) outputPath) /\
  res_video_url res = keepTruthy (vr_url result) /\
  video_duration res = keepTruthyQ (vr_duration result) /\
  request_id res = keepTruthy (vr_request_id result) /\
  error res = None /\
  res_prompt res = prompt job.
Proof.
  unfold executeJob, maxRetriesOf, retryPatternsOf. cbn zeta.
  destruct (retryLoop _ _ _ _ _ _ _ _) as [[r|lastError] effects]; cbn;
    intros Heq; inversion Heq; subst; auto 10.
Qed.

(** With [max_retries] at 0.5, which [validateRetryPolicy] accepts, the
    only attempt is followed by a delay. *)
Lemma executeJob_fractional_retries_trace :
  let policy := Sample.policy (1 # 2) ["HTTP 5"] in
  let job := Sample.textJob "A cat playing with a ball" in
  let config := Sample.configOf [job] None (Some policy) in
  validateRetryPolicy policy = inr tt /\
  exists req,
    snd (executeJob job 0 "/out/generated_1.mp4" config 5000 120
           (Sample.alwaysRejects "HTTP 500: Internal Server Error"))
    = [Invoke req; Sleep 1000].
Proof.
  cbv zeta. split; [vm_compute; reflexivity|].
  eexists. vm_compute. reflexivity.
Qed.



(** X2 -- a job is completed exactly when one of the attempts the retry bound
    allows resolves after rejections only; the executor is then called
    once more than it rejected, and the outcome carries the path, URL and
    request id of that resolved call. *)
Theorem executeJob_completed_iff :
  forall job i outputPath config pollInterval maxPollAttempts exec,
    let req := request job outputPath config pollInterval maxPollAttempts in
    let out := executeJob job i outputPath config pollInterval
                 maxPollAttempts exec in
    (status (fst out) = completed <->
     exists a result,
       (JS.ofNat a <= maxRetriesOf config)%Q /\
       exec req a = Resolved result /\
       forall b, (b < a)%nat -> exists msg, exec req b = Rejected msg) /\
    (forall a result,
        (JS.ofNat a <= maxRetriesOf config)%Q ->
        exec req a = Resolved result ->
        (forall b, (b < a)%nat -> exists msg, exec req b = Rejected msg) ->
        invocations (snd out) = (a + 1)%nat /\
        res_output_path (fst out)
        = Some (JS.nullish (keepTruthy (vr_output_path result)) outputPath) /\
        res_video_url (fst out) = keepTruthy (vr_url result) /\
        request_id (fst out) = keepTruthy (vr_request_id result) /\
        error (fst out) = None).
Proof.
  intros job i outputPath config pollInterval maxPollAttempts exec req out.
  destruct (executeJob_loop job i outputPath config pollInterval
              maxPollAttempts exec) as (Htrace & _ & Hstatus).
  fold out in Htrace, Hstatus. fold req in Htrace, Hstatus.
  pose proof (executeJob_completed_fields job i outputPath config pollInterval
                maxPollAttempts exec) as Hfields.
  cbn zeta in Hfields. fold req in Hfields. fold out in Hfields.
  set (delay := JS.nullish _ _) in *.
  assert (Hfwd : forall a result,
             (JS.ofNat a <= maxRetriesOf config)%Q ->
             exec req a = Resolved result ->
             (forall b, (b < a)%nat -> exists msg, exec req b = Rejected msg) ->
             fst (retryLoop exec req (maxRetriesOf config) delay
                    (retryPatternsOf config)
                    (Z.to_nat (Qfloor (maxRetriesOf config) + 1)) 0 "")
             = inl result /\
             invocations (snd out) = S a).
  { intros a result Ha Hres Hrej. rewrite Htrace. apply ofNat_le_floor in Ha.
    apply retryLoop_resolved; [lia| |exact Hres].
    intros b Hb. apply Hrej. lia. }
  split; [split|].
  - intros Hdone.
    destruct (fst (retryLoop exec req (maxRetriesOf config) delay
                     (retryPatternsOf config)
                     (Z.to_nat (Qfloor (maxRetriesOf config) + 1)) 0 ""))
      as [result|lastError] eqn:Hloop.
    + apply retryLoop_resolved_inv in Hloop as (r & Hr & Hres & Hrej).
      exists r, result. split; [apply ofNat_le_floor; lia|].
      split; [exact Hres|].
      intros b Hb. apply Hrej. lia.
    + destruct Hstatus as [Hst _]. congruence.
  - intros (a & result & Ha & Hres & Hrej).
    destruct (Hfwd a result Ha Hres Hrej) as [Hloop _].
    now rewrite Hloop in Hstatus.
  - intros a result Ha Hres Hrej.
    destruct (Hfwd a result Ha Hres Hrej) as [Hloop Hinv].
    destruct (Hfields result Hloop) as (Hp & Hu & _ & Hr & He & _).
    split; [lia|]. auto.
Qed.

Lemma executeJob_completed_iff_witness :
  let job := Sample.textJob "A cat playing with a ball" in
  let config :=
    Sample.configOf [job] None (Some (Sample.policy 2 ["rate_limit"])) in
  invocations
    (snd (executeJob job 0 "/out/clip.mp4" config 5000 120
            (Sample.rejectsThenResolves 2 "boom"))) = 3%nat /\
  res_output_path
    (fst (executeJob job 0 "/out/clip.mp4" config 5000 120
            (Sample.rejectsThenResolves 2 "boom")))
  = Some "/out/generated_1.mp4".
Proof.
  cbv zeta.
  destruct (proj2 (executeJob_completed_iff
                     (Sample.textJob "A cat playing with a ball") 0
                     "/out/clip.mp4"
                     (Sample.configOf [Sample.textJob "A cat playing with a ball"]
                        None (Some (Sample.policy 2 ["rate_limit"])))
                     5000 120 (Sample.rejectsThenResolves 2 "boom"))
              2%nat Sample.video) as (Hinv & Hpath & _).
  - vm_compute. discriminate.
  - reflexivity.
  - intros b Hb. exists "boom".
    destruct b as [|[|b]]; [reflexivity|reflexivity|lia].
  - split; [exact Hinv|exact Hpath].
Defined.

(** ** The scheduler: order of admission, progress, tallies *)

Lemma launch_fifo i s :
  i = length (tasks s) -> fifoInv s -> waitInv s ->
  fifoInv (launch i s) /\ waitInv (launch i s).
Proof.
  intros Hi [Hq Hlen] Hw. unfold launch, Semaphore.acquire, fifoInv, waitInv.
  destruct (positive_spec (Semaphore.permits (semaphore s))) as [Hpos|Hnone];
    cbn [semaphore tasks Semaphore.permits Semaphore.queue];
    rewrite ?length_app; cbn [length].
  - rewrite (Hw Hpos). cbn. split; [split; [reflexivity|lia]|]. auto.
  - split; [|intros; lra]. split; [|lia].
    rewrite (Nat.add_1_r (length (Semaphore.queue (semaphore s)))), seq_S.
    replace (length (tasks s) + 1 - S (length (Semaphore.queue (semaphore s))))%nat
      with (length (tasks s) - length (Semaphore.queue (semaphore s)))%nat by lia.
    rewrite <- Hq. f_equal. f_equal. lia.
Qed.

Lemma launchAll_fifo env allowAny outputDir js :
  forall i s paths s' paths',
    launchAll env allowAny outputDir js i s paths = inr (s', paths') ->
    i = length (tasks s) ->
    fifoInv s -> waitInv s ->
    fifoInv s' /\ waitInv s'.
Proof.
  induction js as [|job js IH]; intros i s paths s' paths' Hrun Hi Hf Hw.
  - cbn in Hrun. inversion Hrun; subst. auto.
  - cbn [launchAll] in Hrun. unfold bind in Hrun.
    destruct (resolveOutputPath env job i outputDir allowAny) as [e|outputPath];
      [discriminate|].
    destruct (launch_fifo i s Hi Hf Hw) as [Hf' Hw'].
    eapply IH; eauto. rewrite launch_tasks_length. lia.
Qed.

Section MoreSchedulerFacts.

Variable config : BatchConfig.
Variable pollInterval : Z.
Variable maxPollAttempts : Q.
Variable execs : nat -> Executor.
Variable paths : list string.

Local Abbreviation step' := (step config pollInterval maxPollAttempts execs paths).
Local Abbreviation run' := (run config pollInterval maxPollAttempts execs paths).

Lemma settle_queue i result s :
  Semaphore.queue (semaphore (settle i result s))
  = tail (Semaphore.queue (semaphore s)) /\
  length (tasks (settle i result s)) = length (tasks s) /\
  (Semaphore.queue (semaphore s) <> [] ->
   Semaphore.permits (semaphore (settle i result s))
   = Semaphore.permits (semaphore s)).
Proof.
  unfold settle, Semaphore.release.
  destruct (Semaphore.queue (semaphore s)) as [|j rest]; cbn;
    rewrite ?length_insert; auto. split; [reflexivity|]. split; [reflexivity|].
  congruence.
Qed.

Lemma step_tasks_length s ev : length (tasks (step' s ev)) = length (tasks s).
Proof.
  destruct ev as [i|i]; cbn [step].
  - destruct (tasks s !! i) as [[| | |]|]; cbn; rewrite ?length_insert; auto.
  - destruct (tasks s !! i) as [[| | |]|]; auto.
    destruct (jobs config !! i); auto. destruct (paths !! i); auto.
    apply settle_queue.
Qed.

Lemma step_fifo s ev : fifoInv s -> waitInv s ->
  fifoInv (step' s ev) /\ waitInv (step' s ev).
Proof.
  intros Hf Hw. destruct ev as [i|i]; cbn [step].
  - destruct (tasks s !! i) as [[| | |]|]; auto.
    unfold fifoInv, waitInv in *. cbn [semaphore tasks].
    rewrite length_insert. auto.
  - destruct (tasks s !! i) as [[| | |]|]; auto.
    destruct (jobs config !! i) as [job|]; auto.
    destruct (paths !! i) as [outputPath|]; auto.
    set (result := fst (executeJob _ _ _ _ _ _ _)).
    destruct (settle_queue i result s) as (Hqueue & Hlen & Hperm).
    destruct Hf as [Hq Hle]. unfold fifoInv, waitInv. rewrite Hqueue, Hlen.
    destruct (Semaphore.queue (semaphore s)) as [|j rest] eqn:Hq0.
    + cbn. split; [split; [reflexivity|lia]|auto].
    + cbn [tail length] in *. split.
      * split; [|lia]. cbn [seq] in Hq. injection Hq as Hj Hrest.
        replace (S (length (tasks s) - S (length rest)))%nat
          with (length (tasks s) - length rest)%nat in Hrest by lia.
        exact Hrest.
      * intros Hpos. rewrite Hperm in Hpos; [|intros Hnil; discriminate Hnil].
        specialize (Hw Hpos). rewrite Hq0 in Hw. discriminate Hw.
Qed.

Lemma run_fifo schedule :
  forall s, fifoInv s -> waitInv s ->
            fifoInv (run' s schedule) /\ waitInv (run' s schedule).
Proof.
  unfold run. induction schedule as [|ev schedule IH]; intros s Hf Hw.
  - cbn. auto.
  - cbn [fold_left]. destruct (step_fifo s ev Hf Hw). now apply IH.
Qed.

Lemma run_tasks_length schedule :
  forall s, length (tasks (run' s schedule)) = length (tasks s).
Proof.
  unfold run. induction schedule as [|ev schedule IH]; intros s; [reflexivity|].
  cbn [fold_left]. now rewrite IH, step_tasks_length.
Qed.

End MoreSchedulerFacts.

(** The invariants of the final state that do not depend on the number of
    permits. *)
Lemma finalState_fifo env config options execs schedule s0 paths :
  launched env config options = inr (s0, paths) ->
  let s := finalState config execs schedule s0 paths in
  fifoInv s /\ waitInv s /\
  length (tasks s) = length (jobs config) /\
  length paths = length (jobs config).
Proof.
  intros Hrun s. unfold launched in Hrun.
  assert (Hq0 : queueInv (sched0 (maxConcurrentOf config))).
  { split; [constructor|]. intros j. cbn.
    split; [intros Hin; inversion Hin | discriminate]. }
  destruct (launchAll_spec _ _ _ _ _ _ _ _ _ Hrun eq_refl Hq0)
    as (_ & Hlen & Hpaths & _ & _).
  { intros j. cbn. discriminate. }
  destruct (launchAll_fifo _ _ _ _ _ _ _ _ _ Hrun eq_refl) as [Hf Hw].
  { split; cbn; [reflexivity|lia]. }
  { intros _. reflexivity. }
  destruct (run_fifo config (pollIntervalOf config) (maxPollAttemptsOf config)
              execs paths schedule s0 Hf Hw) as [Hf' Hw'].
  split; [exact Hf'|]. split; [exact Hw'|]. split; [|exact Hpaths].
  subst s. unfold finalState. rewrite run_tasks_length. exact Hlen.
Qed.

(** X3 -- jobs are admitted in the order of the configuration: at every point
    of a batch, once a job is past the queue so is every job listed before
    it, and the queue holds the remaining indices in ascending order. *)
Theorem executeBatch_admits_in_order :
  forall env config options execs schedule s0 paths,
    launched env config options = inr (s0, paths) ->
    let s := finalState config execs schedule s0 paths in
    (forall i j st,
        (i < j)%nat -> tasks s !! j = Some st -> st <> Queued ->
        tasks s !! i <> Some Queued) /\
    Semaphore.queue (semaphore s)
    = seq (length (jobs config) - length (Semaphore.queue (semaphore s)))
          (length (Semaphore.queue (semaphore s))).
Proof.
  intros env config options execs schedule s0 paths Hrun s.
  destruct (finalState_fifo env config options execs schedule s0 paths Hrun)
    as ([Hq Hle] & _ & Hlen & _).
  destruct (finalState_invariants env config options execs schedule s0 paths Hrun)
    as ([_ Hqueue] & _ & _).
  fold s in Hq, Hle, Hlen, Hqueue. split.
  - intros i j st Hij Hj Hst Hi.
    apply Hqueue in Hi. rewrite Hq in Hi. apply elem_of_seq in Hi.
    assert (j ∈ Semaphore.queue (semaphore s)) as Hjq.
    { rewrite Hq. apply elem_of_seq. apply lookup_lt_Some in Hj. lia. }
    apply Hqueue in Hjq. congruence.
  - rewrite <- Hlen. exact Hq.
Qed.

Lemma executeBatch_admits_in_order_witness :
  tasks (finalState Sample.serialConfig (fun _ => Sample.alwaysResolves)
           [Start 0; Finish 0]
           {| semaphore := {| Semaphore.permits := 0;
                              Semaphore.queue := [1; 2]%nat |};
              tasks := [Granted; Queued; Queued];
              collected := [] |}
           ["/out/generated_1.mp4"; "/out/generated_2.mp4";
            "/out/generated_3.mp4"]) !! 0%nat <> Some Queued /\
  (0 < 1)%nat.
Proof.
  split; [|lia].
  apply (proj1 (executeBatch_admits_in_order Sample.env Sample.serialConfig
                  Sample.noOptions (fun _ => Sample.alwaysResolves)
                  [Start 0; Finish 0] _ _ eq_refl) 0%nat 1%nat Granted).
  - lia.
  - reflexivity.
  - discriminate.
Defined.

Lemma countStatus_partition (rs : list BatchJobResult) :
  (countStatus completed rs + countStatus failed rs + countStatus cancelled rs
   = length rs)%nat.
Proof.
  unfold countStatus. induction rs as [|r rs IH]; [reflexivity|].
  rewrite !filter_cons. cbn [length].
  destruct (status r); repeat case_decide; try congruence; cbn [length]; lia.
Qed.

Lemma countStatus_cancelled_imap (f : nat -> BatchJobConfig -> BatchJobResult) :
  forall js ts,
    length ts = length js ->
    (forall i job t, js !! i = Some job -> ts !! i = Some t ->
                     (status (f i job) = cancelled <-> t <> Settled)) ->
    countStatus cancelled (imap f js) = unsettled ts.
Proof.
  intros js. revert f. induction js as [|job js IH]; intros f ts Hlen Hst.
  - destruct ts; [reflexivity|discriminate].
  - destruct ts as [|t ts]; [discriminate|].
    cbn [imap]. unfold countStatus, unsettled in *.
    rewrite !filter_cons.
    specialize (IH (f ∘ S) ts ltac:(cbn in Hlen; lia)
                  (fun i job t Hj Ht => Hst (S i) job t Hj Ht)).
    pose proof (Hst 0%nat job t eq_refl eq_refl) as H0.
    destruct t; cbn [isSettled negb]; repeat case_decide; cbn [length];
      try (rewrite IH; reflexivity);
      try (exfalso; tauto);
      try (exfalso; apply H; apply H0; discriminate).
Qed.

Lemma finalize_cancelled env config options execs schedule s0 paths :
  launched env config options = inr (s0, paths) ->
  let s := finalState config execs schedule s0 paths in
  cancelled_count (finalize config (collected s)) = unsettled (tasks s).
Proof.
  intros Hrun s.
  destruct (finalState_fifo env config options execs schedule s0 paths Hrun)
    as (_ & _ & Hlen & Hpaths).
  destruct (finalize_report env config options execs schedule s0 paths Hrun)
    as [Hres _].
  fold s in Hlen, Hres.
  change (cancelled_count (finalize config (collected s)))
    with (countStatus cancelled (results (finalize config (collected s)))).
  rewrite Hres. unfold expectedReport.
  apply countStatus_cancelled_imap; [exact Hlen|].
  intros i job t Hjob Ht. unfold expectedEntry. rewrite Ht.
  destruct (paths !! i) as [outputPath|] eqn:Hp.
  - destruct t; cbn [status cancelledResult];
      try (split; [discriminate|reflexivity]).
    destruct (executeJob_failed job i outputPath config (pollIntervalOf config)
                (maxPollAttemptsOf config) (execs i)) as [[Hst|Hst] _];
      rewrite Hst; split; congruence.
  - apply lookup_lt_Some in Hjob. apply lookup_ge_None in Hp. lia.
Qed.

(** X4 -- the three counts of the report add up to the number of jobs, and the
    number of cancelled entries is the number of tasks that had not
    settled when the report was assembled. *)
Theorem executeBatch_tallies :
  forall env config options execs schedule report,
    executeBatch env config options execs schedule = inr report ->
    (succeeded report + failed_count report + cancelled_count report
     = total report)%nat /\
    succeeded report = countStatus completed (results report) /\
    failed_count report = countStatus failed (results report) /\
    exists s0 paths,
      launched env config options = inr (s0, paths) /\
      cancelled_count report
      = unsettled (tasks (finalState config execs schedule s0 paths)).
Proof.
  intros env config options execs schedule report Hreturn.
  rewrite executeBatch_unfold in Hreturn.
  destruct (launched env config options) as [e|[s0 paths]] eqn:Hrun;
    [discriminate|].
  injection Hreturn as <-.
  destruct (finalize_report env config options execs schedule s0 paths Hrun)
    as [_ Hlen].
  split.
  - cbn [succeeded failed_count cancelled_count total finalize].
    rewrite countStatus_partition. exact Hlen.
  - split; [reflexivity|]. split; [reflexivity|].
    exists s0, paths. split; [reflexivity|].
    apply (finalize_cancelled env config options execs schedule s0 paths Hrun).
Qed.

Lemma executeBatch_tallies_witness :
  exists report,
    executeBatch Sample.env Sample.serialConfig Sample.noOptions
      (fun _ => Sample.alwaysResolves) [Start 0; Finish 0] = inr report /\
    (succeeded report + failed_count report + cancelled_count report
     = total report)%nat.
Proof.
  eexists. split; [reflexivity|].
  apply (executeBatch_tallies Sample.env Sample.serialConfig Sample.noOptions
           (fun _ => Sample.alwaysResolves) [Start 0; Finish 0] _ eq_refl).
Defined.

Lemma workLeft_insert ts :
  forall i old new,
    ts !! i = Some old ->
    (workLeft (<[i := new]> ts) + stepsLeft old
     = workLeft ts + stepsLeft new)%nat.
Proof.
  induction ts as [|t ts IH]; intros i old new Hi; [discriminate|].
  destruct i as [|i].
  - cbn in Hi. injection Hi as ->. cbn [workLeft]. cbn. lia.
  - change (<[S i:=new]> (t :: ts)) with (t :: <[i:=new]> ts).
    change ((t :: ts) !! S i) with (ts !! i) in Hi.
    cbn [workLeft]. specialize (IH i old new Hi). lia.
Qed.

Lemma workLeft_unsettled ts : workLeft ts = 0%nat -> unsettled ts = 0%nat.
Proof.
  unfold unsettled. induction ts as [|t ts IH]; [reflexivity|].
  cbn [workLeft]. intros Hzero.
  destruct t; cbn [stepsLeft] in Hzero; try lia.
  cbn. apply IH. lia.
Qed.

Lemma workLeft_pending ts :
  (0 < workLeft ts)%nat -> exists i t, ts !! i = Some t /\ t <> Settled.
Proof.
  induction ts as [|t ts IH]; cbn [workLeft]; [lia|]. intros Hpos.
  destruct (decide (t = Settled)) as [->|Hne].
  - destruct IH as (i & t & Hi & Ht); [cbn in Hpos; lia|].
    exists (S i), t. auto.
  - exists 0%nat, t. auto.
Qed.

Lemma holders_pending ts :
  (0 < holders ts)%nat -> exists i t, ts !! i = Some t /\ isHolder t = true.
Proof.
  unfold holders. induction ts as [|t ts IH]; cbn [List.filter length]; [lia|].
  destruct (isHolder t) eqn:Ht.
  - intros _. exists 0%nat, t. auto.
  - intros Hpos. destruct (IH Hpos) as (i & t' & Hi & Ht').
    exists (S i), t'. auto.
Qed.

Section Progress.

Variable config : BatchConfig.
Variable pollInterval : Z.
Variable maxPollAttempts : Q.
Variable execs : nat -> Executor.
Variable paths : list string.

Local Abbreviation step' := (step config pollInterval maxPollAttempts execs paths).
Local Abbreviation run' := (run config pollInterval maxPollAttempts execs paths).

(** With at least one permit in the system, a batch with unfinished work
    has a task that holds a permit, and the next event of that task brings
    the batch forward. *)
Lemma step_progress k s :
  (1 <= k)%Q ->
  queueInv s -> permitInv k s -> waitInv s ->
  length (tasks s) = length (jobs config) ->
  length paths = length (jobs config) ->
  (0 < workLeft (tasks s))%nat ->
  exists ev, (workLeft (tasks (step' s ev)) < workLeft (tasks s))%nat.
Proof.
  intros Hk [Hnd Hq] [Hpos Hsum] Hw Hlen Hpaths Hwork.
  assert (exists i t, tasks s !! i = Some t /\ isHolder t = true)
    as (i & t & Hi & Ht).
  { destruct (Semaphore.queue (semaphore s)) as [|j rest] eqn:Hqueue.
    - destruct (workLeft_pending _ Hwork) as (i & t & Hi & Hns).
      exists i, t. split; [exact Hi|].
      destruct t; try reflexivity; [|congruence].
      apply Hq in Hi. inversion Hi.
    - apply holders_pending.
      assert (~ (0 < Semaphore.permits (semaphore s))%Q) as Hnone.
      { intros Hfree. specialize (Hw Hfree). congruence. }
      apply Qnot_lt_le in Hnone. apply ofNat_lt. rewrite ofNat_0. lra. }
  assert (is_Some (jobs config !! i)) as [job Hjob].
  { apply lookup_lt_is_Some. apply lookup_lt_Some in Hi. lia. }
  assert (is_Some (paths !! i)) as [outputPath Hpath].
  { apply lookup_lt_is_Some. apply lookup_lt_Some in Hi. lia. }
  destruct t; try discriminate Ht.
  - exists (Start i). cbn [step]. rewrite Hi. cbn [tasks].
    pose proof (workLeft_insert (tasks s) i Granted Running Hi) as H1.
    cbn [stepsLeft] in H1. lia.
  - exists (Finish i). cbn [step]. rewrite Hi, Hjob, Hpath.
    unfold settle, Semaphore.release.
    pose proof (workLeft_insert (tasks s) i Running Settled Hi) as H1.
    cbn [stepsLeft] in H1.
    destruct (Semaphore.queue (semaphore s)) as [|j rest] eqn:Hqueue;
      cbn [tasks]; [lia|].
    assert (tasks s !! j = Some Queued) as Hj.
    { apply Hq. left. }
    assert (j <> i) as Hne by congruence.
    assert (<[i:=Settled]> (tasks s) !! j = Some Queued) as Hj'.
    { rewrite list_lookup_insert_ne by congruence. exact Hj. }
    pose proof (workLeft_insert _ j Queued Granted Hj') as H2.
    cbn [stepsLeft] in H2. lia.
Qed.

(** Every state of a batch with at least one permit can be brought to the
    end: some continuation of the schedule settles every task. *)
Lemma run_completes k :
  (1 <= k)%Q ->
  length paths = length (jobs config) ->
  forall n s,
    workLeft (tasks s) = n ->
    queueInv s -> permitInv k s -> waitInv s -> fifoInv s ->
    length (tasks s) = length (jobs config) ->
    exists rest, unsettled (tasks (run' s rest)) = 0%nat.
Proof.
  intros Hk Hpaths n. induction n as [n IH] using lt_wf_ind.
  intros s Hn Hq Hp Hw Hf Hlen.
  destruct (Nat.eq_dec n 0) as [->|Hpos].
  - exists []. cbn. now apply workLeft_unsettled.
  - destruct (step_progress k s Hk Hq Hp Hw Hlen Hpaths ltac:(lia)) as [ev Hev].
    destruct (step_fifo config pollInterval maxPollAttempts execs paths s ev Hf Hw)
      as [Hf' Hw'].
    destruct (IH (workLeft (tasks (step' s ev))) ltac:(lia) (step' s ev) eq_refl)
      as [rest Hrest]; auto.
    + now apply step_queueInv.
    + now apply step_permitInv.
    + now rewrite step_tasks_length.
    + exists (ev :: rest). exact Hrest.
Qed.

End Progress.

(** X5 -- a batch with at least one permit cannot get stuck: whatever has
    happened so far, the events can go on until every job has settled, and
    the report then has no cancelled entry. *)
Theorem executeBatch_can_complete :
  forall env config options execs schedule s0 paths,
    (1 <= maxConcurrentOf config)%Q ->
    launched env config options = inr (s0, paths) ->
    exists rest report,
      executeBatch env config options execs (schedule ++ rest)%list
      = inr report /\
      cancelled_count report = 0%nat /\
      (succeeded report + failed_count report)%nat = length (jobs config) /\
      forall res, res ∈ results report -> status res <> cancelled.
Proof.
  intros env config options execs schedule s0 paths Hk Hrun.
  destruct (finalState_invariants env config options execs schedule s0 paths Hrun)
    as (Hq & _ & Hp).
  destruct (finalState_fifo env config options execs schedule s0 paths Hrun)
    as (Hf & Hw & Hlen & Hpaths).
  destruct (run_completes config (pollIntervalOf config)
              (maxPollAttemptsOf config) execs paths (maxConcurrentOf config)
              Hk Hpaths _ _ eq_refl Hq (Hp ltac:(lra)) Hw Hf Hlen)
    as [rest Hrest].
  exists rest.
  exists (finalize config
            (collected (finalState config execs (schedule ++ rest) s0 paths))).
  assert (Hcancelled :
            cancelled_count
              (finalize config
                 (collected (finalState config execs (schedule ++ rest) s0 paths)))
            = 0%nat).
  { rewrite (finalize_cancelled env config options execs (schedule ++ rest)
               s0 paths Hrun).
    unfold finalState, run in *. rewrite fold_left_app. exact Hrest. }
  split; [rewrite executeBatch_unfold, Hrun; reflexivity|].
  split; [exact Hcancelled|].
  destruct (finalize_report env config options execs (schedule ++ rest) s0 paths
              Hrun) as [_ Hlength].
  split.
  - pose proof (countStatus_partition
                  (results (finalize config
                     (collected (finalState config execs (schedule ++ rest)
                                   s0 paths))))) as Hsum.
    rewrite Hlength in Hsum.
    cbn [cancelled_count finalize results succeeded failed_count] in *. lia.
  - intros res Hin Hst.
    cbn [cancelled_count finalize results] in *.
    unfold countStatus in Hcancelled.
    apply length_zero_iff_nil in Hcancelled.
    assert (res ∈ filter (fun r => status r = cancelled)
              (sortByIndex
                 (markIncomplete
                    (list_to_set
                       (index <$> collected
                          (finalState config execs (schedule ++ rest) s0 paths)))
                    (jobs config) 0
                    (collected
                       (finalState config execs (schedule ++ rest) s0 paths)))))
      as Hin'.
    { apply list_elem_of_filter. auto. }
    rewrite Hcancelled in Hin'. inversion Hin'.
Qed.

Lemma executeBatch_can_complete_witness :
  exists rest report,
    executeBatch Sample.env Sample.serialConfig Sample.noOptions
      (fun _ => Sample.alwaysRejects "Invalid prompt") ([Start 0] ++ rest)%list = inr report /\
    cancelled_count report = 0%nat.
Proof.
  destruct (executeBatch_can_complete Sample.env Sample.serialConfig
              Sample.noOptions (fun _ => Sample.alwaysRejects "Invalid prompt") [Start 0] _ _
              ltac:(vm_compute; discriminate) eq_refl)
    as (rest & report & Hreturn & Hcancelled & _).
  exists rest, report. split; [exact Hreturn|exact Hcancelled].
Defined.

Lemma launchAll_starved env allowAny outputDir js :
  forall i s paths s' paths',
    launchAll env allowAny outputDir js i s paths = inr (s', paths') ->
    (Semaphore.permits (semaphore s) <= 0)%Q ->
    Forall (eq Queued) (tasks s) ->
    (Semaphore.permits (semaphore s') <= 0)%Q /\
    Forall (eq Queued) (tasks s') /\
    collected s' = collected s.
Proof.
  induction js as [|job js IH]; intros i s paths s' paths' Hrun Hnone Hall.
  - cbn in Hrun. inversion Hrun; subst. auto.
  - cbn [launchAll] in Hrun. unfold bind in Hrun.
    destruct (resolveOutputPath env job i outputDir allowAny) as [e|outputPath];
      [discriminate|].
    apply IH in Hrun.
    + now rewrite launch_collected in Hrun.
    + unfold launch, Semaphore.acquire.
      destruct (positive_spec (Semaphore.permits (semaphore s))); [lra|].
      exact Hnone.
    + unfold launch, Semaphore.acquire.
      destruct (positive_spec (Semaphore.permits (semaphore s))); [lra|].
      cbn [tasks]. apply Forall_app. split; [exact Hall|]. repeat constructor.
Qed.

Lemma run_starved config pollInterval maxPollAttempts execs paths schedule :
  forall s,
    Forall (eq Queued) (tasks s) ->
    run config pollInterval maxPollAttempts execs paths s schedule = s.
Proof.
  unfold run. induction schedule as [|ev schedule IH]; intros s Hall;
    [reflexivity|].
  cbn [fold_left].
  assert (step config pollInterval maxPollAttempts execs paths s ev = s) as ->.
  { destruct ev as [i|i]; cbn [step];
      destruct (tasks s !! i) as [t|] eqn:Hi; try reflexivity;
      (eapply Forall_lookup_1 in Hall; [|exact Hi]); subst t; reflexivity. }
  now apply IH.
Qed.

Lemma unsettled_queued ts : Forall (eq Queued) ts -> unsettled ts = length ts.
Proof.
  unfold unsettled. induction 1 as [|t ts <- _ IH]; [reflexivity|].
  cbn. now rewrite IH.
Qed.

(** X6 -- a negative [max_concurrent] is not replaced by the default: the
    semaphore then never hands out a permit, no job is ever started, and
    the report that follows the deadline lists every job as cancelled. *)
Theorem executeBatch_negative_limit_starves :
  forall env config options execs schedule report,
    (maxConcurrentOf config < 0)%Q ->
    executeBatch env config options execs schedule = inr report ->
    cancelled_count report = length (jobs config) /\
    succeeded report = 0%nat /\
    failed_count report = 0%nat /\
    forall res,
      res ∈ results report ->
      status res = cancelled /\
      error res = Some "Job cancelled due to timeout" /\
      res_output_path res = None.
Proof.
  intros env config options execs schedule report Hk Hreturn.
  rewrite executeBatch_unfold in Hreturn.
  destruct (launched env config options) as [e|[s0 paths]] eqn:Hrun;
    [discriminate|].
  injection Hreturn as <-.
  destruct (launchAll_starved _ _ _ _ _ _ _ _ _ Hrun) as (_ & Hall & Hcol);
    [cbn; lra|constructor|].
  assert (Hfinal : finalState config execs schedule s0 paths = s0).
  { unfold finalState. now apply run_starved. }
  destruct (finalState_fifo env config options execs schedule s0 paths Hrun)
    as (_ & _ & Hlen & _).
  pose proof (finalize_cancelled env config options execs schedule s0 paths Hrun)
    as Hcancelled.
  cbv zeta in Hlen, Hcancelled.
  rewrite Hfinal in *. rewrite unsettled_queued in Hcancelled by exact Hall.
  rewrite Hlen in Hcancelled.
  destruct (finalize_report env config options execs schedule s0 paths Hrun)
    as [Hres Hlength].
  rewrite Hfinal in Hres, Hlength.
  pose proof (countStatus_partition (results (finalize config (collected s0))))
    as Hsum.
  rewrite Hlength in Hsum.
  split; [exact Hcancelled|].
  split; [cbn [cancelled_count succeeded failed_count finalize results] in *; lia|].
  split; [cbn [cancelled_count succeeded failed_count finalize results] in *; lia|].
  intros res Hin. rewrite Hres in Hin. unfold expectedReport in Hin.
  apply list_elem_of_lookup in Hin as [i Hi].
  rewrite list_lookup_imap in Hi.
  destruct (jobs config !! i) as [job|]; [|discriminate].
  cbn in Hi. injection Hi as <-. unfold expectedEntry.
  destruct (tasks s0 !! i) as [t|] eqn:Ht.
  - eapply Forall_lookup_1 in Hall; [|exact Ht]. subst t.
    repeat split.
  - repeat split.
Qed.

Lemma executeBatch_negative_limit_starves_witness :
  exists report,
    executeBatch Sample.env
      (Sample.configOf [Sample.textJob "first"; Sample.textJob "second"]
         (Some (-1)%Q) None)
      Sample.noOptions (fun _ => Sample.alwaysResolves)
      [Start 0; Finish 0; Start 1] = inr report /\
    cancelled_count report = 2%nat.
Proof.
  eexists. split; [reflexivity|].
  apply (executeBatch_negative_limit_starves Sample.env
           (Sample.configOf [Sample.textJob "first"; Sample.textJob "second"]
              (Some (-1)%Q) None)
           Sample.noOptions (fun _ => Sample.alwaysResolves)
           [Start 0; Finish 0; Start 1] _ ltac:(vm_compute; reflexivity) eq_refl).
Defined.

(** ** The cost estimate *)

Lemma jobsOfType_total js :
  (jobsOfType generation js + jobsOfType image_to_video js + jobsOfType edit js
   = length js)%nat.
Proof.
  unfold jobsOfType. induction js as [|job js IH]; [reflexivity|].
  cbn [List.filter length].
  destruct (estimateType job); repeat case_bool_decide; try congruence;
    cbn [length]; lia.
Qed.

Lemma secondsOfType_none k d js :
  jobsOfType k js = 0%nat -> secondsOfType k d js = 0%Q.
Proof.
  unfold jobsOfType. induction js as [|job js IH]; [reflexivity|].
  cbn [List.filter secondsOfType].
  destruct (bool_decide (estimateType job = k)); [discriminate|].
  intros Hnone. rewrite (IH Hnone). reflexivity.
Qed.

Lemma secondsOfType_edit d js :
  (secondsOfType edit d js == 5 * inject_Z (Z.of_nat (jobsOfType edit js)))%Q.
Proof.
  unfold jobsOfType. induction js as [|job js IH]; [reflexivity|].
  cbn [List.filter secondsOfType].
  destruct (bool_decide (estimateType job = edit)) eqn:Hty.
  - apply bool_decide_eq_true_1 in Hty.
    rewrite (typeAndDuration_edit d job Hty). cbn [length snd].
    rewrite IH, Nat2Z.inj_succ. unfold Z.succ. rewrite inject_Z_plus.
    change (inject_Z 1) with 1%Q. ring.
  - rewrite IH. ring.
Qed.

Lemma countJobs_seconds d js :
  forall tc k,
    (tc_totalDuration (getCount (fold_left (countJob d) js tc) k)
     == tc_totalDuration (getCount tc k) + secondsOfType k d js)%Q.
Proof.
  induction js as [|job js IH]; intros tc k.
  - cbn. ring.
  - cbn [fold_left secondsOfType]. rewrite IH. unfold countJob.
    pose proof (typeAndDuration_fst d job) as Hty.
    destruct (typeAndDuration d job) as [ty dur]. cbn [fst snd] in *.
    rewrite getCount_bump. rewrite <- Hty.
    destruct (decide (ty = k)) as [->|Hne].
    + rewrite bool_decide_eq_true_2 by reflexivity. cbn. ring.
    + rewrite bool_decide_eq_false_2 by exact Hne. ring.
Qed.

Lemma sumOver_app f l1 l2 :
  (sumOver f (l1 ++ l2)%list == sumOver f l1 + sumOver f l2)%Q.
Proof.
  induction l1 as [|b l1 IH]; cbn [sumOver app]; [ring|]. rewrite IH. ring.
Qed.

(** The second loop keeps its three running totals equal to the sums over
    the entries pushed so far. *)
Lemma addBuckets_sums tc ks :
  forall acc,
    (totalMin acc == sumOver costMin (entries acc))%Q ->
    (totalMax acc == sumOver costMax (entries acc))%Q ->
    (totalSeconds acc == sumOver totalDuration (entries acc))%Q ->
    let acc' := fold_left (addBucket tc) ks acc in
    (totalMin acc' == sumOver costMin (entries acc'))%Q /\
    (totalMax acc' == sumOver costMax (entries acc'))%Q /\
    (totalSeconds acc' == sumOver totalDuration (entries acc'))%Q.
Proof.
  induction ks as [|k ks IH]; intros acc Hmin Hmax Hsec; [cbn; auto|].
  cbn [fold_left]. apply IH; unfold addBucket;
    destruct (tc_count (getCount tc k) =? 0)%nat; auto;
    cbn [totalMin totalMax totalSeconds entries];
    rewrite sumOver_app; cbn [sumOver costMin costMax totalDuration];
    [rewrite Hmin|rewrite Hmax|rewrite Hsec]; ring.
Qed.

(** X7 -- the totals of the estimate are the sums of the columns of its
    breakdown: lower costs, upper costs and seconds. *)
Theorem estimateBatchCost_totals_are_sums :
  forall config,
    let est := estimateBatchCost config in
    (estimatedCostMin est == sumOver costMin (breakdown est))%Q /\
    (estimatedCostMax est == sumOver costMax (breakdown est))%Q /\
    (totalVideoDuration est == sumOver totalDuration (breakdown est))%Q.
Proof.
  intros config. unfold estimateBatchCost.
  cbn [estimatedCostMin estimatedCostMax totalVideoDuration breakdown].
  apply addBuckets_sums; cbn; reflexivity.
Qed.

(** X8 -- the breakdown lists the job kinds that occur in the configuration, in
    the order generation, image-to-video, edit, each once; an entry counts
    the jobs of its kind, its upper cost is its lower cost with the margin,
    and the counts add up to the number of jobs. *)
Theorem estimateBatchCost_breakdown :
  forall config,
    let est := estimateBatchCost config in
    type <$> breakdown est
    = List.filter (fun k => negb (jobsOfType k (jobs config) =? 0)%nat)
        [generation; image_to_video; edit] /\
    (forall b,
        b ∈ breakdown est ->
        count b = jobsOfType (type b) (jobs config) /\
        (1 <= count b)%nat /\
        costMax b = (costMin b * margin)%Q) /\
    list_sum (count <$> breakdown est) = totalJobs est.
Proof.
  intros config est. subst est. rewrite breakdown_buckets.
  set (d := JS.nullish (default_duration config) DEFAULT_DURATION).
  set (tc := fold_left (countJob d) (jobs config) typeCounts0).
  assert (Hcount : forall k, tc_count (getCount tc k) = jobsOfType k (jobs config)).
  { intros k. unfold tc. rewrite countJobs_count. now destruct k. }
  assert (Hentries : forall k b,
             b ∈ bucketEntries tc k ->
             type b = k /\ count b = jobsOfType k (jobs config) /\
             (1 <= count b)%nat /\ costMax b = (costMin b * margin)%Q).
  { intros k b. unfold bucketEntries.
    destruct (Nat.eqb_spec (tc_count (getCount tc k)) 0) as [|Hpos];
      intros Hin; [inversion Hin|].
    apply list_elem_of_singleton in Hin. subst b. cbn.
    rewrite <- Hcount. repeat split. lia. }
  split; [|split].
  - rewrite !fmap_app. cbn [List.filter]. rewrite <- !Hcount.
    unfold bucketEntries.
    destruct (tc_count (getCount tc generation) =? 0)%nat,
             (tc_count (getCount tc image_to_video) =? 0)%nat,
             (tc_count (getCount tc edit) =? 0)%nat; reflexivity.
  - intros b Hin.
    rewrite !elem_of_app in Hin.
    destruct Hin as [Hin|[Hin|Hin]];
      apply Hentries in Hin as (<- & Hc & Hpos & Hmax); auto.
  - cbn [totalJobs estimateBatchCost]. rewrite <- jobsOfType_total, <- !Hcount.
    unfold bucketEntries.
    destruct (Nat.eqb_spec (tc_count (getCount tc generation)) 0) as [->|],
             (Nat.eqb_spec (tc_count (getCount tc image_to_video)) 0) as [->|],
             (Nat.eqb_spec (tc_count (getCount tc edit)) 0) as [->|];
      cbn; lia.
Qed.

Lemma bucketCost_closed tc k :
  (bucketCost k (getCount tc k)
   == perSecond k * tc_totalDuration (getCount tc k)
      + (if bool_decide (k = image_to_video) then imageBonus else 0)
        * inject_Z (Z.of_nat (tc_count (getCount tc k))))%Q.
Proof.
  destruct k; unfold bucketCost; case_bool_decide; try discriminate;
    try congruence; ring.
Qed.

Lemma estimate_closed :
  forall config,
    let d := JS.nullish (default_duration config) DEFAULT_DURATION in
    let est := estimateBatchCost config in
    let seconds k := secondsOfType k d (jobs config) in
    let number k := inject_Z (Z.of_nat (jobsOfType k (jobs config))) in
    (estimatedCostMin est
     == (5 # 100) * (seconds generation + seconds image_to_video)
        + (1 # 100) * number image_to_video
        + (35 # 100) * number edit)%Q /\
    (totalVideoDuration est
     == seconds generation + seconds image_to_video + 5 * number edit)%Q.
Proof.
  intros config d est seconds number. subst est. unfold estimateBatchCost.
  cbn [estimatedCostMin totalVideoDuration]. fold d.
  set (tc := fold_left (countJob d) (jobs config) typeCounts0).
  assert (Hcount : forall k, tc_count (getCount tc k) = jobsOfType k (jobs config)).
  { intros k. unfold tc. rewrite countJobs_count. now destruct k. }
  assert (Hsec : forall k, (tc_totalDuration (getCount tc k) == seconds k)%Q).
  { intros k. unfold tc, seconds. rewrite countJobs_seconds.
    destruct k;
      cbn [getCount typeCounts0 of_generation of_image_to_video of_edit
           tc_totalDuration]; ring. }
  assert (Hbucket : forall acc k,
             (totalMin (addBucket tc acc k)
              == totalMin acc + perSecond k * seconds k
                 + (if bool_decide (k = image_to_video) then imageBonus else 0)
                   * number k)%Q /\
             (totalSeconds (addBucket tc acc k)
              == totalSeconds acc + seconds k)%Q).
  { intros acc k. unfold addBucket.
    destruct (Nat.eqb_spec (tc_count (getCount tc k)) 0) as [Hzero|Hpos].
    - rewrite Hcount in Hzero. unfold seconds, number.
      rewrite (secondsOfType_none k d _ Hzero), Hzero.
      split; cbn [Z.of_nat]; change (inject_Z 0) with 0%Q; ring.
    - cbn [totalMin totalSeconds]. rewrite bucketCost_closed.
      rewrite Hsec. unfold number. rewrite <- Hcount. split; ring. }
  cbn [fold_left].
  destruct (Hbucket totals0 generation) as [Hg Hg'].
  destruct (Hbucket (addBucket tc totals0 generation) image_to_video)
    as [Hi Hi'].
  destruct (Hbucket (addBucket tc (addBucket tc totals0 generation)
                       image_to_video) edit) as [He He'].
  rewrite He, Hi, Hg, He', Hi', Hg'.
  assert (Hedit : (seconds edit == 5 * number edit)%Q)
    by apply secondsOfType_edit.
  rewrite Hedit. cbn [totals0 totalMin totalSeconds perSecond].
  clear Hbucket Hg Hg' Hi Hi' He He'.
  rewrite (bool_decide_eq_false_2 (generation = image_to_video)) by discriminate.
  rewrite (bool_decide_eq_false_2 (edit = image_to_video)) by discriminate.
  rewrite (bool_decide_eq_true_2 (image_to_video = image_to_video))
    by reflexivity.
  unfold imageBonus. split; ring.
Qed.

(** ** Validation *)

Lemma seq_ok (c d : Throws unit) :
  (c ;;; d) = inr tt <-> c = inr tt /\ d = inr tt.
Proof.
  unfold bind. destruct c as [e|[]]; split; try tauto; try discriminate;
    try (intros [H _]; discriminate H).
Qed.

Lemma throwIf_ok cond msg : throwIf cond msg = inr tt <-> cond = false.
Proof. unfold throwIf, throw, ok. destruct cond; split; congruence. Qed.

Lemma whenDefined_ok {A} (o : option A) body :
  whenDefined o body = inr tt <-> forall v, o = Some v -> body v = inr tt.
Proof.
  destruct o as [v|]; cbn; split; auto.
  - intros Hb v' [= <-]. exact Hb.
  - discriminate.
Qed.

Lemma Zout_false lo hi v : Zout lo hi v = false <-> (lo <= v <= hi)%Z.
Proof. unfold Zout. rewrite orb_false_iff, !Z.ltb_ge. tauto. Qed.

Lemma Qout_false_iff lo hi v : Qout lo hi v = false <-> (lo <= v <= hi)%Q.
Proof.
  unfold Qout, Qlt_bool.
  rewrite orb_false_iff, !negb_false_iff, !Qle_bool_iff. tauto.
Qed.

Lemma arrayIncludes_In xs x : JS.arrayIncludes xs x = true <-> In x xs.
Proof.
  unfold JS.arrayIncludes. rewrite existsb_exists. split.
  - intros (y & Hin & Heq). apply String.eqb_eq in Heq. now subst.
  - intros Hin. exists x. split; [exact Hin|apply String.eqb_refl].
Qed.

Lemma inRange_ok lo hi o msg :
  whenDefined o (fun v => throwIf (Zout lo hi v) msg) = inr tt
  <-> inRange lo hi o.
Proof.
  rewrite whenDefined_ok. unfold inRange.
  split; intros H v Hv; specialize (H v Hv).
  - now apply throwIf_ok, Zout_false in H.
  - now apply throwIf_ok, Zout_false.
Qed.

Lemma inRangeQ_ok lo hi o msg :
  whenDefined o (fun v => throwIf (Qout lo hi v) msg) = inr tt
  <-> inRangeQ lo hi o.
Proof.
  rewrite whenDefined_ok. unfold inRangeQ.
  split; intros H v Hv; specialize (H v Hv).
  - now apply throwIf_ok, Qout_false_iff in H.
  - now apply throwIf_ok, Qout_false_iff.
Qed.

Lemma oneOf_ok xs o (msg : string -> string) :
  whenDefined o (fun v => throwIf (negb (JS.arrayIncludes xs v)) (msg v)) = inr tt
  <-> oneOf xs o.
Proof.
  rewrite whenDefined_ok. unfold oneOf.
  split; intros H v Hv; specialize (H v Hv).
  - apply throwIf_ok, negb_false_iff in H. now apply arrayIncludes_In.
  - apply throwIf_ok, negb_false_iff. now apply arrayIncludes_In.
Qed.

Lemma validateJobConfig_ok job i :
  validateJobConfig job i = inr tt <-> acceptableJob job.
Proof.
  unfold validateJobConfig, acceptableJob. cbn zeta.
  rewrite !seq_ok, throwIf_ok.
  rewrite (oneOf_ok MODELS (model job)), (oneOf_ok RESOLUTIONS (resolution job)).
  rewrite !whenDefined_ok.
  assert (Hprompt : match JS.trim (prompt job) with
                    | "" => true | String _ _ => false end = false
                    <-> JS.trim (prompt job) <> "").
  { destruct (JS.trim (prompt job)); split; congruence. }
  rewrite Hprompt. clear Hprompt.
  unfold inRangeQ, oneOf.
  split.
  - intros (Hp & Hm & Hd & Ha & Hr & Hedit).
    split; [exact Hp|]. split; [exact Hm|].
    split.
    { intros d Hdur. specialize (Hd d Hdur). apply seq_ok in Hd as [_ Hd].
      now apply throwIf_ok, Qout_false_iff in Hd. }
    split.
    { intros a Har. specialize (Ha a Har). apply seq_ok in Ha as [_ Ha].
      apply throwIf_ok, negb_false_iff in Ha. now apply arrayIncludes_In. }
    split; [exact Hr|].
    intros Hv. rewrite Hv in *. apply throwIf_ok in Hedit.
    split; [|split; [|exact Hedit]].
    + destruct (duration job) as [d|]; [|reflexivity].
      specialize (Hd d eq_refl). apply seq_ok in Hd as [Hd _]. discriminate Hd.
    + destruct (aspect_ratio job) as [a|]; [|reflexivity].
      specialize (Ha a eq_refl). apply seq_ok in Ha as [Ha _]. discriminate Ha.
  - intros (Hp & Hm & Hd & Ha & Hr & Hedit).
    split; [exact Hp|]. split; [exact Hm|].
    split.
    { intros d Hdur. apply seq_ok. split.
      - apply throwIf_ok. destruct (JS.truthy (video_url job)); [|reflexivity].
        destruct (Hedit eq_refl) as (Hnone & _). congruence.
      - apply throwIf_ok, Qout_false_iff. now apply Hd. }
    split.
    { intros a Har. apply seq_ok. split.
      - apply throwIf_ok. destruct (JS.truthy (video_url job)); [|reflexivity].
        destruct (Hedit eq_refl) as (_ & Hnone & _). congruence.
      - apply throwIf_ok, negb_false_iff, arrayIncludes_In. now apply Ha. }
    split; [exact Hr|].
    destruct (JS.truthy (video_url job)); [|reflexivity].
    apply throwIf_ok. now destruct (Hedit eq_refl) as (_ & _ & Himg).
Qed.

Lemma validateJobs_ok js :
  forall i, validateJobs js i = inr tt <-> Forall acceptableJob js.
Proof.
  induction js as [|job js IH]; intros i; cbn [validateJobs].
  - split; [constructor|reflexivity].
  - rewrite seq_ok, validateJobConfig_ok, IH, Forall_cons. tauto.
Qed.

Lemma validateRetryPolicy_ok policy :
  validateRetryPolicy policy = inr tt <-> acceptablePolicy policy.
Proof.
  unfold validateRetryPolicy, acceptablePolicy.
  now rewrite seq_ok, inRangeQ_ok, inRange_ok.
Qed.

Lemma validateBatchConfig_ok config :
  validateBatchConfig config = inr tt <-> acceptableConfig config.
Proof.
  unfold validateBatchConfig, acceptableConfig.
  rewrite !seq_ok, !throwIf_ok, validateJobs_ok, !inRange_ok, !inRangeQ_ok.
  rewrite (oneOf_ok MODELS (default_model config)),
    (oneOf_ok RESOLUTIONS (default_resolution config)),
    (oneOf_ok ASPECT_RATIOS (default_aspect_ratio config)).
  rewrite whenDefined_ok.
  rewrite Nat.eqb_neq, Nat.ltb_ge.
  assert (Hpolicy :
            (forall v, retry_policy config = Some v ->
                       validateRetryPolicy v = inr tt)
            <-> (forall policy, retry_policy config = Some policy ->
                                acceptablePolicy policy)).
  { split; intros H p Hp; apply validateRetryPolicy_ok; auto. }
  rewrite Hpolicy. intuition lia.
Qed.

(** A prompt of white space beyond ASCII is blank as well. *)
Lemma validateJobConfig_blank_prompt :
  JS.trim (Sample.ideographicSpace ++ " a b " ++ Sample.noBreakSpace) = "a b" /\
  JS.trim (Sample.noBreakSpace ++ Sample.ideographicSpace) = "" /\
  validateJobConfig (Sample.textJob Sample.ideographicSpace) 0
  = inl (MkBatchConfigError
           "Job 1: prompt is required and must be a non-empty string").
Proof. repeat split; vm_compute; reflexivity. Qed.

(** X10 -- [validateJobConfig] accepts a job exactly when its prompt is not
    blank, its model, aspect ratio and resolution are known ones, its
    duration lies between 1 and 15 seconds, and, for an edit job, neither
    a duration nor an aspect ratio nor an image URL is given; the position
    of the job in the batch plays no part. *)
Theorem validateJobConfig_accepts_iff :
  forall job i,
    (validateJobConfig job i = inr tt <-> acceptableJob job) /\
    (forall j, validateJobConfig job i = inr tt <->
               validateJobConfig job j = inr tt).
Proof.
  intros job i. split; [apply validateJobConfig_ok|].
  intros j. now rewrite !validateJobConfig_ok.
Qed.

(** X11 -- [validateBatchConfig] accepts a configuration exactly when it has
    between 1 and 100 jobs, each acceptable, and every setting that is
    given lies within its bounds. *)
Theorem validateBatchConfig_accepts_iff :
  forall config,
    validateBatchConfig config = inr tt <-> acceptableConfig config.
Proof. exact validateBatchConfig_ok. Qed.

Lemma validateJobConfig_error job i msg :
  validateJobConfig job i = inl (MkBatchConfigError msg) ->
  exists rest, msg = "Job " ++ JS.showNat (i + 1) ++ ": " ++ rest.
Proof.
  unfold validateJobConfig. cbn zeta.
  unfold bind, whenDefined, throwIf, throw, ok.
  intros Herr.
  repeat match type of Herr with
         | context [match ?x with _ => _ end] =>
             lazymatch x with
             | context [match _ with _ => _ end] => fail
             | _ => destruct x; cbv beta iota in Herr
             end
         end;
    try discriminate Herr;
    injection Herr as Hmsg; subst msg; rewrite append_assoc'; eexists;
    reflexivity.
Qed.

Lemma validateJobs_error js :
  forall i0 e,
    validateJobs js i0 = inl e ->
    exists n job,
      js !! n = Some job /\
      validateJobConfig job (i0 + n) = inl e /\
      forall m job', (m < n)%nat -> js !! m = Some job' -> acceptableJob job'.
Proof.
  induction js as [|job js IH]; intros i0 e Herr; [discriminate|].
  cbn [validateJobs] in Herr. unfold bind in Herr.
  destruct (validateJobConfig job i0) as [e'|[]] eqn:Hjob.
  - injection Herr as <-. exists 0%nat, job. rewrite Nat.add_0_r.
    split; [reflexivity|]. split; [exact Hjob|]. intros; lia.
  - destruct (IH (S i0) e Herr) as (n & job' & Hn & Hbad & Hgood).
    exists (S n), job'. split; [exact Hn|].
    split; [now rewrite Nat.add_succ_r|].
    intros [|m] job'' Hlt Hm.
    + injection Hm as <-. now apply (validateJobConfig_ok job i0).
    + apply (Hgood m); [lia|exact Hm].
Qed.

Lemma validateJobs_first_invalid js :
  forall i0 n job e,
    js !! n = Some job ->
    validateJobConfig job (i0 + n) = inl e ->
    (forall m job', (m < n)%nat -> js !! m = Some job' -> acceptableJob job') ->
    validateJobs js i0 = inl e.
Proof.
  induction js as [|job0 js IH]; intros i0 n job e Hn Hbad Hgood;
    [discriminate|].
  cbn [validateJobs]. unfold bind. destruct n as [|n].
  - injection Hn as <-. rewrite Nat.add_0_r in Hbad. now rewrite Hbad.
  - assert (validateJobConfig job0 i0 = inr tt) as ->.
    { apply validateJobConfig_ok. apply (Hgood 0%nat); [lia|reflexivity]. }
    apply (IH (S i0) n job e Hn).
    + now rewrite Nat.add_succ_r in Hbad.
    + intros m job' Hlt Hm. apply (Hgood (S m)); [lia|exact Hm].
Qed.

(** X12 -- validation stops at the first invalid job: when the batch has at most
    100 jobs, the error of [validateBatchConfig] is the one of the first
    job that [validateJobConfig] rejects, whatever the other jobs and the
    settings of the batch are, and its message starts with the number of
    that job, counted from 1. *)
Theorem validateBatchConfig_reports_first_invalid_job :
  forall config n job e,
    (length (jobs config) <= 100)%nat ->
    jobs config !! n = Some job ->
    validateJobConfig job n = inl e ->
    (forall m job', (m < n)%nat -> jobs config !! m = Some job' ->
                    acceptableJob job') ->
    validateBatchConfig config = inl e /\
    exists rest,
      e = MkBatchConfigError ("Job " ++ JS.showNat (n + 1) ++ ": " ++ rest).
Proof.
  intros config n job e Hmax Hn Hbad Hgood. split.
  - unfold validateBatchConfig.
    assert ((length (jobs config) =? 0)%nat = false) as ->.
    { apply Nat.eqb_neq. apply lookup_lt_Some in Hn. lia. }
    assert ((100 <? length (jobs config))%nat = false) as ->.
    { apply Nat.ltb_ge. exact Hmax. }
    cbn [throwIf bind ok].
    now rewrite (validateJobs_first_invalid (jobs config) 0 n job e Hn Hbad Hgood).
  - destruct e as [msg]. destruct (validateJobConfig_error job n msg Hbad)
      as [rest ->]. eauto.
Qed.

Lemma validateBatchConfig_reports_first_invalid_job_witness :
  validateBatchConfig
    (Sample.configOf [Sample.textJob "first";
                      Sample.textJob Sample.ideographicSpace;
                      Sample.timedJob "third" 60]
       (Some 50%Q) None)
  = inl (MkBatchConfigError
           "Job 2: prompt is required and must be a non-empty string").
Proof.
  apply (validateBatchConfig_reports_first_invalid_job
           (Sample.configOf [Sample.textJob "first";
                             Sample.textJob Sample.ideographicSpace;
                             Sample.timedJob "third" 60]
              (Some 50%Q) None)
           1%nat (Sample.textJob Sample.ideographicSpace)).
  - cbn. lia.
  - reflexivity.
  - reflexivity.
  - intros [|m] job' Hlt Hm; [|lia]. injection Hm as <-.
    apply (validateJobConfig_ok _ 0%nat). reflexivity.
Defined.

Lemma retryLoop_sleeps exec req maxRetries retryDelay retryPatterns remaining :
  forall attempt lastError ms,
    In (Sleep ms)
       (snd (retryLoop exec req maxRetries retryDelay retryPatterns
               remaining attempt lastError)) ->
    ms = retryDelay.
Proof.
  induction remaining as [|n IH]; intros attempt lastError ms Hin.
  - destruct Hin.
  - cbn [retryLoop] in Hin. destruct (exec req attempt) as [result|msg].
    + destruct Hin as [Heq|[]]. discriminate Heq.
    + destruct (retryLoop exec req maxRetries retryDelay retryPatterns n
                  (S attempt) msg) as [out effects] eqn:Hloop.
      cbn [snd] in Hin. destruct Hin as [Heq|Hin]; [discriminate Heq|].
      apply in_app_or in Hin as [Hin|Hin].
      * destruct (shouldRetry _ _ _ _); [|destruct Hin].
        destruct Hin as [Heq|[]]. congruence.
      * apply (IH (S attempt) msg). now rewrite Hloop.
Qed.

Lemma retryLoop_starts exec req maxRetries retryDelay retryPatterns remaining :
  forall attempt lastError,
    (1 <= remaining)%nat ->
    (1 <= invocations
            (snd (retryLoop exec req maxRetries retryDelay retryPatterns
                    remaining attempt lastError)))%nat.
Proof.
  intros attempt lastError Hpos. destruct remaining as [|n]; [lia|].
  cbn [retryLoop]. destruct (exec req attempt) as [result|msg].
  - cbn. lia.
  - destruct (retryLoop exec req maxRetries retryDelay retryPatterns n
                (S attempt) msg) as [out effects].
    cbn [snd]. rewrite invocations_step. lia.
Qed.

(** A delay follows an attempt only while the number of the attempt is
    below [maxRetries]. *)
Lemma retryLoop_delays_bound exec req maxRetries retryDelay retryPatterns bound
    remaining :
  (maxRetries <= JS.ofNat bound)%Q ->
  forall attempt lastError,
    (delays (snd (retryLoop exec req maxRetries retryDelay retryPatterns
                    remaining attempt lastError)) <= bound - attempt)%nat.
Proof.
  intros Hbound. induction remaining as [|n IH]; intros attempt lastError.
  - cbn. lia.
  - cbn [retryLoop]. destruct (exec req attempt) as [result|msg].
    + cbn. lia.
    + destruct (retryLoop exec req maxRetries retryDelay retryPatterns n
                  (S attempt) msg) as [out effects] eqn:Hloop.
      specialize (IH (S attempt) msg). rewrite Hloop in IH.
      cbn [snd] in *. rewrite delays_step.
      destruct (shouldRetry maxRetries retryPatterns attempt msg) eqn:Hretry;
        [|lia].
      unfold shouldRetry in Hretry. apply andb_true_iff in Hretry as [Hlt _].
      apply Qlt_bool_iff in Hlt.
      assert (attempt < bound)%nat; [|lia].
      apply ofNat_lt. lra.
Qed.

(** X13 -- what validation buys at run time: for a configuration that
    [validateBatchConfig] accepts, the concurrency limit, the polling
    settings and the retry settings [executeBatch] and [executeJob] work
    with all lie within the validated bounds (the defaults do too), and
    every job calls its executor at least once and at most six times, with
    at most five delays, each of the configured length. *)
Theorem validated_settings_at_run_time :
  forall config,
    validateBatchConfig config = inr tt ->
    (1 <= maxConcurrentOf config <= 10)%Q /\
    (1000 <= pollIntervalOf config <= 60000)%Z /\
    (1 <= maxPollAttemptsOf config <= 1000)%Q /\
    (0 <= maxRetriesOf config <= 5)%Q /\
    (100 <= retryDelayOf config <= 60000)%Z /\
    forall job i outputPath exec,
      let trace :=
        snd (executeJob job i outputPath config (pollIntervalOf config)
               (maxPollAttemptsOf config) exec) in
      (1 <= invocations trace <= 6)%nat /\
      (delays trace <= 5)%nat /\
      forall ms, In (Sleep ms) trace -> ms = retryDelayOf config.
Proof.
  intros config Hok. apply validateBatchConfig_ok in Hok.
  destruct Hok as (_ & _ & Hk & _ & Hpoll & Hatt & Hpolicy & _).
  assert (Hc : (1 <= maxConcurrentOf config <= 10)%Q).
  { apply or_q_between; [exact Hk|lra]. }
  assert (Hp : (1000 <= pollIntervalOf config <= 60000)%Z).
  { unfold pollIntervalOf, JS.or_int, DEFAULT_POLL_INTERVAL.
    destruct (poll_interval config) as [k|]; [|lia].
    specialize (Hpoll k eq_refl). destruct (Z.eqb_spec k 0); lia. }
  assert (Ha : (1 <= maxPollAttemptsOf config <= 1000)%Q).
  { apply or_q_between; [exact Hatt|unfold DEFAULT_MAX_POLL_ATTEMPTS; lra]. }
  assert (Hr : (0 <= maxRetriesOf config <= 5)%Q).
  { unfold maxRetriesOf.
    destruct (retry_policy config) as [policy|]; cbn [JS.nullish].
    - destruct (Hpolicy policy eq_refl) as [Hm _].
      destruct (max_retries policy) as [m|]; cbn [JS.nullish];
        [exact (Hm _ eq_refl)|lra].
    - cbn. lra. }
  assert (Hd : (100 <= retryDelayOf config <= 60000)%Z).
  { unfold retryDelayOf.
    destruct (retry_policy config) as [policy|]; cbn [JS.nullish].
    - destruct (Hpolicy policy eq_refl) as [_ Hd].
      destruct (retry_delay_ms policy) as [d|]; cbn [JS.nullish];
        [exact (Hd _ eq_refl)|lia].
    - cbn. lia. }
  pose proof (Qfloor_between 0 5 (maxRetriesOf config) Hr) as Hfloor.
  repeat (split; [assumption|]).
  intros job i outputPath exec trace.
  destruct (executeJob_loop job i outputPath config (pollIntervalOf config)
              (maxPollAttemptsOf config) exec) as (Htrace & _ & _).
  fold trace in Htrace.
  fold (retryDelayOf config) in Htrace.
  set (req := request job outputPath config (pollIntervalOf config)
                (maxPollAttemptsOf config)) in *.
  pose proof (retryLoop_trace_counts exec req (maxRetriesOf config)
                (retryDelayOf config) (retryPatternsOf config)
                (Z.to_nat (Qfloor (maxRetriesOf config) + 1)) 0 "") as Hb.
  cbn zeta in Hb. rewrite <- Htrace in Hb.
  destruct Hb as (Hinv & _).
  pose proof (retryLoop_delays_bound exec req (maxRetriesOf config)
                (retryDelayOf config) (retryPatternsOf config) 5
                (Z.to_nat (Qfloor (maxRetriesOf config) + 1))
                (proj2 Hr) 0 "") as Hdel.
  rewrite <- Htrace in Hdel.
  pose proof (retryLoop_starts exec req (maxRetriesOf config)
                (retryDelayOf config) (retryPatternsOf config)
                (Z.to_nat (Qfloor (maxRetriesOf config) + 1)) 0 ""
                ltac:(lia)) as Hone.
  rewrite <- Htrace in Hone.
  split; [lia|]. split; [lia|].
  intros ms Hin. rewrite Htrace in Hin.
  now apply retryLoop_sleeps in Hin.
Qed.

Lemma validated_settings_at_run_time_witness :
  (1 <= maxConcurrentOf Sample.serialConfig <= 10)%Q /\
  (0 <= maxRetriesOf Sample.serialConfig <= 5)%Q.
Proof.
  destruct (validated_settings_at_run_time Sample.serialConfig eq_refl)
    as (Hc & _ & _ & Hr & _).
  split; [exact Hc|exact Hr].
Defined.

Lemma secondsOfType_bounds k d js :
  k <> edit ->
  (forall job, In job js ->
               (1 <= JS.nullish (duration job) d <= 15)%Q) ->
  (inject_Z (Z.of_nat (jobsOfType k js)) <= secondsOfType k d js
   <= 15 * inject_Z (Z.of_nat (jobsOfType k js)))%Q.
Proof.
  intros Hk. unfold jobsOfType. induction js as [|job js IH]; intros Hd.
  - cbn [List.filter length secondsOfType Z.of_nat].
    change (inject_Z (Z.of_nat 0)) with 0%Q. lra.
  - cbn [List.filter secondsOfType].
    destruct IH as [IHlo IHhi]; [intros; apply Hd; now right|].
    destruct (bool_decide (estimateType job = k)) eqn:Hty.
    + apply bool_decide_eq_true_1 in Hty.
      assert (snd (typeAndDuration d job) = JS.nullish (duration job) d) as ->.
      { unfold estimateType, typeAndDuration in *.
        destruct (JS.truthy (video_url job)); [cbn in Hty; congruence|].
        destruct (JS.truthy (image_url job) || JS.truthy (image_path job));
          reflexivity. }
      specialize (Hd job (or_introl eq_refl)).
      cbn [length]. rewrite Nat2Z.inj_succ. unfold Z.succ.
      rewrite inject_Z_plus. change (inject_Z 1) with 1%Q. lra.
    + lra.
Qed.

(** X14 -- for a configuration that [validateBatchConfig] accepts, the estimate
    lies between 5 and 76 cents per job, so it never exceeds 76 dollars
    (91.20 with the margin), and the estimated footage between 1 and 15
    seconds per job. *)
Theorem validated_estimate_bounds :
  forall config,
    validateBatchConfig config = inr tt ->
    let est := estimateBatchCost config in
    let n := inject_Z (Z.of_nat (length (jobs config))) in
    ((5 # 100) * n <= estimatedCostMin est <= (76 # 100) * n)%Q /\
    (estimatedCostMin est <= 76)%Q /\
    (estimatedCostMax est <= 912 # 10)%Q /\
    (n <= totalVideoDuration est <= 15 * n)%Q.
Proof.
  intros config Hok est n. apply validateBatchConfig_ok in Hok.
  destruct Hok as ([_ Hmax] & Hjobs & _ & _ & _ & _ & _ & _ & _ & _ & Hdef).
  set (d := JS.nullish (default_duration config) DEFAULT_DURATION).
  assert (Hd : (1 <= d <= 15)%Q).
  { unfold d. destruct (default_duration config) as [v|]; cbn.
    - apply (Hdef v eq_refl).
    - unfold DEFAULT_DURATION. lra. }
  assert (Hjob : forall job, In job (jobs config) ->
                             (1 <= JS.nullish (duration job) d <= 15)%Q).
  { intros job Hin. rewrite Forall_forall in Hjobs.
    apply list_elem_of_In in Hin.
    destruct (Hjobs job Hin) as (_ & _ & Hdur & _).
    destruct (duration job) as [v|]; cbn; [apply (Hdur v eq_refl)|exact Hd]. }
  destruct (estimate_closed config) as [Hmin Hsec]. fold d est in Hmin, Hsec.
  pose proof (secondsOfType_bounds generation d (jobs config)
                ltac:(discriminate) Hjob) as [Hg1 Hg2].
  pose proof (secondsOfType_bounds image_to_video d (jobs config)
                ltac:(discriminate) Hjob) as [Hi1 Hi2].
  pose proof (jobsOfType_total (jobs config)) as Htotal.
  assert (Hn : (n == inject_Z (Z.of_nat (jobsOfType generation (jobs config)))
                    + inject_Z (Z.of_nat (jobsOfType image_to_video (jobs config)))
                    + inject_Z (Z.of_nat (jobsOfType edit (jobs config))))%Q).
  { unfold n. rewrite <- Htotal, !Nat2Z.inj_add, !inject_Z_plus. reflexivity. }
  assert (Hpos : forall k, (0 <= inject_Z (Z.of_nat (jobsOfType k (jobs config))))%Q).
  { intros k. change 0%Q with (inject_Z 0). rewrite <- Zle_Qle. lia. }
  pose proof (Hpos generation). pose proof (Hpos image_to_video).
  pose proof (Hpos edit).
  assert (Hn100 : (n <= 100)%Q).
  { unfold n. change 100%Q with (inject_Z 100). rewrite <- Zle_Qle. lia. }
  pose proof (estimate_margin config) as Hmargin. fold est in Hmargin.
  unfold margin in Hmargin.
  set (sg := secondsOfType generation d (jobs config)) in *.
  set (si := secondsOfType image_to_video d (jobs config)) in *.
  set (ng := inject_Z (Z.of_nat (jobsOfType generation (jobs config)))) in *.
  set (ni := inject_Z (Z.of_nat (jobsOfType image_to_video (jobs config)))) in *.
  set (ne := inject_Z (Z.of_nat (jobsOfType edit (jobs config)))) in *.
  repeat split; lra.
Qed.

Lemma validated_estimate_bounds_witness :
  (estimatedCostMin (estimateBatchCost Sample.serialConfig) <= 76)%Q.
Proof.
  exact (proj1 (proj2 (validated_estimate_bounds Sample.serialConfig eq_refl))).
Defined.

(** ** Merging the configuration and running the command *)

Lemma mergedRetryPolicy_acceptable : acceptablePolicy mergedRetryPolicy.
Proof. split; intros v [= <-]; [lra|lia]. Qed.

Lemma inRangeQ_override lo hi opt field d :
  inRangeQ lo hi opt -> inRangeQ lo hi field -> (lo <= d <= hi)%Q ->
  inRangeQ lo hi (Some (JS.nullish (override opt field) d)).
Proof.
  intros Hopt Hfield Hd v [= <-].
  destruct opt as [o|]; cbn; [now apply Hopt|].
  destruct field as [f|]; cbn; [now apply Hfield|exact Hd].
Qed.

Lemma inRange_override lo hi opt field d :
  inRange lo hi opt -> inRange lo hi field -> (lo <= d <= hi)%Z ->
  inRange lo hi (Some (JS.nullish (override opt field) d)).
Proof.
  intros Hopt Hfield Hd v [= <-].
  destruct opt as [o|]; cbn; [now apply Hopt|].
  destruct field as [f|]; cbn; [now apply Hfield|exact Hd].
Qed.

Lemma oneOf_default xs field d :
  oneOf xs field -> In d xs -> oneOf xs (Some (JS.nullish field d)).
Proof.
  intros Hfield Hd v [= <-]. destruct field as [f|]; cbn; auto.
Qed.

(** X15 -- merging keeps a valid configuration valid when the options are within
    the bounds of the corresponding settings: the defaults that
    [mergeBatchConfig] fills in pass [validateBatchConfig]. *)
Theorem mergeBatchConfig_preserves_validity :
  forall env config options,
    validateBatchConfig config = inr tt ->
    inRangeQ 1 10 (maxConcurrent options) ->
    inRange 1000 3600000 (opt_timeout options) ->
    inRange 1000 60000 (pollInterval options) ->
    inRangeQ 1 1000 (maxPollAttempts options) ->
    validateBatchConfig (mergeBatchConfig env config options) = inr tt.
Proof.
  intros env config options Hok Hc Ht Hp Ha.
  apply validateBatchConfig_ok in Hok. apply validateBatchConfig_ok.
  destruct Hok as (Hn & Hjobs & Hk & Htime & Hpoll & Hatt & Hpolicy & Hm & Hr
                   & Har & Hd).
  unfold acceptableConfig, mergeBatchConfig.
  cbn [jobs max_concurrent timeout poll_interval max_poll_attempts retry_policy
       default_model default_resolution default_aspect_ratio default_duration].
  split; [exact Hn|]. split; [exact Hjobs|].
  split; [apply inRangeQ_override; auto; lra|].
  split; [apply inRange_override; auto; lia|].
  split; [apply inRange_override; auto; unfold DEFAULT_POLL_INTERVAL; lia|].
  split; [apply inRangeQ_override; auto; unfold DEFAULT_MAX_POLL_ATTEMPTS; lra|].
  split.
  { intros policy [= <-]. destruct (retry_policy config) as [p|]; cbn.
    - now apply Hpolicy.
    - apply mergedRetryPolicy_acceptable. }
  split; [apply oneOf_default; [exact Hm|now left]|].
  split; [apply oneOf_default; [exact Hr|now left]|].
  split; [apply oneOf_default; [exact Har|now left]|].
  intros v [= <-]. destruct (default_duration config) as [d|]; cbn.
  - now apply Hd.
  - unfold DEFAULT_DURATION, MIN_DURATION, MAX_DURATION. lra.
Qed.

Lemma mergeBatchConfig_preserves_validity_witness :
  validateBatchConfig
    (mergeBatchConfig Sample.env Sample.serialConfig Sample.noOptions) = inr tt.
Proof.
  apply (mergeBatchConfig_preserves_validity Sample.env Sample.serialConfig
           Sample.noOptions eq_refl); intros v Hv; discriminate Hv.
Defined.

Lemma estimate_merged env config options :
  estimateBatchCost (mergeBatchConfig env config options)
  = estimateBatchCost config.
Proof. reflexivity. Qed.

(** X16 -- merging is idempotent, and it changes neither the estimate nor the
    retry behaviour of the jobs: the retry limit, the delay and the
    patterns [executeJob] works with are those of the original
    configuration. *)
Theorem mergeBatchConfig_idempotent :
  forall env config options,
    let merged := mergeBatchConfig env config options in
    mergeBatchConfig env merged options = merged /\
    jobs merged = jobs config /\
    estimateBatchCost merged = estimateBatchCost config /\
    maxRetriesOf merged = maxRetriesOf config /\
    retryDelayOf merged = retryDelayOf config /\
    retryPatternsOf merged = retryPatternsOf config.
Proof.
  intros env config options merged. subst merged. split.
  - unfold mergeBatchConfig.
    cbn [jobs output_dir max_concurrent timeout poll_interval max_poll_attempts
         retry_policy default_model default_resolution default_aspect_ratio
         default_duration JS.nullish].
    f_equal.
    + destruct (JS.truthy (outputDir options)) eqn:Ho; [reflexivity|].
      destruct (JS.truthy (output_dir config)) eqn:Hc; cbn [negb andb].
      * now rewrite Hc.
      * destruct (JS.truthy (OUTPUT_DIR env)) eqn:He; cbn [negb andb].
        -- now rewrite He.
        -- now rewrite Hc.
    + now destruct (maxConcurrent options).
    + now destruct (opt_timeout options).
    + now destruct (pollInterval options).
    + now destruct (maxPollAttempts options).
  - split; [reflexivity|]. split; [reflexivity|].
    unfold maxRetriesOf, retryDelayOf, retryPatternsOf, mergeBatchConfig.
    cbn [retry_policy JS.nullish].
    destruct (retry_policy config) as [p|]; cbn; auto.
Qed.

(** X17 -- the settings [executeBatch] derives from the merged configuration: an
    option wins over the configuration, except that a concurrency limit or
    a polling setting of 0 still gives way to the default; without
    options the effective settings are those of the original
    configuration. *)
Theorem mergeBatchConfig_effective_settings :
  forall env config options,
    let merged := mergeBatchConfig env config options in
    maxConcurrentOf merged
    = JS.or_q (override (maxConcurrent options) (max_concurrent config)) 2 /\
    pollIntervalOf merged
    = JS.or_int (override (pollInterval options) (poll_interval config))
        DEFAULT_POLL_INTERVAL /\
    maxPollAttemptsOf merged
    = JS.or_q (override (maxPollAttempts options) (max_poll_attempts config))
        DEFAULT_MAX_POLL_ATTEMPTS /\
    outputDirOf env merged
    = (if JS.truthy (outputDir options)
       then JS.nullish (outputDir options) ""
       else outputDirOf env config).
Proof.
  intros env config options merged. subst merged.
  unfold maxConcurrentOf, pollIntervalOf, maxPollAttemptsOf, outputDirOf,
    mergeBatchConfig.
  cbn [max_concurrent poll_interval max_poll_attempts output_dir].
  split; [|split; [|split]].
  - destruct (override (maxConcurrent options) (max_concurrent config)) as [k|];
      cbn; [reflexivity|reflexivity].
  - destruct (override (pollInterval options) (poll_interval config)) as [k|];
      cbn; reflexivity.
  - destruct (override (maxPollAttempts options) (max_poll_attempts config))
      as [k|]; cbn; reflexivity.
  - unfold JS.or_str, getDefaultOutputDirectory, JS.or_str.
    destruct (JS.truthy (outputDir options)) eqn:Ho.
    + rewrite Ho. reflexivity.
    + destruct (JS.truthy (output_dir config)) eqn:Hc; cbn [negb andb].
      * rewrite Hc. reflexivity.
      * destruct (JS.truthy (OUTPUT_DIR env)) eqn:He; cbn [negb andb].
        -- rewrite He. reflexivity.
        -- rewrite Hc. reflexivity.
Qed.

Lemma executeBatch_counts env config options execs schedule r :
  executeBatch env config options execs schedule = inr r ->
  succeeded r = countStatus completed (results r) /\
  failed_count r = countStatus failed (results r) /\
  cancelled_count r = countStatus cancelled (results r) /\
  total r = length (results r) /\
  total r = length (jobs config).
Proof.
  intros Hreturn. rewrite executeBatch_unfold in Hreturn.
  destruct (launched env config options) as [e|[s0 paths]] eqn:Hrun;
    [discriminate|].
  injection Hreturn as <-.
  destruct (finalize_report env config options execs schedule s0 paths Hrun)
    as [_ Hlen].
  repeat split. cbn [total finalize]. now rewrite Hlen.
Qed.

Lemma countStatus_zero st rs :
  countStatus st rs = 0%nat <-> forall r, r ∈ rs -> status r <> st.
Proof.
  unfold countStatus. rewrite length_zero_iff_nil. split.
  - intros Hnil r Hin Hst.
    assert (r ∈ filter (fun r => status r = st) rs) as Hin'
        by (apply list_elem_of_filter; auto).
    rewrite Hnil in Hin'. inversion Hin'.
  - intros Hnone. induction rs as [|r rs IH]; [reflexivity|].
    rewrite filter_cons. case_decide as Hst.
    + exfalso. apply (Hnone r); [left|exact Hst].
    + apply IH. intros r' Hin. apply Hnone. now right.
Qed.

(** X18 -- the exit code of the command is 0 or 1.  After a batch run it is 0
    exactly when every job of the configuration completed; in
    estimate-only mode nothing is executed, the code is 0 and the
    estimate is the one of the configuration as loaded; a configuration
    error, from loading, validation or the resolution of an output path,
    gives 1. *)
Theorem main_exit_code :
  forall showVersion showHelp configPath apiKey loaded env options execs
         schedule,
    let out := main showVersion showHelp configPath apiKey loaded env options
                 execs schedule in
    (snd out = 0%nat \/ snd out = 1%nat) /\
    (forall r,
        fst out = Report r ->
        exists config,
          loaded = inr config /\
          validateBatchConfig config = inr tt /\
          executeBatch env (mergeBatchConfig env config options) options execs
            schedule = inr r /\
          total r = length (jobs config) /\
          (snd out = 0%nat <-> succeeded r = total r) /\
          (snd out = 0%nat <->
           forall res, res ∈ results r -> status res = completed)) /\
    (forall e,
        fst out = Estimate e ->
        snd out = 0%nat /\
        exists config,
          loaded = inr config /\
          validateBatchConfig config = inr tt /\
          e = estimateBatchCost config) /\
    (forall message,
        fst out = ConfigurationError message -> snd out = 1%nat).
Proof.
  intros showVersion showHelp configPath apiKey loaded env options execs
    schedule out. subst out. unfold main.
  destruct showVersion.
  { cbn. split; [now left|]. repeat split; intros; discriminate. }
  destruct (showHelp || negb (JS.truthy configPath)).
  { cbn [fst snd]. split; [destruct showHelp; auto|].
    repeat split; intros; discriminate. }
  destruct (negb (JS.truthy apiKey)).
  { cbn. split; [now right|]. repeat split; intros; discriminate. }
  destruct loaded as [[msg]|config].
  { cbn. split; [now right|]. repeat split; intros; try discriminate. }
  cbn [bind].
  destruct (validateBatchConfig config) as [[msg]|[]] eqn:Hvalid.
  { cbn. split; [now right|]. repeat split; intros; try discriminate. }
  cbn [bind].
  destruct (JS.nullish (estimateOnly options) false).
  { cbn [ok fst snd]. split; [now left|].
    split; [intros; discriminate|]. split; [|intros; discriminate].
    intros e [= <-]. split; [reflexivity|]. exists config.
    split; [reflexivity|]. split; [exact Hvalid|].
    apply estimate_merged. }
  destruct (executeBatch env (mergeBatchConfig env config options) options
              execs schedule) as [[msg]|r] eqn:Hrun.
  { cbn. split; [now right|]. repeat split; intros; try discriminate. }
  cbn [bind ok fst snd].
  destruct (executeBatch_counts _ _ _ _ _ _ Hrun)
    as (Hs & Hf & Hc & Htotal & Hjobs).
  pose proof (countStatus_partition (results r)) as Hsum.
  split.
  { destruct ((0 <? failed_count r)%nat || (0 <? cancelled_count r)%nat); auto. }
  split; [|split; intros; discriminate].
  intros r' [= <-]. exists config.
  split; [reflexivity|]. split; [exact Hvalid|]. split; [exact Hrun|].
  split; [exact Hjobs|].
  assert (Hcode : (if (0 <? failed_count r)%nat || (0 <? cancelled_count r)%nat
                   then 1%nat else 0%nat) = 0%nat
                  <-> failed_count r = 0%nat /\ cancelled_count r = 0%nat).
  { destruct (Nat.ltb_spec 0 (failed_count r)),
             (Nat.ltb_spec 0 (cancelled_count r)); cbn; lia. }
  rewrite Hcode. split.
  - lia.
  - rewrite Hf, Hc, !countStatus_zero. split.
    + intros [Hnf Hnc] res Hin.
      specialize (Hnf res Hin). specialize (Hnc res Hin).
      destruct (status res); congruence.
    + intros Hall. split; intros res Hin; rewrite (Hall res Hin); discriminate.
Qed.

(** ** Polling *)

Section PollFacts.

Variable showFraction : Q -> string.
Variable fetch : nat -> Response.
Variable pollInterval : Z.
Variable maxAttempts : Q.
Variable onProgress : bool.

Local Abbreviation loop :=
  (pollLoop showFraction fetch pollInterval maxAttempts onProgress).

(** A whole number is printed by its digits. *)
Lemma showNumber_whole q z :
  (q == inject_Z z)%Q -> showNumber showFraction q = showInt z.
Proof.
  intros Hq. unfold showNumber. rewrite (Qfloor_whole _ _ Hq).
  assert (Qeq_bool (inject_Z z) q = true) as ->; [|reflexivity].
  apply Qeq_bool_iff. symmetry. exact Hq.
Qed.

Lemma fetches_cons e trace :
  fetches (e :: trace)
  = ((match e with Fetch _ => 1 | _ => 0 end) + fetches trace)%nat.
Proof. unfold fetches. cbn [List.filter]. destruct e; reflexivity. Qed.

Lemma waits_cons e trace :
  waits (e :: trace)
  = ((match e with Wait _ => 1 | _ => 0 end) + waits trace)%nat.
Proof. unfold waits. cbn [List.filter]. destruct e; reflexivity. Qed.

Lemma fetches_app t1 t2 : fetches (t1 ++ t2)%list = (fetches t1 + fetches t2)%nat.
Proof. unfold fetches. now rewrite List.filter_app, length_app. Qed.

Lemma waits_app t1 t2 : waits (t1 ++ t2)%list = (waits t1 + waits t2)%nat.
Proof. unfold waits. now rewrite List.filter_app, length_app. Qed.




Lemma progress_trace (status : option VideoGenerationStatus) attempt :
  let progress := if onProgress then [Progress status attempt] else [] in
  fetches progress = 0%nat /\ waits progress = 0%nat /\
  (forall ms, ~ In (Wait ms) progress) /\
  endsBusy (Fetch attempt :: progress).
Proof.
  destruct onProgress; cbn.
  - split; [reflexivity|]. split; [reflexivity|].
    split; [intros ms [Heq|[]]; discriminate|].
    right. exists [Fetch attempt], (Progress status attempt).
    split; [reflexivity|discriminate].
  - split; [reflexivity|]. split; [reflexivity|].
    split; [intros ms []|].
    right. exists [], (Fetch attempt). split; [reflexivity|discriminate].
Qed.



End PollFacts.

Lemma pollLoop_returned showFraction fetch pollInterval maxAttempts onProgress
    remaining :
  forall attempt r,
    (remaining = 0%nat \/
     Z.of_nat (attempt + remaining) = (Qfloor maxAttempts + 1)%Z) ->
    fst (pollLoop showFraction fetch pollInterval maxAttempts onProgress
           remaining attempt)
    = Returned r
    <-> exists k,
        (k < remaining)%nat /\
        fetch (attempt + k)%nat = Ok r /\
        x_status r = Some st_completed /\
        forall j, (j < k)%nat -> goesOn (fetch (attempt + j)%nat) = true.
Proof.
  induction remaining as [|n IH]; intros attempt r Hend.
  - cbn. split; [discriminate|]. intros (k & Hk & _). lia.
  - destruct Hend as [Hz|Hend]; [discriminate|].
    specialize (IH (S attempt) r ltac:(right; lia)).
    assert (Hshift :
              (exists k, (k < n)%nat /\ fetch (S attempt + k)%nat = Ok r /\
                         x_status r = Some st_completed /\
                         forall j, (j < k)%nat ->
                                   goesOn (fetch (S attempt + j)%nat) = true)
              -> goesOn (fetch attempt) = true
              -> exists k, (k < S n)%nat /\ fetch (attempt + k)%nat = Ok r /\
                           x_status r = Some st_completed /\
                           forall j, (j < k)%nat ->
                                     goesOn (fetch (attempt + j)%nat) = true).
    { intros (k & Hk & Hfetch & Hst & Hgo) Hfirst. exists (S k).
      split; [lia|]. rewrite Nat.add_succ_r. split; [exact Hfetch|].
      split; [exact Hst|]. intros [|j] Hj.
      - now rewrite Nat.add_0_r.
      - rewrite Nat.add_succ_r. apply Hgo. lia. }
    assert (Hunshift :
              forall k, (k < S n)%nat -> fetch (attempt + k)%nat = Ok r ->
                        x_status r = Some st_completed ->
                        (forall j, (j < k)%nat ->
                                   goesOn (fetch (attempt + j)%nat) = true) ->
                        fetch attempt <> Ok r ->
                        (1 <= n)%nat /\
                        exists k', (k' < n)%nat /\
                                   fetch (S attempt + k')%nat = Ok r /\
                                   x_status r = Some st_completed /\
                                   forall j, (j < k')%nat ->
                                             goesOn (fetch (S attempt + j)%nat)
                                             = true).
    { intros [|k] Hk Hfetch Hst Hgo Hne.
      - rewrite Nat.add_0_r in Hfetch. congruence.
      - split; [lia|]. exists k. split; [lia|].
        rewrite Nat.add_succ_r in Hfetch. split; [exact Hfetch|].
        split; [exact Hst|]. intros j Hj. specialize (Hgo (S j) ltac:(lia)).
        now rewrite Nat.add_succ_r in Hgo. }
    cbn [pollLoop].
    destruct (fetch attempt) as [msg|status text|result] eqn:Hfetch.
    + cbn [fst]. split; [discriminate|].
      intros (k & Hk & Hf & Hst & Hgo).
      destruct k as [|k].
      * rewrite Nat.add_0_r in Hf. congruence.
      * specialize (Hgo 0%nat ltac:(lia)). rewrite Nat.add_0_r, Hfetch in Hgo.
        discriminate.
    + destruct ((500 <=? status)%Z
                && Config.Qlt_bool (JS.ofNat attempt) maxAttempts)
        eqn:Hretry.
      * apply andb_true_iff in Hretry as [H500 Hlt].
        destruct (pollLoop showFraction fetch pollInterval maxAttempts
                    onProgress n (S attempt)) as [out effects].
        cbn [fst] in *. rewrite IH. split.
        -- intros Hex. apply Hshift; [exact Hex|exact H500].
        -- intros (k & Hk & Hf & Hst & Hgo).
           apply (Hunshift k Hk Hf Hst Hgo). discriminate.
      * cbn [fst]. split; [discriminate|].
        intros (k & Hk & Hf & Hst & Hgo).
        destruct (Hunshift k Hk Hf Hst Hgo ltac:(discriminate)) as [Hn _].
        specialize (Hgo 0%nat). rewrite Nat.add_0_r in Hgo.
        destruct k as [|k]; [rewrite Nat.add_0_r in Hf; congruence|].
        specialize (Hgo ltac:(lia)). rewrite Hfetch in Hgo. cbn in Hgo.
        apply andb_false_iff in Hretry as [H500|Hlt]; [congruence|].
        destruct n as [|n]; [lia|].
        rewrite (below_floor_more attempt n maxAttempts Hend) in Hlt.
        discriminate Hlt.
    + destruct (x_status result) as [[| |]|] eqn:Hst.
      * (* pending *)
        destruct (pollLoop showFraction fetch pollInterval maxAttempts
                    onProgress n (S attempt)) as [out effects].
        cbn [fst] in *. rewrite IH. split.
        -- intros Hex. apply Hshift; [exact Hex|]. cbn. now rewrite Hst.
        -- intros (k & Hk & Hf & Hst' & Hgo).
           apply (Hunshift k Hk Hf Hst' Hgo). intros [= ->]. congruence.
      * (* completed *)
        cbn [fst]. split.
        -- intros [= <-]. exists 0%nat. rewrite Nat.add_0_r.
           split; [lia|]. split; [exact Hfetch|]. split; [exact Hst|].
           intros; lia.
        -- intros (k & Hk & Hf & Hst' & Hgo). destruct k as [|k].
           ++ rewrite Nat.add_0_r in Hf. congruence.
           ++ specialize (Hgo 0%nat ltac:(lia)).
              rewrite Nat.add_0_r, Hfetch in Hgo. cbn in Hgo.
              rewrite Hst in Hgo. discriminate.
      * (* failed *)
        cbn [fst]. split; [discriminate|].
        intros (k & Hk & Hf & Hst' & Hgo). destruct k as [|k].
        -- rewrite Nat.add_0_r in Hf. congruence.
        -- specialize (Hgo 0%nat ltac:(lia)).
           rewrite Nat.add_0_r, Hfetch in Hgo. cbn in Hgo.
           rewrite Hst in Hgo. discriminate.
      * (* no status *)
        destruct (pollLoop showFraction fetch pollInterval maxAttempts
                    onProgress n (S attempt)) as [out effects].
        cbn [fst] in *. rewrite IH. split.
        -- intros Hex. apply Hshift; [exact Hex|]. cbn. now rewrite Hst.
        -- intros (k & Hk & Hf & Hst' & Hgo).
           apply (Hunshift k Hk Hf Hst' Hgo). intros [= ->]. congruence.
Qed.

Lemma pollLoop_pending showFraction fetch pollInterval maxAttempts onProgress
    remaining :
  forall attempt,
    (remaining = 0%nat \/
     Z.of_nat (attempt + remaining) = (Qfloor maxAttempts + 1)%Z) ->
    (forall a, (attempt <= a < attempt + remaining)%nat ->
               exists r, fetch a = Ok r /\
                         x_status r <> Some st_completed /\
                         x_status r <> Some st_failed) ->
    let out := pollLoop showFraction fetch pollInterval maxAttempts onProgress
                 remaining attempt in
    fst out = Thrown ("Video generation timed out after "
                        ++ showNumber showFraction maxAttempts ++ " attempts") /\
    fetches (snd out) = remaining /\
    waits (snd out)
    = ((remaining - 1)
       + (if (1 <=? remaining)%nat
             && Config.Qlt_bool (inject_Z (Qfloor maxAttempts)) maxAttempts
          then 1 else 0))%nat.
Proof.
  induction remaining as [|n IH]; intros attempt Hend Hall; cbn zeta.
  - cbn. auto.
  - destruct Hend as [Hz|Hend]; [discriminate|].
    specialize (IH (S attempt) ltac:(right; lia)
                  ltac:(intros a Ha; apply Hall; lia)).
    cbn zeta in IH. cbn [pollLoop].
    destruct (Hall attempt ltac:(lia)) as (r & -> & Hnc & Hnf).
    destruct (progress_trace onProgress (x_status r) attempt)
      as (Hpf & Hpw & _).
    cbn zeta in Hpf, Hpw.
    destruct (pollLoop showFraction fetch pollInterval maxAttempts onProgress n
                (S attempt)) as [out effects].
    cbn [fst snd] in IH. destruct IH as (Hout & Hf & Hw).
    assert (Hwait : waits (if Config.Qlt_bool (JS.ofNat attempt) maxAttempts
                           then [Wait pollInterval] else [])
                    = (if (1 <=? n)%nat then 1%nat
                       else if Config.Qlt_bool (inject_Z (Qfloor maxAttempts))
                                 maxAttempts
                            then 1%nat else 0%nat)).
    { destruct n as [|n].
      - cbn [Nat.leb]. unfold JS.ofNat.
        replace (Z.of_nat attempt) with (Qfloor maxAttempts) by lia.
        now destruct (Config.Qlt_bool _ _).
      - now rewrite (below_floor_more attempt n maxAttempts Hend). }
    assert (Hnf' : fetches (if Config.Qlt_bool (JS.ofNat attempt) maxAttempts
                            then [Wait pollInterval] else []) = 0%nat).
    { destruct (Config.Qlt_bool (JS.ofNat attempt) maxAttempts); reflexivity. }
    destruct (x_status r) as [[| |]|]; try congruence; cbn [fst snd];
      rewrite fetches_cons, waits_cons, !fetches_app, !waits_app, Hpf, Hpw,
        Hwait, Hnf', Hf, Hw;
      (split; [exact Hout|]); cbn [Nat.leb];
      destruct n as [|n]; cbn [Nat.leb andb];
      destruct (Config.Qlt_bool (inject_Z (Qfloor maxAttempts)) maxAttempts);
      lia.
Qed.

(** With a limit of 1.5 attempts the only request is followed by a
    delay. *)
Lemma pollVideoResult_fractional_limit_trace :
  snd (pollVideoResult (fun _ => "1.5")
         (fun _ => Ok {| x_status := Some st_pending; x_video := None;
                         x_model := None; x_error := None |})
         (Some 1000%Z) (Some (3 # 2)%Q) false)
  = [Fetch 1; Wait 1000].
Proof. vm_compute. reflexivity. Qed.


(** X20 -- [pollVideoResult] returns a result exactly when some attempt within
    the limit is answered with status [completed] and every earlier
    attempt was answered with a server error or a body whose status is
    neither [completed] nor [failed]; it returns that first such body. *)
Theorem pollVideoResult_returns_iff :
  forall showFraction fetch pollInterval maxAttempts onProgress r,
    fst (pollVideoResult showFraction fetch pollInterval maxAttempts onProgress)
    = Returned r
    <-> exists a,
        (1 <= a)%nat /\
        (JS.ofNat a <= JS.nullish maxAttempts DEFAULT_MAX_POLL_ATTEMPTS)%Q /\
        fetch a = Ok r /\
        x_status r = Some st_completed /\
        forall b, (1 <= b < a)%nat -> goesOn (fetch b) = true.
Proof.
  intros showFraction fetch pollInterval maxAttempts onProgress r.
  unfold pollVideoResult. cbn zeta.
  set (interval := JS.nullish pollInterval DEFAULT_POLL_INTERVAL).
  set (attempts := JS.nullish maxAttempts DEFAULT_MAX_POLL_ATTEMPTS).
  rewrite pollLoop_returned
    by (destruct (Z.to_nat (Qfloor attempts)) eqn:Hn; [now left|right; lia]).
  split.
  - intros (k & Hk & Hf & Hst & Hgo). exists (1 + k)%nat.
    split; [lia|]. split; [apply ofNat_le_floor; lia|].
    split; [exact Hf|]. split; [exact Hst|].
    intros b Hb. replace b with (1 + (b - 1))%nat by lia. apply Hgo. lia.
  - intros (a & Ha & Hmax & Hf & Hst & Hgo). exists (a - 1)%nat.
    apply ofNat_le_floor in Hmax.
    split; [lia|]. replace (1 + (a - 1))%nat with a by lia.
    split; [exact Hf|]. split; [exact Hst|].
    intros j Hj. apply Hgo. lia.
Qed.

(** X21 -- a body without a status counts as pending: when every answer is a
    body whose status is neither [completed] nor [failed], for instance
    the bare [{video, model}] object, [pollVideoResult] uses all its
    attempts, as many as the whole part of [maxAttempts], and throws the
    timeout error, which prints [maxAttempts]; for a whole [maxAttempts]
    there is a delay between the attempts and none after the last, for
    any other a delay after each attempt. *)
Theorem pollVideoResult_times_out :
  forall showFraction fetch pollInterval maxAttempts onProgress,
    (forall a, exists r, fetch a = Ok r /\
                         x_status r <> Some st_completed /\
                         x_status r <> Some st_failed) ->
    let attempts := JS.nullish maxAttempts DEFAULT_MAX_POLL_ATTEMPTS in
    let out := pollVideoResult showFraction fetch pollInterval maxAttempts
                 onProgress in
    fst out = Thrown ("Video generation timed out after "
                        ++ showNumber showFraction attempts ++ " attempts") /\
    fetches (snd out) = Z.to_nat (Qfloor attempts) /\
    (forall z,
        (attempts == inject_Z z)%Q ->
        fst out = Thrown ("Video generation timed out after " ++ showInt z
                            ++ " attempts") /\
        fetches (snd out) = Z.to_nat z /\
        waits (snd out) = (Z.to_nat z - 1)%nat) /\
    (~ isWhole attempts -> waits (snd out) = Z.to_nat (Qfloor attempts)).
Proof.
  intros showFraction fetch pollInterval maxAttempts onProgress Hall attempts
    out.
  subst out. unfold pollVideoResult. cbn zeta. fold attempts.
  destruct (pollLoop_pending showFraction fetch
              (JS.nullish pollInterval DEFAULT_POLL_INTERVAL) attempts
              onProgress (Z.to_nat (Qfloor attempts)) 1) as (Hout & Hf & Hw).
  { destruct (Z.to_nat (Qfloor attempts)) eqn:Hn; [now left|right; lia]. }
  { intros a _. apply Hall. }
  cbn zeta in Hout, Hf, Hw.
  split; [exact Hout|]. split; [exact Hf|]. split.
  - intros z Hz. rewrite Hout, Hf, Hw.
    rewrite (showNumber_whole showFraction _ _ Hz), (Qfloor_whole _ _ Hz).
    split; [reflexivity|]. split; [reflexivity|].
    assert (Config.Qlt_bool (inject_Z z) attempts = false) as ->.
    { apply Qlt_bool_false. rewrite Hz. apply Qle_refl. }
    rewrite andb_false_r. lia.
  - intros Hfrac. rewrite Hw.
    assert (Config.Qlt_bool (inject_Z (Qfloor attempts)) attempts = true) as ->.
    { apply Qlt_bool_iff. apply Qnot_le_lt. intros Hle. apply Hfrac.
      exists (Qfloor attempts). apply Qle_antisym; [exact Hle|apply Qfloor_le]. }
    rewrite andb_true_r.
    destruct (Nat.leb_spec 1 (Z.to_nat (Qfloor attempts))); lia.
Qed.

Lemma pollVideoResult_times_out_witness :
  fst (pollVideoResult (fun _ => "1.5")
         (fun _ => Ok {| x_status := None;
                         x_video := Some {| xv_url := "https://vidgen.x.ai/v.mp4";
                                            xv_duration := 5 |};
                         x_model := Some "grok-imagine-video";
                         x_error := None |})
         (Some 1000%Z) (Some 3%Q) false)
  = Thrown "Video generation timed out after 3 attempts".
Proof.
  apply (pollVideoResult_times_out (fun _ => "1.5")
           (fun _ => Ok {| x_status := None;
                           x_video := Some {| xv_url := "https://vidgen.x.ai/v.mp4";
                                              xv_duration := 5 |};
                           x_model := Some "grok-imagine-video";
                           x_error := None |})
           (Some 1000%Z) (Some 3%Q) false).
  intros a. eexists. split; [reflexivity|]. split; discriminate.
Defined.

(** ** Output files *)

Section PathUtilFacts.

Variable extname : string -> string.
Variable basename : string -> string -> string.
Variable dirname : string -> string.
Variable fileExists : string -> bool.

(** The paths [generateUniqueFilePath] tries, in order. *)
Local Abbreviation candidate := (fun (filePath : string) (n : nat) =>
  match n with
  | O => filePath
  | S _ =>
      Path.join (dirname filePath)
        (basename filePath (extname filePath) ++ "_" ++ JS.showNat n
           ++ extname filePath)
  end).

Lemma uniqueLoop_first_free ext baseName dir :
  forall k fuel counter uniquePath,
    (k <= fuel)%nat ->
    let try n :=
      match n with
      | O => uniquePath
      | S m =>
          Path.join dir (baseName ++ "_" ++ JS.showNat (counter + n) ++ ext)
      end in
    (forall n, (n < k)%nat -> fileExists (try n) = true) ->
    fileExists (try k) = false ->
    uniqueLoop fileExists fuel ext baseName dir counter uniquePath
    = Some (try k).
Proof.
  induction k as [|k IH]; intros fuel counter uniquePath Hfuel try Hbusy Hfree;
    subst try; cbv beta in *.
  - destruct fuel; cbn [uniqueLoop]; now rewrite Hfree.
  - destruct fuel as [|fuel]; [lia|]. cbn [uniqueLoop].
    pose proof (Hbusy 0%nat ltac:(lia)) as H0. cbv iota in H0. rewrite H0.
    specialize (IH fuel (counter + 1)%nat
                  (Path.join dir
                     (baseName ++ "_" ++ JS.showNat (counter + 1) ++ ext))
                  ltac:(lia)).
    cbv zeta beta in IH. rewrite IH.
    + destruct k; [reflexivity|].
      replace (counter + 1 + S k)%nat with (counter + S (S k))%nat by lia.
      reflexivity.
    + intros n Hn. specialize (Hbusy (S n) ltac:(lia)). cbv iota in Hbusy.
      destruct n.
      * replace (counter + 1)%nat with (counter + 1)%nat by lia. exact Hbusy.
      * replace (counter + 1 + S n)%nat with (counter + S (S n))%nat by lia.
        exact Hbusy.
    + destruct k; [exact Hfree|].
      replace (counter + 1 + S k)%nat with (counter + S (S k))%nat by lia.
      exact Hfree.
Qed.

Lemma uniqueLoop_free ext baseName dir :
  forall fuel counter uniquePath p,
    uniqueLoop fileExists fuel ext baseName dir counter uniquePath = Some p ->
    fileExists p = false.
Proof.
  induction fuel as [|fuel IH]; intros counter uniquePath p; cbn [uniqueLoop];
    destruct (fileExists uniquePath) eqn:Hex; try discriminate;
    try (intros [= <-]; exact Hex).
  apply IH.
Qed.

(** X22 -- [generateUniqueFilePath] returns the first path that does not exist
    among the given one and its numbered variants [base_1.ext],
    [base_2.ext], ...: the given path itself when it is free; the loop
    ends as soon as such a path is reached, and what is returned never
    names an existing file. *)
Theorem generateUniqueFilePath_first_free :
  forall filePath k fuel,
    (forall n, (n < k)%nat -> fileExists (candidate filePath n) = true) ->
    fileExists (candidate filePath k) = false ->
    (k <= fuel)%nat ->
    generateUniqueFilePath extname basename dirname fileExists fuel filePath
    = Some (candidate filePath k) /\
    (forall fuel' p,
        generateUniqueFilePath extname basename dirname fileExists fuel'
          filePath = Some p ->
        fileExists p = false).
Proof.
  intros filePath k fuel Hbusy Hfree Hfuel. split.
  - unfold generateUniqueFilePath.
    rewrite (uniqueLoop_first_free _ _ _ k fuel 0 filePath Hfuel).
    + destruct k; reflexivity.
    + intros n Hn. specialize (Hbusy n Hn). destruct n; exact Hbusy.
    + destruct k; exact Hfree.
  - intros fuel' p. apply uniqueLoop_free.
Qed.

(** X23 -- [getVideoExtension] answers [mp4], [webm] or [mov], whatever the
    path: the extension of the path in lower case when it is one of the
    three, and [mp4] otherwise. *)
Theorem getVideoExtension_known :
  forall outputPath,
    let ext := getVideoExtension extname outputPath in
    (ext = "mp4" \/ ext = "webm" \/ ext = "mov") /\
    (ext = "webm" <-> JS.toLowerCase (extname outputPath) = ".webm") /\
    (ext = "mov" <-> JS.toLowerCase (extname outputPath) = ".mov").
Proof.
  intros outputPath ext. subst ext. unfold getVideoExtension.
  destruct (JS.arrayIncludes [".mp4"; ".webm"; ".mov"]
              (JS.toLowerCase (extname outputPath))) eqn:Hin.
  - apply arrayIncludes_In in Hin.
    destruct Hin as [<-|[<-|[<-|[]]]]; cbn;
      (split; [auto|]); split; split; congruence.
  - assert (JS.toLowerCase (extname outputPath) <> ".webm" /\
            JS.toLowerCase (extname outputPath) <> ".mov") as [Hw Hm].
    { split; intros Heq; rewrite Heq in Hin; discriminate Hin. }
    split; [auto|]. split; split; intros; congruence.
Qed.

End PathUtilFacts.

Lemma generateUniqueFilePath_first_free_witness :
  generateUniqueFilePath (fun _ => ".mp4") (fun _ _ => "cat") (fun _ => "/out")
    (fun p => String.eqb p "/out/cat.mp4" || String.eqb p "/out/cat_1.mp4")
    5 "/out/cat.mp4"
  = Some "/out/cat_2.mp4".
Proof.
  apply (generateUniqueFilePath_first_free
           (fun _ => ".mp4") (fun _ _ => "cat") (fun _ => "/out")
           (fun p => String.eqb p "/out/cat.mp4" || String.eqb p "/out/cat_1.mp4")
           "/out/cat.mp4" 2 5).
  - intros [|[|n]] Hn; [reflexivity|reflexivity|lia].
  - reflexivity.
  - lia.
Defined.

(** ** The aspect-ratio pattern *)

Lemma digitsColonDigits_spec s :
  digitsColonDigits s = true
  <-> exists w h, s = w ++ ":" ++ h /\ h <> "" /\
                  digitsToEnd w = true /\ digitsToEnd h = true.
Proof.
  induction s as [|c s IH]; cbn [digitsColonDigits].
  - split; [discriminate|]. intros (w & h & Heq & Hne & _).
    destruct w; discriminate Heq.
  - destruct (isDigit c) eqn:Hd.
    + rewrite IH. split.
      * intros (w & h & -> & Hne & Hw & Hh). exists (String c w), h.
        split; [reflexivity|]. split; [exact Hne|].
        split; [cbn; now rewrite Hd|exact Hh].
      * intros (w & h & Heq & Hne & Hw & Hh). destruct w as [|c' w].
        -- change ("" ++ ":" ++ h) with (String ":" h) in Heq.
           injection Heq as -> _. discriminate Hd.
        -- change (String c' w ++ ":" ++ h) with (String c' (w ++ ":" ++ h))
             in Heq.
           injection Heq as -> ->. exists w, h.
           cbn in Hw. apply andb_true_iff in Hw as [_ Hw]. auto.
    + destruct (Ascii.eqb_spec c ":"%char) as [->|Hc].
      * split.
        -- intros Hrest. exists "", s. split; [reflexivity|].
           destruct s; [discriminate|]. split; [discriminate|]. auto.
        -- intros (w & h & Heq & Hne & Hw & Hh). destruct w as [|c' w].
           ++ change ("" ++ ":" ++ h) with (String ":" h) in Heq.
              injection Heq as ->. destruct h; [congruence|exact Hh].
           ++ change (String c' w ++ ":" ++ h) with (String c' (w ++ ":" ++ h))
                in Heq.
              injection Heq as <- _. cbn in Hw. discriminate Hw.
      * split; [discriminate|].
        intros (w & h & Heq & Hne & Hw & Hh). destruct w as [|c' w].
        -- change ("" ++ ":" ++ h) with (String ":" h) in Heq.
           injection Heq as -> _. congruence.
        -- change (String c' w ++ ":" ++ h) with (String c' (w ++ ":" ++ h))
             in Heq.
           injection Heq as -> _. cbn in Hw. rewrite Hd in Hw. discriminate Hw.
Qed.

(** X24 -- [validateAspectRatio] accepts exactly the strings made of one or more
    digits, a colon, and one or more digits; every aspect ratio of the
    list the batch validation checks against is such a string. *)
Theorem validateAspectRatio_spec :
  forall s,
    (validateAspectRatio s = true
     <-> exists w h, s = w ++ ":" ++ h /\ w <> "" /\ h <> "" /\
                     digitsToEnd w = true /\ digitsToEnd h = true) /\
    (In s ASPECT_RATIOS -> validateAspectRatio s = true).
Proof.
  intros s. split.
  - destruct s as [|c s]; cbn [validateAspectRatio].
    + split; [discriminate|]. intros (w & h & Heq & _).
      destruct w; discriminate Heq.
    + rewrite andb_true_iff, digitsColonDigits_spec. split.
      * intros (Hd & w & h & -> & Hne & Hw & Hh). exists (String c w), h.
        split; [reflexivity|]. split; [discriminate|]. split; [exact Hne|].
        split; [cbn; now rewrite Hd|exact Hh].
      * intros (w & h & Heq & Hwne & Hne & Hw & Hh).
        destruct w as [|c' w]; [congruence|].
        change (String c' w ++ ":" ++ h) with (String c' (w ++ ":" ++ h)) in Heq.
        injection Heq as -> ->. cbn in Hw.
        apply andb_true_iff in Hw as [Hd Hw]. split; [exact Hd|].
        exists w, h. auto.
  - intros Hin. unfold ASPECT_RATIOS in Hin. cbn in Hin.
    repeat (destruct Hin as [<-|Hin]; [reflexivity|]). destruct Hin.
Qed.

(** ** The upload settings *)

Lemma dropTrailingSlash_append s : dropTrailingSlash (s ++ "/") = s.
Proof.
  induction s as [|c s IH]; [reflexivity|].
  change (String c s ++ "/") with (String c (s ++ "/")).
  cbn [dropTrailingSlash]. rewrite IH.
  destruct s; reflexivity.
Qed.

(** X25 -- the upload is configured exactly when no variable is reported
    missing; the variables reported are those that are unset or empty, in
    the order of the list; a configuration that is returned holds the five
    values, none of them touched except for one trailing slash taken off
    the public URL. *)
Theorem getR2Config_missing :
  forall env,
    (isR2Configured env = true <-> getMissingR2Vars env = []) /\
    (getR2Config env = None <-> getMissingR2Vars env <> []) /\
    (forall name,
        In name (getMissingR2Vars env)
        <-> In name ["R2_ACCOUNT_ID"; "R2_ACCESS_KEY_ID"; "R2_SECRET_ACCESS_KEY";
                     "R2_BUCKET_NAME"; "R2_PUBLIC_URL"]
            /\ JS.truthy (lookupVar env name) = false) /\
    (forall config,
        getR2Config env = Some config ->
        R2_ACCOUNT_ID env = Some (accountId config) /\
        R2_ACCESS_KEY_ID env = Some (accessKeyId config) /\
        R2_SECRET_ACCESS_KEY env = Some (secretAccessKey config) /\
        R2_BUCKET_NAME env = Some (bucketName config) /\
        exists url,
          R2_PUBLIC_URL env = Some url /\ url <> "" /\
          publicUrl config = dropTrailingSlash url /\
          (forall base, url = base ++ "/" -> publicUrl config = base)).
Proof.
  intros env.
  split; [|split; [|split]].
  - unfold isR2Configured, getR2Config, getMissingR2Vars.
    cbn [List.filter lookupVar String.eqb Ascii.eqb Bool.eqb].
    destruct (JS.truthy (R2_ACCOUNT_ID env)),
             (JS.truthy (R2_ACCESS_KEY_ID env)),
             (JS.truthy (R2_SECRET_ACCESS_KEY env)),
             (JS.truthy (R2_BUCKET_NAME env)),
             (JS.truthy (R2_PUBLIC_URL env)); cbn; split; congruence.
  - unfold getR2Config, getMissingR2Vars.
    cbn [List.filter lookupVar String.eqb Ascii.eqb Bool.eqb].
    destruct (JS.truthy (R2_ACCOUNT_ID env)),
             (JS.truthy (R2_ACCESS_KEY_ID env)),
             (JS.truthy (R2_SECRET_ACCESS_KEY env)),
             (JS.truthy (R2_BUCKET_NAME env)),
             (JS.truthy (R2_PUBLIC_URL env)); cbn; split; congruence.
  - intros name. unfold getMissingR2Vars. rewrite filter_In, negb_true_iff.
    reflexivity.
  - intros config. unfold getR2Config.
    destruct (R2_ACCOUNT_ID env) as [[|? a]|]; try discriminate;
      destruct (R2_ACCESS_KEY_ID env) as [[|? b]|]; try discriminate;
      destruct (R2_SECRET_ACCESS_KEY env) as [[|? c]|]; try discriminate;
      destruct (R2_BUCKET_NAME env) as [[|? d]|]; try discriminate;
      destruct (R2_PUBLIC_URL env) as [[|u0 u]|]; try discriminate.
    cbn [JS.truthy negb orb JS.nullish]. intros [= <-].
    cbn [accountId accessKeyId secretAccessKey bucketName publicUrl].
    repeat (split; [reflexivity|]).
    eexists. split; [reflexivity|]. split; [discriminate|].
    split; [reflexivity|]. intros base Heq.
    change (dropTrailingSlash (String u0 u) = base).
    rewrite Heq. apply dropTrailingSlash_append.
Qed.

(** ** Output paths *)

(** X26 -- [resolveOutputPath] throws in one case only: the job names an
    absolute output path, [allowAnyPath] is off, and the resolved path
    does not start with the resolved output directory; the error then
    carries the number of the job.  With [allowAnyPath] on it never
    throws. *)
Theorem resolveOutputPath_throws_iff :
  forall env job i outputDir allowAny e,
    resolveOutputPath env job i outputDir allowAny = inl e
    <-> exists out,
        output_path job = Some out /\
        Path.isAbsolute out = true /\
        allowAny = false /\
        JS.startsWith (Path.resolve (cwd env) out)
          (Path.resolve (cwd env) outputDir) = false /\
        e = MkBatchConfigError
              ("Job " ++ JS.showNat (i + 1)
                 ++ ": Output path must be within output directory. Use --allow-any-path to override.").
Proof.
  intros env job i outputDir allowAny e. unfold resolveOutputPath.
  destruct (output_path job) as [[|c out]|] eqn:Hout.
  - split; [discriminate|]. intros (out & [= <-] & Habs & _). discriminate.
  - destruct (Path.isAbsolute (String c out)) eqn:Habs.
    + destruct allowAny; cbn [negb bind ok].
      * split; [discriminate|]. intros (out' & _ & _ & Hallow & _).
        discriminate.
      * unfold throwIf, throw, ok, bind.
        destruct (JS.startsWith (Path.resolve (cwd env) (String c out))
                    (Path.resolve (cwd env) outputDir)) eqn:Hpre;
          cbn [negb].
        -- split; [discriminate|].
           intros (out' & [= <-] & _ & _ & Hno & _). congruence.
        -- split.
           ++ intros [= <-]. exists (String c out). auto.
           ++ intros (out' & [= <-] & _ & _ & _ & ->). reflexivity.
    + split; [discriminate|].
      intros (out' & [= <-] & Habs' & _). congruence.
  - split; [discriminate|]. intros (out & Hsome & _). discriminate.
Qed.

(** X27 -- without an output path of its own a job is written to the output
    directory under a name made of a prefix and its number.  The prefix
    follows the video URL and the image URL only: a job that animates a
    local image, which the estimate and [executeJob] treat as
    image-to-video, is named like a text-to-video job. *)
Theorem resolveOutputPath_default_name :
  forall env job i outputDir allowAny,
    JS.truthy (output_path job) = false ->
    let prefix :=
      match estimateType job with
      | edit => "edited"
      | image_to_video =>
          if JS.truthy (image_url job) then "animated" else "generated"
      | generation => "generated"
      end in
    resolveOutputPath env job i outputDir allowAny
    = inr (Path.join outputDir
             (prefix ++ "_" ++ JS.showNat (i + 1) ++ ".mp4")).
Proof.
  intros env job i outputDir allowAny Hnone prefix. subst prefix.
  unfold resolveOutputPath, estimateType, typeAndDuration.
  destruct (output_path job) as [[|c out]|]; try discriminate Hnone;
    destruct (JS.truthy (video_url job)); cbn [fst]; try reflexivity;
    destruct (JS.truthy (image_url job)); cbn [orb fst]; try reflexivity;
    destruct (JS.truthy (image_path job)); reflexivity.
Qed.

Lemma resolveOutputPath_default_name_witness :
  estimateType Sample.imagePathJob = image_to_video /\
  resolveOutputPath Sample.env Sample.imagePathJob 0 "/out" false
  = inr "/out/generated_1.mp4".
Proof.
  split; [reflexivity|].
  apply (resolveOutputPath_default_name Sample.env Sample.imagePathJob 0 "/out"
           false eq_refl).
Defined.

(** ** The command line *)



